(** * A shallow embedding of the delimited-text tokenizer
      (astropy/io/ascii/src/tokenizer.c)

    The C code is embedded function by function.  Conventions:

    - a [char] is a [Z]; the character constants of the source are written as
      their codes (['\n'] = 10, ['\r'] = 13, [' '] = 32, ['\t'] = 9, ...);
    - [self->source] together with [self->source_len] is a [list Z]
      ([source_len] is the length of the list); [self->source_pos] is a [Z],
      because the code lets it reach [-1] while it backtracks;
    - a column [i] is a heap block [output_cols[i]] of [output_len[i]] bytes
      and a write pointer [col_ptrs[i]] into it: the block is a [list Z]
      whose length is [output_len[i]], the pointer is its offset
      [col_ptrs[i] - output_cols[i]];
    - the macros [PUSH], [END_FIELD], [END_LINE], [RETURN], [HANDLE_CR],
      [BEGIN_FIELD] are functions on the tokenizer and on the local
      variables of [tokenize];
    - an access outside a block or outside the arrays of columns has no
      defined behaviour in C: the embedding makes it an explicit outcome
      ([None] for the macros, [Crash] and [Undefined] for the loop), and no
      statement below says anything about what happens after it;
    - C [int]s are unbounded integers: sizes are assumed to fit. *)

From Stdlib Require Import String Ascii.
From Stdlib Require Import ZArith List Bool Lia.
From Stdlib Require Import Floats.PrimFloat.
From Stdlib Require Import Numbers.Cyclic.Int63.Uint63.
Import ListNotations.

Open Scope Z_scope.

(** ** Bytes and character classes *)

Definition byte_of_ascii (a : ascii) : Z := Z.of_N (N_of_ascii a).

Fixpoint bytes (s : string) : list Z :=
  match s with
  | EmptyString => []
  | String a s' => byte_of_ascii a :: bytes s'
  end.

Definition NL : Z := 10.
Definition CR : Z := 13.
Definition SPACE : Z := 32.
Definition TAB : Z := 9.

(** [c == ' ' || c == '\t'] *)
Definition is_blank (c : Z) : bool := (c =? SPACE) || (c =? TAB).

(** ** Error codes and machine states (the enums of tokenizer.h) *)

Inductive err_code : Type :=
| NO_ERROR
| INVALID_LINE
| TOO_MANY_COLS
| NOT_ENOUGH_COLS
| CONVERSION_ERROR
| OVERFLOW_ERROR.

Inductive tokenizer_state : Type :=
| START_LINE
| START_FIELD
| START_QUOTED_FIELD
| FIELD
| QUOTED_FIELD
| QUOTED_FIELD_NEWLINE
| COMMENT
| CARRIAGE_RETURN.

Definition err_code_eq_dec (a b : err_code) : {a = b} + {a <> b}.
Proof. decide equality. Defined.

Definition state_eq_dec (a b : tokenizer_state) : {a = b} + {a <> b}.
Proof. decide equality. Defined.

Definition state_eqb (a b : tokenizer_state) : bool :=
  if state_eq_dec a b then true else false.

(** ** The tokenizer object *)

(** One output column: the block [output_cols[i]] (its length is
    [output_len[i]]) and the offset of [col_ptrs[i]] in it. *)
Record column : Type := mk_column {
  col_data : list Z;
  col_ptr : nat
}.

Record tokenizer : Type := mk_tokenizer {
  source : list Z;
  source_pos : Z;
  delimiter : Z;
  comment : Z;
  quotechar : Z;
  output_cols : list column;
  num_cols : nat;
  num_rows : Z;
  fill_extra_cols : bool;
  state : tokenizer_state;
  code : err_code;
  iter_col : nat;
  curr_pos : nat;
  strip_whitespace_lines : bool;
  strip_whitespace_fields : bool;
  use_fast_converter : bool;
  buf : list Z
}.

Definition source_len (self : tokenizer) : Z := Z.of_nat (length (source self)).

Definition output_len (self : tokenizer) (i : nat) : option nat :=
  option_map (fun cl => length (col_data cl)) (nth_error (output_cols self) i).

Definition set_source_pos (self : tokenizer) (p : Z) : tokenizer :=
  mk_tokenizer (source self) p (delimiter self) (comment self) (quotechar self)
    (output_cols self) (num_cols self) (num_rows self) (fill_extra_cols self)
    (state self) (code self) (iter_col self) (curr_pos self)
    (strip_whitespace_lines self) (strip_whitespace_fields self)
    (use_fast_converter self) (buf self).

Definition set_output_cols (self : tokenizer) (cs : list column) : tokenizer :=
  mk_tokenizer (source self) (source_pos self) (delimiter self) (comment self)
    (quotechar self) cs (num_cols self) (num_rows self) (fill_extra_cols self)
    (state self) (code self) (iter_col self) (curr_pos self)
    (strip_whitespace_lines self) (strip_whitespace_fields self)
    (use_fast_converter self) (buf self).

Definition set_num_cols (self : tokenizer) (n : nat) : tokenizer :=
  mk_tokenizer (source self) (source_pos self) (delimiter self) (comment self)
    (quotechar self) (output_cols self) n (num_rows self) (fill_extra_cols self)
    (state self) (code self) (iter_col self) (curr_pos self)
    (strip_whitespace_lines self) (strip_whitespace_fields self)
    (use_fast_converter self) (buf self).

Definition set_num_rows (self : tokenizer) (n : Z) : tokenizer :=
  mk_tokenizer (source self) (source_pos self) (delimiter self) (comment self)
    (quotechar self) (output_cols self) (num_cols self) n (fill_extra_cols self)
    (state self) (code self) (iter_col self) (curr_pos self)
    (strip_whitespace_lines self) (strip_whitespace_fields self)
    (use_fast_converter self) (buf self).

Definition set_state (self : tokenizer) (s : tokenizer_state) : tokenizer :=
  mk_tokenizer (source self) (source_pos self) (delimiter self) (comment self)
    (quotechar self) (output_cols self) (num_cols self) (num_rows self)
    (fill_extra_cols self) s (code self) (iter_col self) (curr_pos self)
    (strip_whitespace_lines self) (strip_whitespace_fields self)
    (use_fast_converter self) (buf self).

Definition set_code (self : tokenizer) (c : err_code) : tokenizer :=
  mk_tokenizer (source self) (source_pos self) (delimiter self) (comment self)
    (quotechar self) (output_cols self) (num_cols self) (num_rows self)
    (fill_extra_cols self) (state self) c (iter_col self) (curr_pos self)
    (strip_whitespace_lines self) (strip_whitespace_fields self)
    (use_fast_converter self) (buf self).

Definition set_iter (self : tokenizer) (ic : nat) (cp : nat) : tokenizer :=
  mk_tokenizer (source self) (source_pos self) (delimiter self) (comment self)
    (quotechar self) (output_cols self) (num_cols self) (num_rows self)
    (fill_extra_cols self) (state self) (code self) ic cp
    (strip_whitespace_lines self) (strip_whitespace_fields self)
    (use_fast_converter self) (buf self).

(** [create_tokenizer]: no source, no output, [buf] is [calloc(2, 1)]. *)
Definition create_tokenizer (delimiter comment quotechar : Z)
    (fill_extra_cols strip_whitespace_lines strip_whitespace_fields
       use_fast_converter : bool) : tokenizer :=
  mk_tokenizer [] 0 delimiter comment quotechar [] 0 0 fill_extra_cols
    START_LINE NO_ERROR 0 0 strip_whitespace_lines strip_whitespace_fields
    use_fast_converter [0; 0].

(** The caller installs an input by storing [source] and [source_len] and
    zeroing [source_pos]. *)
Definition set_source (self : tokenizer) (src : list Z) : tokenizer :=
  mk_tokenizer src 0 (delimiter self) (comment self) (quotechar self)
    (output_cols self) (num_cols self) (num_rows self) (fill_extra_cols self)
    (state self) (code self) (iter_col self) (curr_pos self)
    (strip_whitespace_lines self) (strip_whitespace_fields self)
    (use_fast_converter self) (buf self).

(** [delete_data]: the three arrays are freed and their pointers zeroed. *)
Definition delete_data (self : tokenizer) : tokenizer := set_output_cols self [].

(** ** Memory accesses *)

(** [self->source[p]]; [None] outside the slice. *)
Definition source_at (self : tokenizer) (p : Z) : option Z :=
  if p <? 0 then None else nth_error (source self) (Z.to_nat p).

(** [l[i] = v] inside a block. *)
Fixpoint store (l : list Z) (i : nat) (v : Z) : list Z :=
  match l, i with
  | [], _ => []
  | _ :: tl, O => v :: tl
  | x :: tl, S j => x :: store tl j v
  end.

(** Replace column [i] of the arrays. *)
Fixpoint set_nth (cs : list column) (i : nat) (cl : column) : list column :=
  match cs, i with
  | [], _ => []
  | _ :: tl, O => cl :: tl
  | x :: tl, S j => x :: set_nth tl j cl
  end.

Definition set_col (self : tokenizer) (i : nat) (cl : column) : tokenizer :=
  set_output_cols self (set_nth (output_cols self) i cl).

(** ** [resize_col] and the macro [PUSH] *)

(** The block doubles, its new half is zeroed, the write pointer keeps its
    offset. *)
Definition resize_col (cl : column) : column :=
  mk_column (col_data cl ++ repeat 0 (length (col_data cl))) (col_ptr cl).

(** Store [c] at the write pointer and advance it, after the resize if the
    pointer has reached the end of the block. *)
Definition push_col (cl : column) (c : Z) : option column :=
  let cl1 := if (length (col_data cl) <=? col_ptr cl)%nat then resize_col cl else cl in
  if (col_ptr cl1 <? length (col_data cl1))%nat
  then Some (mk_column (store (col_data cl1) (col_ptr cl1) c) (S (col_ptr cl1)))
  else None.

Definition PUSH (self : tokenizer) (col : nat) (c : Z) : option tokenizer :=
  match nth_error (output_cols self) col with
  | None => None
  | Some cl =>
      match push_col cl c with
      | None => None
      | Some cl' => Some (set_col self col cl')
      end
  end.

(** ** The macro [END_FIELD] *)

(** The backward loop of END_FIELD on a block: the pointer is decremented,
    then, while the byte it points to is a space or a tab, that byte is
    zeroed and the pointer decremented again; at the end the pointer is
    incremented.  [q] is the offset of the write pointer before the first
    decrement, the result its offset after the last increment.  The byte
    examined is the one at [q - 1]; there is none when [q] is 0. *)
Fixpoint rstrip (d : list Z) (q : nat) : option (list Z * nat) :=
  match q with
  | O => None
  | S p =>
      match nth_error d p with
      | None => None
      | Some b => if is_blank b then rstrip (store d p 0) p else Some (d, q)
      end
  end.

Definition strip_col (cl : column) : option column :=
  match rstrip (col_data cl) (col_ptr cl) with
  | None => None
  | Some (d, q) => Some (mk_column d q)
  end.

(** [col_ptrs[col] == output_cols[col] || col_ptrs[col][-1] == 0] *)
Definition field_is_empty (cl : column) : option bool :=
  match col_ptr cl with
  | O => Some true
  | S p =>
      match nth_error (col_data cl) p with
      | None => None
      | Some b => Some (b =? 0)
      end
  end.

Definition end_field_col (strip : bool) (cl : column) : option column :=
  match (if strip then strip_col cl else Some cl) with
  | None => None
  | Some cl1 =>
      match field_is_empty cl1 with
      | None => None
      | Some e =>
          match (if e then push_col cl1 1 else Some cl1) with
          | None => None
          | Some cl2 => push_col cl2 0
          end
      end
  end.

(** The result is the tokenizer and the new value of the local [col]. *)
Definition END_FIELD (header : bool) (self : tokenizer) (col : nat)
  : option (tokenizer * nat) :=
  match nth_error (output_cols self) col with
  | None => None
  | Some cl =>
      match end_field_col (strip_whitespace_fields self) cl with
      | None => None
      | Some cl' => Some (set_col self col cl', if header then col else S col)
      end
  end.

(** ** The body of [tokenize] *)

(** The locals of [tokenize] that live across iterations. *)
Record locals : Type := mk_locals {
  col : nat;
  old_state : tokenizer_state;
  parse_newline : bool;
  whitespace : bool
}.

Definition set_col_idx (l : locals) (c : nat) : locals :=
  mk_locals c (old_state l) (parse_newline l) (whitespace l).
Definition set_old_state (l : locals) (s : tokenizer_state) : locals :=
  mk_locals (col l) s (parse_newline l) (whitespace l).
Definition set_parse_newline (l : locals) (b : bool) : locals :=
  mk_locals (col l) (old_state l) b (whitespace l).
Definition set_whitespace (l : locals) (b : bool) : locals :=
  mk_locals (col l) (old_state l) (parse_newline l) b.

(** Where control goes after a piece of the loop body: on ([Next]), out of
    [tokenize] through [RETURN(c)] ([Return_], the tokenizer has its [code]
    set), or into undefined behaviour ([Crash]). *)
Inductive flow (A : Type) : Type :=
| Next (a : A)
| Return_ (c : err_code) (self : tokenizer)
| Crash.
Arguments Next {A} a.
Arguments Return_ {A} c self.
Arguments Crash {A}.

Definition bind_flow {A B : Type} (m : flow A) (k : A -> flow B) : flow B :=
  match m with
  | Next a => k a
  | Return_ c s => Return_ c s
  | Crash => Crash
  end.

Definition lift {A : Type} (o : option A) : flow A :=
  match o with
  | Some a => Next a
  | None => Crash
  end.

Notation "x <- m ;; k" := (bind_flow m (fun x => k))
  (at level 61, m at next level, right associativity).
Notation "' p <- m ;; k" := (bind_flow m (fun x => let p := x in k))
  (at level 61, p pattern, m at next level, right associativity).

(** [RETURN(c)] *)
Definition RETURN {A : Type} (self : tokenizer) (c : err_code) : flow A :=
  Return_ c (set_code self c).

(** [HANDLE_CR()] *)
Definition HANDLE_CR (self : tokenizer) (l : locals) : tokenizer * locals :=
  (set_state self CARRIAGE_RETURN, set_old_state l (state self)).

(** [BEGIN_FIELD()] *)
Definition BEGIN_FIELD (self : tokenizer) (l : locals) : tokenizer * locals :=
  (set_state self START_FIELD, set_whitespace l true).

(** The loop [while (col < self->num_cols) { PUSH('\x01'); END_FIELD(); }]
    of END_LINE (there [header] is 0, so each round increments [col]): [n]
    is the number of rounds, [num_cols - col]. *)
Fixpoint fill_cols (n : nat) (self : tokenizer) (col : nat)
  : option (tokenizer * nat) :=
  match n with
  | O => Some (self, col)
  | S n' =>
      match PUSH self col 1 with
      | None => None
      | Some self1 =>
          match END_FIELD false self1 col with
          | None => None
          | Some (self2, col2) => fill_cols n' self2 col2
          end
      end
  end.

(** [END_LINE()] *)
Definition END_LINE (header : bool) (end_ : Z) (self : tokenizer) (l : locals)
  : flow (tokenizer * locals) :=
  if header then RETURN (set_source_pos self (source_pos self + 1)) NO_ERROR
  else
    ' (self1, col1) <-
      (if fill_extra_cols self
       then lift (fill_cols (num_cols self - col l) self (col l))
       else if (col l <? num_cols self)%nat
            then RETURN self NOT_ENOUGH_COLS
            else Next (self, col l)) ;;
    let self2 := set_num_rows self1 (num_rows self1 + 1) in
    let l2 := set_old_state (set_col_idx l col1) START_LINE in
    if negb (end_ =? -1) && (num_rows self2 =? end_)
    then RETURN (set_source_pos self2 (source_pos self2 + 1)) NO_ERROR
    else Next (self2, l2).

(** [END_FIELD()] then the new [col] stored in the locals. *)
Definition end_field (header : bool) (self : tokenizer) (l : locals)
  : flow (tokenizer * locals) :=
  ' (self1, col1) <- lift (END_FIELD header self (col l)) ;;
  Next (self1, set_col_idx l col1).

(** The backward scan of the START_FIELD newline case: from position
    [n - 1] down to the previous delimiter, newline or carriage return;
    the result is where [source_pos] stops ([-1] before the first byte). *)
Fixpoint backtrack (self : tokenizer) (n : nat) : Z :=
  match n with
  | O => -1
  | S m =>
      match nth_error (source self) m with
      | None => Z.of_nat m
      | Some b =>
          if (b =? delimiter self) || (b =? NL) || (b =? CR)
          then Z.of_nat m
          else backtrack self m
      end
  end.

(** [while (source_pos < tmp) { PUSH(source[source_pos]); ++source_pos; }]:
    [n] rounds from position [p]. *)
Fixpoint push_range (n : nat) (self : tokenizer) (col : nat) (p : Z)
  : option tokenizer :=
  match n with
  | O => Some self
  | S n' =>
      match source_at self p with
      | None => None
      | Some b =>
          match PUSH self col b with
          | None => None
          | Some self1 => push_range n' self1 col (p + 1)
          end
      end
  end.

Section Cases.

Variable header : bool.
Variable end_ : Z.

Definition case_QUOTED_FIELD (c : Z) (self : tokenizer) (l : locals)
  : flow (tokenizer * locals) :=
  if c =? quotechar self then Next (set_state self FIELD, l)
  else if c =? NL then Next (set_state self QUOTED_FIELD_NEWLINE, l)
  else if c =? CR then Next (HANDLE_CR self l)
  else
    self1 <- lift (PUSH self (col l) c) ;;
    Next (self1, l).

Definition case_QUOTED_FIELD_NEWLINE (c : Z) (self : tokenizer) (l : locals)
  : flow (tokenizer * locals) :=
  if state_eqb (state self) QUOTED_FIELD then case_QUOTED_FIELD c self l
  else if (is_blank c && strip_whitespace_lines self) || (c =? NL)
  then Next (self, l)
  else if c =? CR then Next (HANDLE_CR self l)
  else if c =? quotechar self then Next (set_state self FIELD, l)
  else case_QUOTED_FIELD c (set_state self QUOTED_FIELD) l.

Definition case_START_QUOTED_FIELD (c : Z) (self : tokenizer) (l : locals)
  : flow (tokenizer * locals) :=
  if is_blank c && strip_whitespace_fields self then Next (self, l)
  else if c =? quotechar self then end_field header self l
  else case_QUOTED_FIELD_NEWLINE c (set_state self QUOTED_FIELD) l.

Definition case_FIELD (c : Z) (self : tokenizer) (l : locals)
  : flow (tokenizer * locals) :=
  if negb (comment self =? 0) && (c =? comment self) && whitespace l
     && (col l =? 0)%nat
  then Next (set_state self COMMENT, l)
  else if c =? delimiter self then
    ' (self1, l1) <- end_field header self l ;;
    Next (BEGIN_FIELD self1 l1)
  else if c =? CR then Next (HANDLE_CR self l)
  else if c =? NL then
    ' (self1, l1) <- end_field header self l ;;
    ' (self2, l2) <- END_LINE header end_ self1 l1 ;;
    Next (set_state self2 START_LINE, l2)
  else
    let l1 := if negb (c =? SPACE) && negb (c =? TAB)
              then set_whitespace l false else l in
    self1 <- lift (PUSH self (col l1) c) ;;
    Next (self1, l1).

(** The newline case of START_FIELD, up to END_LINE. *)
Definition start_field_newline (self : tokenizer) (l : locals)
  : flow (tokenizer * locals) :=
  if strip_whitespace_lines self then
    if (delimiter self =? SPACE) || (delimiter self =? TAB)
    then Next (self, l)
    else end_field header self l
  else
    let tmp := source_pos self in
    let p := backtrack self (Z.to_nat tmp) in
    let at_line_start :=
      if p =? -1 then Some true
      else match source_at self p with
           | None => None
           | Some b => Some ((b =? NL) || (b =? CR))
           end in
    b <- lift at_line_start ;;
    if (b : bool) then Next (set_source_pos self tmp, l)
    else
      self1 <- lift (push_range (Z.to_nat (tmp - (p + 1))) self (col l) (p + 1)) ;;
      end_field header (set_source_pos self1 tmp) l.

Definition case_START_FIELD (c : Z) (self : tokenizer) (l : locals)
  : flow (tokenizer * locals) :=
  if is_blank c && strip_whitespace_fields self then Next (self, l)
  else if negb (strip_whitespace_lines self) && negb (comment self =? 0)
          && (c =? comment self)
  then Next (set_state self COMMENT, l)
  else if c =? delimiter self then
    ' (self1, l1) <- end_field header self l ;;
    Next (BEGIN_FIELD self1 l1)
  else if c =? CR then Next (HANDLE_CR self l)
  else if c =? NL then
    ' (self1, l1) <- start_field_newline self l ;;
    ' (self2, l2) <- END_LINE header end_ self1 l1 ;;
    Next (set_state self2 START_LINE, l2)
  else if c =? quotechar self then Next (set_state self START_QUOTED_FIELD, l)
  else if (num_cols self <=? col l)%nat then RETURN self TOO_MANY_COLS
  else case_FIELD c (set_state self FIELD) l.

Definition case_START_LINE (c : Z) (self : tokenizer) (l : locals)
  : flow (tokenizer * locals) :=
  if c =? NL then Next (self, l)
  else if c =? CR then Next (HANDLE_CR self l)
  else if is_blank c && strip_whitespace_lines self then Next (self, l)
  else if negb (comment self =? 0) && (c =? comment self)
  then Next (set_state self COMMENT, l)
  else
    let '(self1, l1) := BEGIN_FIELD self (set_col_idx l O) in
    case_START_FIELD c self1 l1.

Definition case_COMMENT (c : Z) (self : tokenizer) (l : locals)
  : flow (tokenizer * locals) :=
  if c =? NL then Next (set_state self START_LINE, l)
  else if c =? CR then Next (HANDLE_CR self l)
  else Next (self, l).

Definition case_CARRIAGE_RETURN (c : Z) (self : tokenizer) (l : locals)
  : flow (tokenizer * locals) :=
  let self1 := set_state self (old_state l) in
  let self2 := set_source_pos self1 (source_pos self1 - 1) in
  if negb (c =? NL)
  then Next (set_source_pos self2 (source_pos self2 - 1), set_parse_newline l true)
  else Next (self2, l).

(** The character an iteration works on. *)
Definition current_char (self : tokenizer) (l : locals) : option Z :=
  if (source_pos self =? source_len self) || parse_newline l
  then Some NL
  else source_at self (source_pos self).

(** One iteration of the [while] loop: the [switch], then [++source_pos]. *)
Definition step (self : tokenizer) (l : locals) : flow (tokenizer * locals) :=
  c <- lift (current_char self l) ;;
  let l0 := set_parse_newline l false in
  ' (self1, l1) <-
    match state self with
    | START_LINE => case_START_LINE c self l0
    | START_FIELD => case_START_FIELD c self l0
    | FIELD => case_FIELD c self l0
    | START_QUOTED_FIELD => case_START_QUOTED_FIELD c self l0
    | QUOTED_FIELD_NEWLINE => case_QUOTED_FIELD_NEWLINE c self l0
    | QUOTED_FIELD => case_QUOTED_FIELD c self l0
    | COMMENT => case_COMMENT c self l0
    | CARRIAGE_RETURN => case_CARRIAGE_RETURN c self l0
    end ;;
  Next (set_source_pos self1 (source_pos self1 + 1), l1).

End Cases.

(** What a call of [tokenize] comes to. *)
Inductive outcome : Type :=
| Done (c : err_code) (self : tokenizer)
| Undefined
| OutOfFuel.

(** [while (self->source_pos < self->source_len + 1) ...; RETURN(0);] *)
Fixpoint tokenize_loop (fuel : nat) (header : bool) (end_ : Z)
    (self : tokenizer) (l : locals) : outcome :=
  if source_pos self <? source_len self + 1 then
    match fuel with
    | O => OutOfFuel
    | S fuel' =>
        match step header end_ self l with
        | Next (self1, l1) => tokenize_loop fuel' header end_ self1 l1
        | Return_ c self1 => Done c self1
        | Crash => Undefined
        end
    end
  else Done NO_ERROR (set_code self NO_ERROR).

(** Iterations that are always enough: a position is worked on at most four
    times (once, and three more around a carriage return); see
    [tokenize_loop_terminates]. *)
Definition loop_fuel (self : tokenizer) : nat :=
  4 * Z.to_nat (source_len self + 1 - source_pos self) + 6.

Definition init_locals : locals := mk_locals 0 START_LINE false true.

Section Allocation.

(** The macro INITIAL_COL_SIZE of tokenizer.h, the size of a fresh column
    block.  The header is not part of the sources read here, so the
    constant is left open; the concrete runs below instantiate it with 50. *)
Variable INITIAL_COL_SIZE : nat.

(** The allocation at the head of [tokenize], after [delete_data]. *)
Definition allocate (self : tokenizer) (header : bool) (ncols : nat)
  : tokenizer :=
  let self1 := set_num_rows (delete_data self) 0 in
  let self2 := set_num_cols self1 (if header then 1%nat else ncols) in
  set_output_cols self2
    (repeat (mk_column (repeat 0 INITIAL_COL_SIZE) 0) (num_cols self2)).

Definition tokenize (self : tokenizer) (end_ : Z) (header : bool)
    (ncols : nat) : outcome :=
  let self1 := allocate self header ncols in
  if end_ =? 0 then Done NO_ERROR (set_code self1 NO_ERROR)
  else
    let self2 := set_state self1 START_LINE in
    tokenize_loop (loop_fuel self2) header end_ self2 init_locals.

End Allocation.

(** ** [skip_lines] *)

(** The [while (i < offset)] loop with its locals [signif_chars], [comment]
    and [i]. *)
Fixpoint skip_lines_loop (fuel : nat) (self : tokenizer) (offset : Z)
    (header : bool) (signif_chars : Z) (comment_line : bool) (i : Z) : outcome :=
  if i <? offset then
    match fuel with
    | O => OutOfFuel
    | S fuel' =>
        if source_len self <=? source_pos self then
          if header then Done INVALID_LINE (set_code self INVALID_LINE)
          else Done NO_ERROR (set_code self NO_ERROR)
        else
          match source_at self (source_pos self) with
          | None => Undefined
          | Some c =>
              if (c =? CR) || (c =? NL) then
                let crlf :=
                  (c =? CR) && (source_pos self <? source_len self - 1)
                  && match source_at self (source_pos self + 1) with
                     | Some b => b =? NL
                     | None => false
                     end in
                let self1 :=
                  if crlf then set_source_pos self (source_pos self + 1) else self in
                let i1 :=
                  if negb comment_line && (0 <? signif_chars) then i + 1 else i in
                skip_lines_loop fuel' (set_source_pos self1 (source_pos self1 + 1))
                  offset header 0 false i1
              else if negb (is_blank c) || negb (strip_whitespace_lines self)
                      || header then
                let comment1 :=
                  if (signif_chars =? 0) && negb (comment self =? 0)
                     && (c =? comment self)
                  then true else comment_line in
                skip_lines_loop fuel' (set_source_pos self (source_pos self + 1))
                  offset header (signif_chars + 1) comment1 i
              else
                skip_lines_loop fuel' (set_source_pos self (source_pos self + 1))
                  offset header signif_chars comment_line i
          end
    end
  else Done NO_ERROR (set_code self NO_ERROR).

(** Every round that goes on moves [source_pos] forward and needs
    [source_pos < source_len], so this many rounds are enough; see
    [skip_lines_returns]. *)
Definition skip_fuel (self : tokenizer) : nat :=
  S (Z.to_nat (source_len self - source_pos self)).

Definition skip_lines (self : tokenizer) (offset : Z) (header : bool) : outcome :=
  skip_lines_loop (skip_fuel self) self offset header 0 false 0.

(** ** Iteration over a column *)

(** What a [char *] handed to the caller points to: the persistent [buf] of
    the tokenizer, or offset [off] of the block of column [c]. *)
Inductive pointer : Type :=
| ptr_buf
| ptr_col (c : nat) (off : nat).

(** The bytes a pointer points to, up to the end of its block. *)
Definition deref (self : tokenizer) (p : pointer) : list Z :=
  match p with
  | ptr_buf => buf self
  | ptr_col c off =>
      match nth_error (output_cols self) c with
      | Some cl => skipn off (col_data cl)
      | None => []
      end
  end.

Definition start_iteration (self : tokenizer) (col : nat) : tokenizer :=
  set_iter self col 0.

Definition finished_iteration (self : tokenizer) : option bool :=
  match nth_error (output_cols self) (iter_col self) with
  | None => None
  | Some cl =>
      if (length (col_data cl) <=? curr_pos self)%nat then Some true
      else match nth_error (col_data cl) (curr_pos self) with
           | None => None
           | Some b => Some (b =? 0)
           end
  end.

(** The number of bytes before the first [0x00] of [l]; [None] when the scan
    runs off the block. *)
Fixpoint scan_field (l : list Z) : option nat :=
  match l with
  | [] => None
  | b :: tl => if b =? 0 then Some O else option_map S (scan_field tl)
  end.

(** [next_field]: the pointer returned, the value stored in [*size], and
    the tokenizer with [curr_pos] moved past the terminator. *)
Definition next_field (self : tokenizer) : option (pointer * Z * tokenizer) :=
  match nth_error (output_cols self) (iter_col self) with
  | None => None
  | Some cl =>
      let tmp := curr_pos self in
      match scan_field (skipn tmp (col_data cl)) with
      | None => None
      | Some k =>
          let self1 := set_iter self (iter_col self) (tmp + k + 1) in
          match nth_error (col_data cl) tmp with
          | None => None
          | Some b =>
              if b =? 1 then Some (ptr_buf, 0, self1)
              else Some (ptr_col (iter_col self) tmp,
                         Z.of_nat (curr_pos self1) - Z.of_nat tmp - 1, self1)
          end
      end
  end.

(** ** Conversion to [double] *)

(** A C string is the list of its bytes before the terminating NUL; a
    [char *] into it is the list of the bytes that remain.  A [double] is a
    binary64 float.  [errno] is followed as the boolean [errno == ERANGE]. *)

Definition peek (p : list Z) : Z :=
  match p with
  | [] => 0
  | b :: _ => b
  end.

(** [p++]; moving past the terminator leaves the string. *)
Definition advance (p : list Z) : option (list Z) :=
  match p with
  | [] => None
  | _ :: tl => Some tl
  end.

(** [isspace], [isdigit] and [toupper] of the C locale. *)
Definition isspace (c : Z) : bool := (c =? 32) || ((9 <=? c) && (c <=? 13)).
Definition isdigit (c : Z) : bool := (48 <=? c) && (c <=? 57).
Definition toupper (c : Z) : Z :=
  if (97 <=? c) && (c <=? 122) then c - 32 else c.

(** The conversion of a small [int] to [double]. *)
Definition double_of_int (n : Z) : float := PrimFloat.of_uint63 (Uint63.of_Z n).

(** [DBL_MIN_EXP], [DBL_MAX_EXP] and [HUGE_VAL] of binary64. *)
Definition DBL_MIN_EXP : Z := -1021.
Definition DBL_MAX_EXP : Z := 1024.
Definition HUGE_VAL : float := PrimFloat.infinity.

Fixpoint skip_spaces (p : list Z) : list Z :=
  match p with
  | [] => []
  | b :: tl => if isspace b then skip_spaces tl else p
  end.

(** The loop over the integer digits, with the thousands separator skipped
    after each digit. *)
Fixpoint int_digits (tsep : Z) (p : list Z) (number : float) (num_digits : Z)
  : float * Z * list Z :=
  match p with
  | [] => (number, num_digits, [])
  | b :: tl =>
      if isdigit b then
        let number1 := PrimFloat.add (PrimFloat.mul number 10%float)
                         (double_of_int (b - 48)) in
        match tl with
        | [] => (number1, num_digits + 1, [])
        | t :: tl' =>
            if negb (tsep =? 0) && (t =? tsep)
            then int_digits tsep tl' number1 (num_digits + 1)
            else int_digits tsep tl number1 (num_digits + 1)
        end
      else (number, num_digits, p)
  end.

(** The loop over the digits after the decimal point. *)
Fixpoint frac_digits (p : list Z) (number : float) (num_digits num_decimals : Z)
  : float * Z * Z * list Z :=
  match p with
  | [] => (number, num_digits, num_decimals, [])
  | b :: tl =>
      if isdigit b then
        frac_digits tl
          (PrimFloat.add (PrimFloat.mul number 10%float) (double_of_int (b - 48)))
          (num_digits + 1) (num_decimals + 1)
      else (number, num_digits, num_decimals, p)
  end.

(** The loop over the digits of the exponent. *)
Fixpoint exp_digits (p : list Z) (n : Z) : Z * list Z :=
  match p with
  | [] => (n, [])
  | b :: tl => if isdigit b then exp_digits tl (n * 10 + (b - 48)) else (n, p)
  end.

(** The scaling loop [while (n) ...]: [n] loses one bit a round. *)
Fixpoint scale (rounds : nat) (exponent n : Z) (number p10 : float) : float :=
  match rounds with
  | O => number
  | S r =>
      if n =? 0 then number
      else
        let number1 :=
          if Z.odd n
          then if exponent <? 0 then PrimFloat.div number p10
               else PrimFloat.mul number p10
          else number in
        scale r exponent (Z.shiftr n 1) number1 (PrimFloat.mul p10 p10)
  end.

(** The optional sign: [case '-': negative = 1; case '+': p++;]. *)
Definition read_sign (p : list Z) : bool * list Z :=
  match p with
  | b :: tl =>
      if b =? 45 then (true, tl)
      else if b =? 43 then (false, tl)
      else (false, p)
  | [] => (false, [])
  end.

(** [xstrtod]: the value, what is stored in [*endptr] ([None] on the two
    paths that return before the store), and [errno == ERANGE]; no result
    at all when the pointer is moved past the terminator. *)
Definition xstrtod (str : list Z) (decimal sci tsep : Z) (skip_trailing : bool)
  : option (float * option (list Z) * bool) :=
  let p := skip_spaces str in
  let '(negative, p) := read_sign p in
  let '(number, num_digits, p) := int_digits tsep p 0%float 0 in
  match
    (if peek p =? decimal then
       match advance p with
       | None => None
       | Some p1 =>
           let '(number1, num_digits1, num_decimals, p2) :=
             frac_digits p1 number num_digits 0 in
           Some (number1, num_digits1, 0 - num_decimals, p2)
       end
     else Some (number, num_digits, 0, p))
  with
  | None => None
  | Some (number, num_digits, exponent, p) =>
      if num_digits =? 0 then Some (0%float, None, true)
      else
        let number := if negative then PrimFloat.opp number else number in
        match
          (if toupper (peek p) =? toupper sci then
             match advance p with
             | None => None
             | Some p1 =>
                 let '(negative_exp, p2) := read_sign p1 in
                 let '(n, p3) := exp_digits p2 0 in
                 Some (if negative_exp then exponent - n else exponent + n, p3)
             end
           else Some (exponent, p))
        with
        | None => None
        | Some (exponent, p) =>
            if (exponent <? DBL_MIN_EXP) || (DBL_MAX_EXP <? exponent)
            then Some (HUGE_VAL, None, true)
            else
              let n := Z.abs exponent in
              let number :=
                scale (S (Z.to_nat (Z.log2 n))) exponent n number 10%float in
              let erange := PrimFloat.eqb number HUGE_VAL in
              let p := if skip_trailing then skip_spaces p else p in
              Some (number, Some p, erange)
        end
  end.

Section Libc.

(** [strtod] of the C library: from the string and [errno == ERANGE]
    before the call, the value, the end pointer and [errno == ERANGE]
    after it. *)
Variable strtod : list Z -> bool -> float * list Z * bool.

(** [str_to_double]: the value returned, the tokenizer, and
    [errno == ERANGE] after the call.  Reading [*tmp] when [xstrtod] has
    not stored it has no defined behaviour. *)
Definition str_to_double (erange : bool) (self : tokenizer) (str : list Z)
  : option (float * tokenizer * bool) :=
  if use_fast_converter self then
    match xstrtod str 46 69 44 true with
    | None => None
    | Some (_, None, _) => None
    | Some (val, Some tmp, erange1) =>
        if negb (peek tmp =? 0) then Some (val, set_code self CONVERSION_ERROR, erange1)
        else if erange1 then Some (val, set_code self OVERFLOW_ERROR, erange1)
        else Some (val, self, erange1)
    end
  else
    let '(val, tmp, erange1) := strtod str erange in
    if (length tmp =? length str)%nat || negb (peek tmp =? 0)
    then Some (val, set_code self CONVERSION_ERROR, erange1)
    else if erange1 then Some (val, set_code self OVERFLOW_ERROR, erange1)
    else Some (val, self, erange1).

End Libc.

(** ** Notions used by the statements *)

(** The packed region of a column: the bytes before its write pointer. *)
Definition written (cl : column) : list Z := firstn (col_ptr cl) (col_data cl).



(** A property of a piece of the loop body: [P] where control goes on, [R]
    where it leaves through RETURN, nothing where behaviour is undefined. *)
Definition flow_sat {A : Type} (P : A -> Prop)
    (R : err_code -> tokenizer -> Prop) (m : flow A) : Prop :=
  match m with
  | Next a => P a
  | Return_ c s => R c s
  | Crash => True
  end.

(** The same for a whole call. *)
Definition outcome_sat (R : err_code -> tokenizer -> Prop) (o : outcome) : Prop :=
  match o with
  | Done c s => R c s
  | Undefined => True
  | OutOfFuel => True
  end.

(** *** Significant lines, as the description of the line skipper has them

    A line is what precedes a line terminator: a carriage return and a
    newline taken as one, or a lone carriage return or newline.  Bytes after the last terminator are not a line.
    [cur] is the part of the current line already passed. *)
Fixpoint lines_from (cur : list Z) (l : list Z) : list (list Z) :=
  match l with
  | [] => []
  | c :: tl =>
      if c =? NL then cur :: lines_from [] tl
      else if c =? CR then
        match tl with
        | [] => [cur]
        | n :: tl' =>
            if n =? NL then cur :: lines_from [] tl'
            else cur :: lines_from [] tl
        end
      else lines_from (cur ++ [c]) tl
  end.

(** The bytes of a line that are not stripped: blanks are stripped in data
    mode when [strip_whitespace_lines] is set. *)
Definition kept (self : tokenizer) (header : bool) (c : Z) : bool :=
  negb (is_blank c) || negb (strip_whitespace_lines self) || header.

(** A line is significant when some byte of it is kept and the first kept
    byte is not the comment character. *)
Definition significant (self : tokenizer) (header : bool) (line : list Z) : bool :=
  match filter (kept self header) line with
  | [] => false
  | c :: _ => negb (negb (comment self =? 0) && (c =? comment self))
  end.

Definition significant_lines (self : tokenizer) (header : bool) (l : list Z) : Z :=
  Z.of_nat (length (filter (significant self header) (lines_from [] l))).

(** The input that remains at the cursor. *)
Definition remaining (self : tokenizer) : list Z :=
  skipn (Z.to_nat (source_pos self)) (source self).

(** *** Sample configurations and inputs *)

(** Delimiter comma (44), comment character hash (35), quote character
    double quote (34). *)
Definition csv (fill strip_lines strip_fields : bool) : tokenizer :=
  create_tokenizer 44 35 34 fill strip_lines strip_fields true.

(** The header line [a,b,c] and the data line [1,2,3], each ended by a
    newline. *)
Definition header_and_row : list Z :=
  bytes "a,b,c" ++ [NL] ++ bytes "1,2,3" ++ [NL].

(** The lines [1,2] and [3], each ended by a newline. *)
Definition short_second_row : list Z := bytes "1,2" ++ [NL] ++ bytes "3" ++ [NL].

(** The line [1,] ended by a newline, by a carriage return and a newline,
    and by a carriage return alone. *)
Definition trailing_delim_lf : list Z := bytes "1," ++ [NL].
Definition trailing_delim_crlf : list Z := bytes "1," ++ [CR; NL].
Definition trailing_delim_cr : list Z := bytes "1," ++ [CR].

(** The lines [1,2] and [1,,], and the line of [1] and a quoted [2], each
    ended by a newline. *)
Definition two_fields : list Z := bytes "1,2" ++ [NL].
Definition extra_empty_field : list Z := bytes "1,," ++ [NL].
Definition extra_quoted_field : list Z := bytes "1," ++ [34; 50; 34; NL].

(** The replacement of every carriage return that a newline follows, and
    that newline, by one newline. *)
Fixpoint crlf_to_lf (l : list Z) : list Z :=
  match l with
  | [] => []
  | c :: tl =>
      match tl with
      | n :: tl' =>
          if (c =? CR) && (n =? NL) then NL :: crlf_to_lf tl'
          else c :: crlf_to_lf tl
      | [] => [c]
      end
  end.

(** The replacement of every carriage return that no newline follows by a
    newline. *)
Fixpoint lone_cr_to_lf (l : list Z) : list Z :=
  match l with
  | [] => []
  | c :: tl =>
      match tl with
      | n :: tl' =>
          if (c =? CR) && (n =? NL) then c :: n :: lone_cr_to_lf tl'
          else (if c =? CR then NL else c) :: lone_cr_to_lf tl
      | [] => [if c =? CR then NL else c]
      end
  end.

(** What a run shows to the caller: its code, the row count, and the packed
    region of each column. *)
Definition view (o : outcome) : option (err_code * Z * list (list Z)) :=
  match o with
  | Done c s => Some (c, num_rows s, map written (output_cols s))
  | Undefined => None
  | OutOfFuel => None
  end.

(** *** What the loop never changes *)

(** The fields [tokenize] only reads, and the number of columns allocated. *)
Definition config_of (s : tokenizer) :=
  (source s, delimiter s, comment s, quotechar s, num_cols s,
   fill_extra_cols s, strip_whitespace_lines s, strip_whitespace_fields s,
   use_fast_converter s, buf s, iter_col s, curr_pos s,
   length (output_cols s)).

(** [s'] comes after [s] in a run: same configuration, no row lost, and no
    row counted in header mode. *)
Definition frame (header : bool) (s s' : tokenizer) : Prop :=
  config_of s' = config_of s
  /\ num_rows s <= num_rows s'
  /\ (header = true -> num_rows s' = num_rows s).

(** The pieces of the body, all with the same shape of statement: from a
    state that comes after [s0], control goes on to, or returns with, a
    state that comes after [s0]. *)
Definition keeps (rel : tokenizer -> tokenizer -> Prop) (s0 : tokenizer)
    (m : flow (tokenizer * locals)) : Prop :=
  flow_sat (fun p => rel s0 (fst p)) (fun _ s' => rel s0 s') m.

Definition keeps_frame (h : bool) (s0 : tokenizer)
    (m : flow (tokenizer * locals)) : Prop :=
  keeps (frame h) s0 m.

(** *** Fields the loop does not read

    [f] changes such a field of the tokenizer that goes on, [g] of the one
    that is returned. *)
Definition map_flow (f g : tokenizer -> tokenizer)
    (m : flow (tokenizer * locals)) : flow (tokenizer * locals) :=
  match m with
  | Next (s, l) => Next (f s, l)
  | Return_ c s => Return_ c (g s)
  | Crash => Crash
  end.

Definition map_outcome (g : tokenizer -> tokenizer) (o : outcome) : outcome :=
  match o with
  | Done c s => Done c (g s)
  | Undefined => Undefined
  | OutOfFuel => OutOfFuel
  end.

(** [m'] is [m] run on the changed tokenizer: the same up to the change,
    unless [m] is one of the deviations [dev] allows. *)
Definition commutes (f g : tokenizer -> tokenizer)
    (dev : Z -> flow (tokenizer * locals) -> Prop) (n : Z)
    (m' m : flow (tokenizer * locals)) : Prop :=
  m' = map_flow f g m \/ dev n m.


(** The locals [signif_chars] and [comment] of [skip_lines], when the part
    [cur] of the current line has been passed. *)
Definition signif_chars_of (self : tokenizer) (header : bool) (cur : list Z) : Z :=
  Z.of_nat (length (filter (kept self header) cur)).

Definition comment_of (self : tokenizer) (header : bool) (cur : list Z) : bool :=
  match filter (kept self header) cur with
  | [] => false
  | c :: _ => negb (comment self =? 0) && (c =? comment self)
  end.

Definition count_significant (self : tokenizer) (header : bool)
    (ls : list (list Z)) : Z :=
  Z.of_nat (length (filter (significant self header) ls)).

(** *** Terminators and rows *)














(** *** Fields of a packed region *)






(** A piece of the body run with a row limit against the same piece run
    without: the same, unless the limited one returns NO_ERROR where the
    other goes on with the same columns. *)
Definition same_or_limit (m_e m_all : flow (tokenizer * locals)) : Prop :=
  m_e = m_all
  \/ exists s_e s_all l_all,
       m_e = Return_ NO_ERROR s_e
       /\ m_all = Next (s_all, l_all)
       /\ output_cols s_all = output_cols s_e.

(** *** Termination of the loop *)

(** After a [switch] case other than CARRIAGE_RETURN on character [c]: the
    cursor has not moved, no newline is forced, and the carriage-return
    state is entered on a carriage return only, from another state. *)
Definition ctl_post (s : tokenizer) (c : Z) (p : tokenizer * locals) : Prop :=
  source_pos (fst p) = source_pos s
  /\ source (fst p) = source s
  /\ old_state (snd p) <> CARRIAGE_RETURN
  /\ parse_newline (snd p) = false
  /\ (state (fst p) = CARRIAGE_RETURN -> c = CR).

Definition ctl_inv (s : tokenizer) (l : locals) : Prop :=
  old_state l <> CARRIAGE_RETURN
  /\ (parse_newline l = true -> state s <> CARRIAGE_RETURN).

(** The iterations still to come are fewer than this: four for each
    position from the cursor to the end, and a few according to where the
    handling of a carriage return stands. *)
Definition loop_measure (s : tokenizer) (l : locals) : Z :=
  4 * (source_len s + 1 - source_pos s)
  + (if parse_newline l then 0
     else if state_eqb (state s) CARRIAGE_RETURN then 5 else 2).

(** *** What [tokenize] returns *)

(** Kept by the loop: in header mode the local [col] stays 0 below
    [num_cols]; the rows counted stay below a positive row limit. *)
Definition ret_inv (h : bool) (e : Z) (s : tokenizer) (l : locals) : Prop :=
  (h = true -> col l = 0%nat /\ (0 < num_cols s)%nat)
  /\ 0 <= num_rows s
  /\ (0 < e -> num_rows s < e).

(** At a RETURN: the code is stored; it is one of three; the rows counted
    do not exceed a positive limit; and success in data mode means that the
    limit is reached or the input is used up. *)
Definition ret_post (h : bool) (e : Z) (c : err_code) (s' : tokenizer) : Prop :=
  code s' = c
  /\ (c = NO_ERROR
      \/ (c = TOO_MANY_COLS /\ h = false)
      \/ (c = NOT_ENOUGH_COLS /\ h = false /\ fill_extra_cols s' = false))
  /\ 0 <= num_rows s'
  /\ (0 < e -> num_rows s' <= e)
  /\ (c = NO_ERROR ->
      h = true \/ num_rows s' = e \/ source_len s' + 1 <= source_pos s').

(** The lines left when lines are dropped up to and including the [n]-th
    one that [sig] holds of. *)
Fixpoint drop_significant (sig : list Z -> bool) (n : nat)
    (ls : list (list Z)) : list (list Z) :=
  match ls with
  | [] => []
  | x :: tl =>
      match n with
      | O => ls
      | S n' =>
          if sig x
          then drop_significant sig n' tl
          else drop_significant sig n tl
      end
  end.

(** *** Tables of plain fields *)

(** A byte that the machine takes as a byte of a field wherever it stands:
    no terminator, blank, delimiter, quote or comment character, and not
    the NUL that ends a field in a column. *)
Definition plain_byte (self : tokenizer) (c : Z) : bool :=
  negb (c =? 0) && negb (c =? NL) && negb (c =? CR) && negb (is_blank c)
  && negb (c =? delimiter self) && negb (c =? quotechar self)
  && negb (c =? comment self).

Definition plain_field (self : tokenizer) (f : list Z) : bool :=
  match f with
  | [] => false
  | _ => forallb (plain_byte self) f
  end.

(** Rows of [ncols] non-empty plain fields. *)
Definition plain_table (self : tokenizer) (ncols : nat)
    (rows : list (list (list Z))) : bool :=
  forallb (fun r => (length r =? ncols)%nat && forallb (plain_field self) r) rows.

(** The fields of a row with the delimiter between them. *)
Fixpoint join (d : Z) (r : list (list Z)) : list Z :=
  match r with
  | [] => []
  | f :: tl =>
      match tl with
      | [] => f
      | _ => f ++ d :: join d tl
      end
  end.

(** The text of a table: each row on a line ended by a newline. *)
Definition encode (d : Z) (rows : list (list (list Z))) : list Z :=
  concat (map (fun r => join d r ++ [NL]) rows).

(** A column block whose packed region is [w], followed by [k] bytes
    [0x00]. *)
Definition block (w : list Z) (k : nat) : column :=
  mk_column (w ++ repeat 0 k) (length w).

(** The packed region of column [j] of a table: the [j]-th field of each
    row, each followed by its terminator. *)
Definition column_of (j : nat) (rows : list (list (list Z))) : list Z :=
  concat (map (fun r => nth j r [] ++ [0]) rows).

(** The rows a call with row limit [e] reads. *)
Definition rows_read (e : Z) (rows : list (list (list Z)))
  : list (list (list Z)) :=
  if (0 <=? e) && (e <=? Z.of_nat (length rows))
  then firstn (Z.to_nat e) rows else rows.

(** The same from a call that starts with [n] rows counted. *)
Definition rows_taken (e n : Z) (rows : list (list (list Z)))
  : list (list (list Z)) :=
  if (n <? e) && (e - n <=? Z.of_nat (length rows))
  then firstn (Z.to_nat (e - n)) rows else rows.

(** The tokenizer [s0] in state [st] at position [p], with the columns [cs]
    and [n] rows counted. *)
Definition at_state (s0 : tokenizer) (st : tokenizer_state) (p : Z)
    (cs : list column) (n : Z) : tokenizer :=
  set_num_rows (set_output_cols (set_source_pos (set_state s0 st) p) cs) n.

(** The columns [cs] are [ncols] blocks, the packed region of column [j]
    being [F j]; no block is empty. *)
Definition holds (cs : list column) (ncols : nat) (F : nat -> list Z) : Prop :=
  length cs = ncols
  /\ forall j, (j < ncols)%nat ->
       exists k, nth_error cs j = Some (block (F j) k)
                 /\ (0 < length (F j) + k)%nat.

(** Row [r] written after [F] up to its field [m], which is still open. *)
Definition open_at (F : nat -> list Z) (r : list (list Z)) (m : nat)
    (i : nat) : list Z :=
  F i ++ (if (i <? m)%nat then nth i r [] ++ [0]
          else if (i =? m)%nat then nth i r [] else []).

(** [k] iterations of the loop of [tokenize] that all go on. *)
Fixpoint run (k : nat) (header : bool) (end_ : Z) (self : tokenizer)
    (l : locals) : option (tokenizer * locals) :=
  match k with
  | O => Some (self, l)
  | S k' =>
      if source_pos self <? source_len self + 1 then
        match step header end_ self l with
        | Next (self1, l1) => run k' header end_ self1 l1
        | _ => None
        end
      else None
  end.

(** *** Reading a column back *)

(** A packed region: each field followed by its terminator. *)
Definition packed (fs : list (list Z)) : list Z :=
  concat (map (fun f => f ++ [0]) fs).

(** What the iterator shows of a stored field: a field whose first byte is
    [0x01] is shown as the empty string. *)
Definition present (f : list Z) : list Z :=
  match f with
  | [] => []
  | b :: _ => if b =? 1 then [] else f
  end.

(** The loop of a reader: while [finished_iteration] is false, take
    [next_field]; each field is the [size] bytes at the pointer returned. *)
Fixpoint read_column (fuel : nat) (self : tokenizer) : option (list (list Z)) :=
  match finished_iteration self with
  | None => None
  | Some true => Some []
  | Some false =>
      match fuel with
      | O => None
      | S fuel' =>
          match next_field self with
          | None => None
          | Some (p, size, self1) =>
              option_map (cons (firstn (Z.to_nat size) (deref self p)))
                (read_column fuel' self1)
          end
      end
  end.

(** * Properties *)

(** ** Lists and blocks *)

Lemma skipn_cons_nth_error (A : Type) (l : list A) :
  forall n x r, skipn n l = x :: r -> nth_error l n = Some x.
Proof.
  induction l as [|a l IH]; intros [|n] x r H; simpl in *; try discriminate.
  - congruence.
  - eauto.
Qed.

Lemma skipn_cons_succ (A : Type) (l : list A) :
  forall n x r, skipn n l = x :: r -> skipn (S n) l = r.
Proof.
  induction l as [|a l IH]; intros [|n] x r H; simpl in *; try discriminate.
  - congruence.
  - destruct l; eauto.
Qed.

Lemma nth_error_skipn_cons (A : Type) (l : list A) :
  forall n x, nth_error l n = Some x -> skipn n l = x :: skipn (S n) l.
Proof.
  induction l as [|a l IH]; intros [|n] x H; simpl in *; try discriminate.
  - congruence.
  - rewrite (IH _ _ H). destruct l; reflexivity.
Qed.

Lemma scan_field_payload (payload more : list Z) :
  ~ In 0 payload -> scan_field (payload ++ 0 :: more) = Some (length payload).
Proof.
  induction payload as [|b tl IH]; intros Hnz; simpl.
  - reflexivity.
  - destruct (Z.eqb_spec b 0) as [->|_].
    + exfalso. apply Hnz. now left.
    + rewrite IH; [reflexivity|]. intros H. apply Hnz. now right.
Qed.

Lemma scan_field_nonzero (l : list Z) (k : nat) :
  scan_field l = Some k -> forall j, (j < k)%nat -> nth j l 0 <> 0.
Proof.
  revert k. induction l as [|b tl IH]; intros k H j Hj; simpl in H.
  - discriminate.
  - destruct (Z.eqb_spec b 0) as [->|Hb].
    + inversion H; subst. lia.
    + destruct (scan_field tl) as [k'|]; simpl in H; [|discriminate].
      inversion H; subst. destruct j as [|j]; simpl; [assumption|].
      apply (IH k' eq_refl). lia.
Qed.

(** ** C10: [skip_lines] with nothing to skip *)

(** C10.  For every offset less than or equal to 0, in header and in data
    mode and for every input, [skip_lines] returns NO_ERROR, sets [code] to
    NO_ERROR and leaves [source_pos] (and everything else) as it was. *)
Theorem skip_lines_nonpositive_offset (self : tokenizer) (offset : Z)
    (header : bool) :
  offset <= 0 ->
  skip_lines self offset header = Done NO_ERROR (set_code self NO_ERROR)
  /\ code (set_code self NO_ERROR) = NO_ERROR
  /\ source_pos (set_code self NO_ERROR) = source_pos self.
Proof.
  intros Hoff. split; [|split; reflexivity].
  unfold skip_lines, skip_fuel. simpl.
  destruct (Z.ltb_spec 0 offset); [lia|reflexivity].
Qed.

Lemma skip_lines_nonpositive_offset_witness :
  skip_lines (set_source (csv false true true) header_and_row) (-3) true
  = Done NO_ERROR (set_code (set_source (csv false true true) header_and_row) NO_ERROR)
  /\ code (set_code (set_source (csv false true true) header_and_row) NO_ERROR)
     = NO_ERROR
  /\ source_pos (set_code (set_source (csv false true true) header_and_row) NO_ERROR)
     = source_pos (set_source (csv false true true) header_and_row).
Proof.
  apply (skip_lines_nonpositive_offset
           (set_source (csv false true true) header_and_row) (-3) true).
  lia.
Defined.

(** ** C9: the fast converter on a number with a thousands separator *)

(** C9.  With [use_fast_converter] set, [str_to_double] (which passes the
    comma as thousands separator to [xstrtod]) returns exactly the double
    1234.5 on the string [1,234.5], leaves the tokenizer, hence its error
    code, as it was, and leaves [errno] different from ERANGE: neither
    CONVERSION_ERROR nor OVERFLOW_ERROR is set. *)
Theorem str_to_double_thousands
    (strtod : list Z -> bool -> float * list Z * bool) (erange : bool)
    (self : tokenizer) :
  use_fast_converter self = true ->
  str_to_double strtod erange self (bytes "1,234.5")
  = Some (1234.5%float, self, false).
Proof.
  intros Hfast. unfold str_to_double. rewrite Hfast.
  replace (xstrtod (bytes "1,234.5") 46 69 44 true)
    with (Some (1234.5%float, Some (@nil Z), false)) by (vm_compute; reflexivity).
  reflexivity.
Qed.

Lemma str_to_double_thousands_witness :
  use_fast_converter (csv false true true) = true
  /\ str_to_double (fun s e => (0%float, s, e)) false (csv false true true)
       (bytes "1,234.5")
     = Some (1234.5%float, csv false true true, false).
Proof.
  split; [reflexivity|].
  apply (str_to_double_thousands (fun s e => (0%float, s, e)) false
           (csv false true true)).
  reflexivity.
Defined.

(** ** C8: the empty-field sentinel in [next_field] *)

(** C8.  When the field at the cursor begins with [0x01] (and is
    terminated), [next_field] stores the length 0 and returns the pointer
    to [buf], the persistent empty string of the tokenizer, not a pointer
    into the column; the cursor moves past the terminator.  And nothing
    [next_field] returns begins with [0x01]: a result of non-zero length is
    the pointer to the field in the column, whose first byte is neither
    [0x00] nor [0x01], with the number of bytes before the terminator as
    length.  This holds whatever the bytes of the input are. *)
Theorem next_field_sentinel (self : tokenizer) (cl : column) :
  nth_error (output_cols self) (iter_col self) = Some cl ->
  buf self = [0; 0] ->
  (forall payload more,
      skipn (curr_pos self) (col_data cl) = 1 :: payload ++ 0 :: more ->
      ~ In 0 payload ->
      next_field self
      = Some (ptr_buf, 0,
              set_iter self (iter_col self) (curr_pos self + length payload + 2)))
  /\ (forall p size self',
         next_field self = Some (p, size, self') ->
         peek (deref self p) <> 1
         /\ (size <> 0 ->
             p = ptr_col (iter_col self) (curr_pos self)
             /\ peek (deref self p) <> 0
             /\ scan_field (deref self p) = Some (Z.to_nat size))).
Proof.
  intros Hcl Hbuf. split.
  - intros payload more Hskip Hnz. unfold next_field. rewrite Hcl, Hskip.
    change (1 :: payload ++ 0 :: more) with ((1 :: payload) ++ 0 :: more).
    rewrite scan_field_payload.
    + rewrite (skipn_cons_nth_error _ _ _ _ _ Hskip). simpl.
      do 3 f_equal. lia.
    + intros [H|H]; [discriminate|auto].
  - intros p size self' H. unfold next_field in H. rewrite Hcl in H.
    destruct (scan_field (skipn (curr_pos self) (col_data cl))) as [k|] eqn:Hscan;
      [|discriminate].
    destruct (nth_error (col_data cl) (curr_pos self)) as [b|] eqn:Hb;
      [|discriminate].
    pose proof (nth_error_skipn_cons _ _ _ _ Hb) as Hsk.
    destruct (Z.eqb_spec b 1) as [->|Hb1]; inversion H; subst; clear H.
    + simpl. rewrite Hbuf. simpl. split; [lia|]. intros Hc. now elim Hc.
    + simpl. rewrite Hcl, Hsk. simpl. split; [assumption|].
      intros Hsize. split; [reflexivity|].
      rewrite Hsk in Hscan. simpl in Hscan. simpl in Hsize.
      destruct (Z.eqb b 0) eqn:Hb0.
      * inversion Hscan; subst. exfalso. apply Hsize. lia.
      * split; [apply Z.eqb_neq; assumption|].
        rewrite Hscan. f_equal. lia.
Qed.

Lemma next_field_sentinel_witness :
  let self := set_output_cols (csv false true true)
                [mk_column [49; 0; 1; 0; 51; 0; 0; 0] 6] in
  next_field (set_iter self 0 2) = Some (ptr_buf, 0, set_iter self 0 4)
  /\ next_field (set_iter self 0 4) = Some (ptr_col 0 4, 1, set_iter self 0 6).
Proof.
  set (cl := mk_column [49; 0; 1; 0; 51; 0; 0; 0] 6).
  intros self. split.
  - apply (proj1 (@next_field_sentinel (set_iter self 0 2) cl eq_refl eq_refl)
             [] [51; 0; 0; 0]).
    + reflexivity.
    + simpl. tauto.
  - reflexivity.
Defined.

(** ** Reasoning about the loop body *)

Lemma flow_sat_bind {A B : Type} (P' : A -> Prop) (P : B -> Prop)
    (R : err_code -> tokenizer -> Prop) (m : flow A) (k : A -> flow B) :
  flow_sat P' R m ->
  (forall a, P' a -> flow_sat P R (k a)) ->
  flow_sat P R (bind_flow m k).
Proof.
  destruct m as [a|c s|]; simpl; auto.
Qed.

Lemma flow_sat_lift {A : Type} (P : A -> Prop)
    (R : err_code -> tokenizer -> Prop) (o : option A) :
  (forall a, o = Some a -> P a) -> flow_sat P R (lift o).
Proof.
  destruct o; simpl; auto.
Qed.

Lemma flow_sat_weaken {A : Type} (P P' : A -> Prop)
    (R R' : err_code -> tokenizer -> Prop) (m : flow A) :
  flow_sat P R m ->
  (forall a, P a -> P' a) ->
  (forall c s, R c s -> R' c s) ->
  flow_sat P' R' m.
Proof.
  destruct m; simpl; auto.
Qed.

(** An invariant of the loop body that holds at the exit of the loop holds
    of whatever [tokenize_loop] returns. *)
Lemma tokenize_loop_sat (header : bool) (end_ : Z)
    (Inv : tokenizer -> locals -> Prop) (R : err_code -> tokenizer -> Prop) :
  (forall self l, Inv self l -> source_pos self < source_len self + 1 ->
     flow_sat (fun p => Inv (fst p) (snd p)) R (step header end_ self l)) ->
  (forall self l, Inv self l -> source_len self + 1 <= source_pos self ->
     R NO_ERROR (set_code self NO_ERROR)) ->
  forall fuel self l, Inv self l ->
    outcome_sat R (tokenize_loop fuel header end_ self l).
Proof.
  intros Hstep Hexit. induction fuel as [|fuel IH]; intros self l HI; simpl.
  - destruct (Z.ltb_spec (source_pos self) (source_len self + 1)); simpl; eauto.
  - destruct (Z.ltb_spec (source_pos self) (source_len self + 1)); simpl; eauto.
    specialize (Hstep self l HI H).
    destruct (step header end_ self l) as [[s1 l1]|c s1|]; simpl in *; auto.
Qed.

(** ** Relations that every piece of the loop body extends *)

Section Monotone.

Variable h : bool.

(** [rel s0 s]: the state [s] comes after [s0]. *)
Variable rel : tokenizer -> tokenizer -> Prop.

Hypothesis rel_set_state :
  forall s0 s st, rel s0 s -> rel s0 (set_state s st).
Hypothesis rel_set_source_pos :
  forall s0 s p, rel s0 s -> rel s0 (set_source_pos s p).
Hypothesis rel_set_code :
  forall s0 s c, rel s0 s -> rel s0 (set_code s c).
Hypothesis rel_count_row :
  forall s0 s, h = false -> rel s0 s -> rel s0 (set_num_rows s (num_rows s + 1)).
Hypothesis rel_PUSH :
  forall s0 s s' i c, PUSH s i c = Some s' -> rel s0 s -> rel s0 s'.
Hypothesis rel_END_FIELD :
  forall hd s0 s s' i i',
    END_FIELD hd s i = Some (s', i') -> rel s0 s -> rel s0 s'.

Lemma fill_cols_rel (s0 : tokenizer) (n : nat) :
  forall s i s' i', fill_cols n s i = Some (s', i') -> rel s0 s -> rel s0 s'.
Proof.
  induction n as [|n IH]; intros s i s' i' H Hf; simpl in H.
  - inversion H; subst; auto.
  - destruct (PUSH s i 1) as [s1|] eqn:H1; [|discriminate].
    destruct (END_FIELD false s1 i) as [[s2 i2]|] eqn:H2; [|discriminate].
    eapply IH; eauto.
Qed.

Lemma push_range_rel (s0 : tokenizer) (i : nat) (n : nat) :
  forall s p s', push_range n s i p = Some s' -> rel s0 s -> rel s0 s'.
Proof.
  induction n as [|n IH]; intros s p s' H Hf; simpl in H.
  - inversion H; subst; auto.
  - destruct (source_at s p); [|discriminate].
    destruct (PUSH s i z) as [s1|] eqn:H1; [|discriminate].
    eapply IH; eauto.
Qed.

Lemma end_field_rel (hd : bool) (s0 s : tokenizer) (l : locals) :
  rel s0 s -> keeps rel s0 (end_field hd s l).
Proof.
  intros Hf. unfold keeps, end_field.
  destruct (END_FIELD hd s (col l)) as [[s1 c1]|] eqn:H; simpl; eauto.
Qed.

Lemma END_LINE_rel (hd : bool) (e : Z) (s0 s : tokenizer) (l : locals) :
  hd = h -> rel s0 s -> keeps rel s0 (END_LINE hd e s l).
Proof.
  intros Hh Hf. unfold keeps, END_LINE, RETURN.
  destruct hd; simpl; auto.
  destruct (fill_extra_cols s).
  - destruct (fill_cols (num_cols s - col l) s (col l)) as [[s1 c1]|] eqn:H;
      simpl; auto.
    pose proof (fill_cols_rel s0 _ _ _ _ _ H Hf) as Hf1.
    destruct (negb (e =? -1) && (num_rows s1 + 1 =? e)); simpl; auto.
  - destruct (col l <? num_cols s)%nat; simpl; auto.
    destruct (negb (e =? -1) && (num_rows s + 1 =? e)); simpl; auto.
Qed.

Ltac rel_bind :=
  eapply flow_sat_bind;
  [ first [ apply end_field_rel | apply END_LINE_rel ]; auto
  | intros [? ?] ?; simpl in * ].

Ltac rel_if :=
  match goal with
  | |- flow_sat _ _ (if ?b then _ else _) => destruct b
  | |- keeps _ _ (if ?b then _ else _) => destruct b
  end.

Lemma case_QUOTED_FIELD_rel (s0 : tokenizer) (c : Z) (s : tokenizer)
    (l : locals) :
  rel s0 s -> keeps rel s0 (case_QUOTED_FIELD c s l).
Proof.
  intros Hf. unfold keeps, case_QUOTED_FIELD, HANDLE_CR.
  repeat rel_if; simpl; auto.
  destruct (PUSH s (col l) c) eqn:H; simpl; eauto.
Qed.

Lemma case_QUOTED_FIELD_NEWLINE_rel (s0 : tokenizer) (c : Z) (s : tokenizer)
    (l : locals) :
  rel s0 s -> keeps rel s0 (case_QUOTED_FIELD_NEWLINE c s l).
Proof.
  intros Hf. unfold case_QUOTED_FIELD_NEWLINE, HANDLE_CR.
  repeat rel_if; try apply case_QUOTED_FIELD_rel; unfold keeps; simpl; auto.
Qed.

Lemma case_START_QUOTED_FIELD_rel (hd : bool) (s0 : tokenizer) (c : Z)
    (s : tokenizer) (l : locals) :
  rel s0 s -> keeps rel s0 (case_START_QUOTED_FIELD hd c s l).
Proof.
  intros Hf. unfold case_START_QUOTED_FIELD.
  repeat rel_if; try apply case_QUOTED_FIELD_NEWLINE_rel;
    try apply end_field_rel; unfold keeps; simpl; auto.
Qed.

Lemma case_FIELD_rel (hd : bool) (e : Z) (s0 : tokenizer) (c : Z)
    (s : tokenizer) (l : locals) :
  hd = h -> rel s0 s -> keeps rel s0 (case_FIELD hd e c s l).
Proof.
  intros Hh Hf. unfold keeps, case_FIELD, HANDLE_CR, BEGIN_FIELD.
  repeat rel_if; simpl; auto.
  - rel_bind. auto.
  - rel_bind. rel_bind. auto.
  - destruct (PUSH s _ c) eqn:H; simpl; eauto.
Qed.

Lemma start_field_newline_rel (hd : bool) (s0 s : tokenizer) (l : locals) :
  rel s0 s -> keeps rel s0 (start_field_newline hd s l).
Proof.
  intros Hf. unfold start_field_newline.
  repeat rel_if; try apply end_field_rel; unfold keeps; simpl; auto.
  eapply flow_sat_bind with (P' := fun _ => True).
  - apply flow_sat_lift. auto.
  - intros b _. destruct b; simpl; auto.
    eapply flow_sat_bind with (P' := fun s1 => rel s0 s1).
    + apply flow_sat_lift. intros s1 H1. eapply push_range_rel; eauto.
    + intros s1 H1. apply end_field_rel. auto.
Qed.

Lemma case_START_FIELD_rel (hd : bool) (e : Z) (s0 : tokenizer) (c : Z)
    (s : tokenizer) (l : locals) :
  hd = h -> rel s0 s -> keeps rel s0 (case_START_FIELD hd e c s l).
Proof.
  intros Hh Hf. unfold case_START_FIELD, HANDLE_CR, BEGIN_FIELD, RETURN.
  repeat rel_if; try (apply case_FIELD_rel; auto); unfold keeps; simpl; auto.
  - rel_bind. auto.
  - eapply flow_sat_bind; [apply start_field_newline_rel; auto|].
    intros [s1 l1] H1; simpl in *. rel_bind. auto.
Qed.

Lemma case_START_LINE_rel (hd : bool) (e : Z) (s0 : tokenizer) (c : Z)
    (s : tokenizer) (l : locals) :
  hd = h -> rel s0 s -> keeps rel s0 (case_START_LINE hd e c s l).
Proof.
  intros Hh Hf. unfold case_START_LINE, HANDLE_CR, BEGIN_FIELD.
  repeat rel_if; try (apply case_START_FIELD_rel; auto); unfold keeps;
    simpl; auto.
Qed.

(** One iteration extends the relation. *)
Lemma step_rel (e : Z) (s0 s : tokenizer) (l : locals) :
  rel s0 s -> keeps rel s0 (step h e s l).
Proof.
  intros Hf. unfold keeps, step.
  eapply flow_sat_bind with (P' := fun _ => True).
  - apply flow_sat_lift. auto.
  - intros c _.
    eapply flow_sat_bind with (P' := fun p => rel s0 (fst p)).
    + destruct (state s).
      * apply case_START_LINE_rel; auto.
      * apply case_START_FIELD_rel; auto.
      * apply case_START_QUOTED_FIELD_rel; auto.
      * apply case_FIELD_rel; auto.
      * apply case_QUOTED_FIELD_rel; auto.
      * apply case_QUOTED_FIELD_NEWLINE_rel; auto.
      * unfold case_COMMENT, HANDLE_CR.
        repeat rel_if; simpl; auto.
      * unfold case_CARRIAGE_RETURN.
        repeat rel_if; simpl; auto.
    + intros [s1 l1] H1. simpl in *. auto.
Qed.

(** So does a whole run of the loop. *)
Lemma tokenize_loop_rel (e : Z) (fuel : nat) (s0 s : tokenizer) (l : locals) :
  rel s0 s -> outcome_sat (fun _ s' => rel s0 s') (tokenize_loop fuel h e s l).
Proof.
  intros Hs.
  apply tokenize_loop_sat with (Inv := fun s1 _ => rel s0 s1).
  - intros s1 l1 Hf _. apply step_rel. exact Hf.
  - intros s1 l1 Hf _. apply rel_set_code. exact Hf.
  - exact Hs.
Qed.

End Monotone.

(** ** The frame of the loop *)

Lemma frame_refl (h : bool) (s : tokenizer) : frame h s s.
Proof. unfold frame. repeat split; lia. Qed.

Lemma frame_trans (h : bool) (s1 s2 s3 : tokenizer) :
  frame h s1 s2 -> frame h s2 s3 -> frame h s1 s3.
Proof.
  unfold frame. intros (H1 & H2 & H3) (H4 & H5 & H6). repeat split.
  - congruence.
  - lia.
  - intros Hh. rewrite (H6 Hh). auto.
Qed.

Lemma length_set_nth (cs : list column) :
  forall i cl, length (set_nth cs i cl) = length cs.
Proof.
  induction cs as [|x cs IH]; intros [|i] cl; simpl; auto.
Qed.

Lemma frame_set_col (h : bool) (s0 s : tokenizer) (i : nat) (cl : column) :
  frame h s0 s -> frame h s0 (set_col s i cl).
Proof.
  unfold frame, config_of. simpl. rewrite length_set_nth. auto.
Qed.

Lemma frame_count_row (h : bool) (s0 s : tokenizer) :
  h = false -> frame h s0 s -> frame h s0 (set_num_rows s (num_rows s + 1)).
Proof.
  unfold frame, config_of. simpl. intros -> (H1 & H2 & H3).
  repeat split; auto; try lia; try discriminate.
Qed.

Lemma PUSH_frame (h : bool) (s0 s s' : tokenizer) (i : nat) (c : Z) :
  PUSH s i c = Some s' -> frame h s0 s -> frame h s0 s'.
Proof.
  unfold PUSH. destruct (nth_error (output_cols s) i); [|discriminate].
  destruct (push_col c0 c); [|discriminate].
  intros H; inversion H; subst. apply frame_set_col.
Qed.

Lemma END_FIELD_frame (h hd : bool) (s0 s s' : tokenizer) (i i' : nat) :
  END_FIELD hd s i = Some (s', i') -> frame h s0 s -> frame h s0 s'.
Proof.
  unfold END_FIELD. destruct (nth_error (output_cols s) i); [|discriminate].
  destruct (end_field_col (strip_whitespace_fields s) c); [|discriminate].
  intros H; inversion H; subst. apply frame_set_col.
Qed.


(** One iteration keeps the configuration and the number of columns, loses
    no row, and counts none in header mode. *)
Lemma step_frame (h : bool) (e : Z) (s0 s : tokenizer) (l : locals) :
  frame h s0 s -> keeps_frame h s0 (step h e s l).
Proof.
  apply (step_rel h (frame h)); auto.
  - intros s1 s2 Hh. apply frame_count_row. exact Hh.
  - intros s1 s2 s3 i c. apply PUSH_frame.
  - intros hd s1 s2 s3 i i'. apply END_FIELD_frame.
Qed.

Lemma tokenize_loop_frame (h : bool) (e : Z) (fuel : nat) (s : tokenizer)
    (l : locals) :
  outcome_sat (fun _ s' => frame h s s') (tokenize_loop fuel h e s l).
Proof.
  apply (tokenize_loop_rel h (frame h)); auto.
  - intros s1 s2 Hh. apply frame_count_row. exact Hh.
  - intros s1 s2 s3 i c. apply PUSH_frame.
  - intros hd s1 s2 s3 i i'. apply END_FIELD_frame.
  - apply frame_refl.
Qed.

(** ** C1: header mode *)




(** ** C2, counterexample: terminators and rows in header mode *)


(** Two data-mode runs that return NO_ERROR with a terminator more than
    rows in column 0.  The first has a comment character in the middle of
    a line while [strip_whitespace_lines] is off; the second ends inside a
    quoted field. *)
Example midline_comment_leaves_field :
  view (tokenize 50 (set_source (csv false false true)
                       (bytes "1,#x" ++ [NL])) (-1) false 2)
  = Some (NO_ERROR, 0, [[49; 0]; []]).
Proof. vm_compute. reflexivity. Qed.

Example open_quote_leaves_field :
  view (tokenize 50 (set_source (csv false true true)
                       (bytes "1," ++ [34; 50])) (-1) false 2)
  = Some (NO_ERROR, 0, [[49; 0]; [50]]).
Proof. vm_compute. reflexivity. Qed.

(** ** C3, counterexample: a second call resumes at the cursor *)

Lemma tokenize_again_resumes :
  exists s1 s2,
    tokenize 50 (set_source (csv false true true) two_fields) (-1) false 2
    = Done NO_ERROR s1
    /\ tokenize 50 s1 (-1) false 2 = Done NO_ERROR s2
    /\ map written (output_cols s1) = [[49; 0]; [50; 0]]
    /\ map written (output_cols s2) = [[]; []]
    /\ output_cols s1 <> output_cols s2.
Proof.
  do 2 eexists. split; [vm_compute; reflexivity|].
  split; [vm_compute; reflexivity|].
  split; [vm_compute; reflexivity|].
  split; [vm_compute; reflexivity|].
  intros H. vm_compute in H. discriminate H.
Qed.

(** ** C4, counterexample: [fill_extra_cols] adds a row *)


(** ** C5: line terminators *)

(** C5, the code at the failing input.  With [strip_whitespace_lines] off,
    the line [1,] ended by a newline gives the row of [1] and an empty
    field; ended by a carriage return and a newline, or by a carriage
    return at the end of the input, it gives NOT_ENOUGH_COLS and no row:
    the backward scan from the newline stops on the carriage return and
    takes it for the end of the previous line. *)
Lemma crlf_loses_trailing_empty_field :
  crlf_to_lf trailing_delim_crlf = trailing_delim_lf
  /\ lone_cr_to_lf trailing_delim_cr = trailing_delim_lf
  /\ view (tokenize 50 (set_source (csv false false false) trailing_delim_lf)
             (-1) false 2)
     = Some (NO_ERROR, 1, [[49; 0]; [1; 0]])
  /\ view (tokenize 50 (set_source (csv false false false) trailing_delim_crlf)
             (-1) false 2)
     = Some (NOT_ENOUGH_COLS, 0, [[49; 0]; []])
  /\ view (tokenize 50 (set_source (csv false false false) trailing_delim_cr)
             (-1) false 2)
     = Some (NOT_ENOUGH_COLS, 0, [[49; 0]; []]).
Proof.
  repeat split; vm_compute; reflexivity.
Qed.

(** ** C7: rows with too many fields *)

(** C7, the code at the failing input.  With one column, the row [1,2]
    returns TOO_MANY_COLS: the bound is checked where an unquoted,
    non-empty field starts.  The rows [1,,] and [1,] followed by a quoted
    [2] do not: END_FIELD and PUSH are reached with [col = num_cols] and
    use [col_ptrs[col]] and [output_cols[col]] past the end of the arrays. *)
Lemma excess_empty_or_quoted_field :
  view (tokenize 50 (set_source (csv false true true) two_fields) (-1) false 1)
  = Some (TOO_MANY_COLS, 0, [[49; 0]])
  /\ tokenize 50 (set_source (csv false true true) extra_empty_field)
       (-1) false 1 = Undefined
  /\ tokenize 50 (set_source (csv false true true) extra_quoted_field)
       (-1) false 1 = Undefined
  /\ tokenize 50 (set_source (csv false false false) extra_empty_field)
       (-1) false 1 = Undefined.
Proof.
  repeat split; vm_compute; reflexivity.
Qed.

(** ** Fields the loop does not read *)

Section Unread.

Variables upd upd_ret : tokenizer -> tokenizer.
Variable dev : Z -> flow (tokenizer * locals) -> Prop.

Hypothesis upd_source : forall s, source (upd s) = source s.
Hypothesis upd_source_pos : forall s, source_pos (upd s) = source_pos s.
Hypothesis upd_delimiter : forall s, delimiter (upd s) = delimiter s.
Hypothesis upd_comment : forall s, comment (upd s) = comment s.
Hypothesis upd_quotechar : forall s, quotechar (upd s) = quotechar s.
Hypothesis upd_output_cols : forall s, output_cols (upd s) = output_cols s.
Hypothesis upd_num_cols : forall s, num_cols (upd s) = num_cols s.
Hypothesis upd_num_rows : forall s, num_rows (upd s) = num_rows s.
Hypothesis upd_state : forall s, state (upd s) = state s.
Hypothesis upd_strip_lines :
  forall s, strip_whitespace_lines (upd s) = strip_whitespace_lines s.
Hypothesis upd_strip_fields :
  forall s, strip_whitespace_fields (upd s) = strip_whitespace_fields s.

Hypothesis upd_set_state :
  forall s st, set_state (upd s) st = upd (set_state s st).
Hypothesis upd_set_source_pos :
  forall s p, set_source_pos (upd s) p = upd (set_source_pos s p).
Hypothesis upd_set_output_cols :
  forall s cs, set_output_cols (upd s) cs = upd (set_output_cols s cs).
Hypothesis upd_set_code :
  forall s c, set_code (upd s) c = upd_ret (set_code s c).

Hypothesis upd_set_num_rows :
  forall s n, set_num_rows (upd s) n = upd (set_num_rows s n).

Hypothesis dev_bind :
  forall n m (k : tokenizer * locals -> flow (tokenizer * locals)),
    dev n m -> dev n (bind_flow m k).

Hypothesis END_LINE_upd :
  forall h e s l,
    commutes upd upd_ret dev (num_rows s) (END_LINE h e (upd s) l) (END_LINE h e s l).

Local Abbreviation agree := (commutes upd upd_ret dev).

Ltac upd_norm :=
  repeat first
    [ rewrite upd_source | rewrite upd_source_pos | rewrite upd_delimiter
    | rewrite upd_comment | rewrite upd_quotechar | rewrite upd_output_cols
    | rewrite upd_num_cols | rewrite upd_num_rows | rewrite upd_state
    | rewrite upd_strip_lines | rewrite upd_strip_fields ].

Lemma agree_refl_next (n : Z) (s : tokenizer) (l : locals) :
  agree n (Next (upd s, l)) (Next (s, l)).
Proof. left. reflexivity. Qed.

Lemma agree_crash (n : Z) : agree n Crash Crash.
Proof. left. reflexivity. Qed.

Lemma agree_RETURN (n : Z) (s : tokenizer) (c : err_code) :
  agree n (RETURN (upd s) c) (RETURN s c).
Proof. left. unfold RETURN. simpl. rewrite upd_set_code. reflexivity. Qed.

Lemma agree_bind (n : Z) (m' m : flow (tokenizer * locals))
    (k' k : tokenizer * locals -> flow (tokenizer * locals)) :
  agree n m' m ->
  (forall s1 l1, m = Next (s1, l1) -> agree n (k' (upd s1, l1)) (k (s1, l1))) ->
  agree n (bind_flow m' k') (bind_flow m k).
Proof.
  intros [->|Hd] Hk.
  - destruct m as [[s1 l1]|c s1|]; simpl; auto.
    + left. reflexivity.
    + left. reflexivity.
  - right. apply dev_bind. exact Hd.
Qed.

Lemma set_col_upd (s : tokenizer) (i : nat) (cl : column) :
  set_col (upd s) i cl = upd (set_col s i cl).
Proof. unfold set_col. rewrite upd_output_cols. apply upd_set_output_cols. Qed.

Lemma PUSH_upd (s : tokenizer) (i : nat) (c : Z) :
  PUSH (upd s) i c = option_map upd (PUSH s i c).
Proof.
  unfold PUSH. rewrite upd_output_cols.
  destruct (nth_error (output_cols s) i) as [cl|]; [|reflexivity].
  destruct (push_col cl c); simpl; [|reflexivity].
  rewrite set_col_upd. reflexivity.
Qed.

Lemma END_FIELD_upd (h : bool) (s : tokenizer) (i : nat) :
  END_FIELD h (upd s) i
  = option_map (fun p => (upd (fst p), snd p)) (END_FIELD h s i).
Proof.
  unfold END_FIELD. rewrite upd_output_cols, upd_strip_fields.
  destruct (nth_error (output_cols s) i) as [cl|]; [|reflexivity].
  destruct (end_field_col (strip_whitespace_fields s) cl); simpl; [|reflexivity].
  rewrite set_col_upd. reflexivity.
Qed.

Lemma fill_cols_upd (n : nat) :
  forall s i,
    fill_cols n (upd s) i
    = option_map (fun p => (upd (fst p), snd p)) (fill_cols n s i).
Proof.
  induction n as [|n IH]; intros s i; simpl; [reflexivity|].
  rewrite PUSH_upd. destruct (PUSH s i 1) as [s1|]; simpl; [|reflexivity].
  rewrite END_FIELD_upd.
  destruct (END_FIELD false s1 i) as [[s2 i2]|]; simpl; [|reflexivity].
  apply IH.
Qed.

Lemma source_at_upd (s : tokenizer) (p : Z) : source_at (upd s) p = source_at s p.
Proof. unfold source_at. rewrite upd_source. reflexivity. Qed.

Lemma push_range_upd (n : nat) (i : nat) :
  forall s p, push_range n (upd s) i p = option_map upd (push_range n s i p).
Proof.
  induction n as [|n IH]; intros s p; simpl; [reflexivity|].
  rewrite source_at_upd. destruct (source_at s p) as [b|]; [|reflexivity].
  rewrite PUSH_upd. destruct (PUSH s i b) as [s1|]; simpl; [|reflexivity].
  apply IH.
Qed.

Lemma backtrack_upd (s : tokenizer) (n : nat) : backtrack (upd s) n = backtrack s n.
Proof.
  induction n as [|n IH]; simpl; [reflexivity|].
  rewrite upd_source, upd_delimiter, IH. reflexivity.
Qed.

Lemma current_char_upd (s : tokenizer) (l : locals) :
  current_char (upd s) l = current_char s l.
Proof.
  unfold current_char, source_len.
  rewrite upd_source_pos, upd_source, source_at_upd. reflexivity.
Qed.

Lemma end_field_upd (n : Z) (h : bool) (s : tokenizer) (l : locals) :
  agree n (end_field h (upd s) l) (end_field h s l).
Proof.
  left. unfold end_field. rewrite END_FIELD_upd.
  destruct (END_FIELD h s (col l)) as [[s1 c1]|]; reflexivity.
Qed.

Lemma END_FIELD_num_rows (h : bool) (s s' : tokenizer) (i i' : nat) :
  END_FIELD h s i = Some (s', i') -> num_rows s' = num_rows s.
Proof.
  unfold END_FIELD. destruct (nth_error (output_cols s) i); [|discriminate].
  destruct (end_field_col _ _); [|discriminate].
  intros H; inversion H; reflexivity.
Qed.

Lemma end_field_num_rows (h : bool) (s s1 : tokenizer) (l l1 : locals) :
  end_field h s l = Next (s1, l1) -> num_rows s1 = num_rows s.
Proof.
  unfold end_field.
  destruct (END_FIELD h s (col l)) as [[s2 c2]|] eqn:H; simpl; [|discriminate].
  intros H1; inversion H1; subst. eapply END_FIELD_num_rows; eauto.
Qed.

Lemma PUSH_num_rows (s s' : tokenizer) (i : nat) (c : Z) :
  PUSH s i c = Some s' -> num_rows s' = num_rows s.
Proof.
  unfold PUSH. destruct (nth_error (output_cols s) i); [|discriminate].
  destruct (push_col _ _); [|discriminate].
  intros H; inversion H; reflexivity.
Qed.

Lemma push_range_num_rows (n : nat) (i : nat) :
  forall s p s', push_range n s i p = Some s' -> num_rows s' = num_rows s.
Proof.
  induction n as [|n IH]; intros s p s' H; simpl in H.
  - inversion H; reflexivity.
  - destruct (source_at s p); [|discriminate].
    destruct (PUSH s i z) as [s1|] eqn:H1; [|discriminate].
    rewrite (IH _ _ _ H). eapply PUSH_num_rows; eauto.
Qed.

Ltac agree_if :=
  match goal with
  | |- commutes _ _ _ _ (if ?b then _ else _) (if ?b then _ else _) =>
      destruct b
  end.

Ltac agree_leaf :=
  first
    [ apply agree_crash
    | apply agree_RETURN
    | repeat first [ rewrite upd_set_state | rewrite upd_set_source_pos
                   | rewrite upd_source_pos | rewrite upd_state ];
      apply agree_refl_next ].

Lemma case_QUOTED_FIELD_upd (c : Z) (s : tokenizer) (l : locals) :
  agree (num_rows s) (case_QUOTED_FIELD c (upd s) l) (case_QUOTED_FIELD c s l).
Proof.
  unfold case_QUOTED_FIELD, HANDLE_CR. upd_norm.
  repeat agree_if; try agree_leaf.
  rewrite PUSH_upd. destruct (PUSH s (col l) c); simpl; agree_leaf.
Qed.

Lemma case_QUOTED_FIELD_NEWLINE_upd (c : Z) (s : tokenizer) (l : locals) :
  agree (num_rows s) (case_QUOTED_FIELD_NEWLINE c (upd s) l)
    (case_QUOTED_FIELD_NEWLINE c s l).
Proof.
  unfold case_QUOTED_FIELD_NEWLINE, HANDLE_CR. upd_norm.
  repeat agree_if; try agree_leaf.
  - apply case_QUOTED_FIELD_upd.
  - rewrite upd_set_state.
    apply (case_QUOTED_FIELD_upd c (set_state s QUOTED_FIELD) l).
Qed.

Lemma case_START_QUOTED_FIELD_upd (h : bool) (c : Z) (s : tokenizer)
    (l : locals) :
  agree (num_rows s) (case_START_QUOTED_FIELD h c (upd s) l)
    (case_START_QUOTED_FIELD h c s l).
Proof.
  unfold case_START_QUOTED_FIELD. upd_norm.
  repeat agree_if; try agree_leaf.
  - apply end_field_upd.
  - rewrite upd_set_state.
    apply (case_QUOTED_FIELD_NEWLINE_upd c (set_state s QUOTED_FIELD) l).
Qed.

Lemma end_line_after_field (h : bool) (e : Z) (n : Z) (m' m : flow (tokenizer * locals)) :
  agree n m' m ->
  (forall s1 l1, m = Next (s1, l1) -> num_rows s1 = n) ->
  agree n
    (bind_flow m' (fun x => let '(self1, l1) := x in
       bind_flow (END_LINE h e self1 l1) (fun y => let '(self2, l2) := y in
         Next (set_state self2 START_LINE, l2))))
    (bind_flow m (fun x => let '(self1, l1) := x in
       bind_flow (END_LINE h e self1 l1) (fun y => let '(self2, l2) := y in
         Next (set_state self2 START_LINE, l2)))).
Proof.
  intros Hm Hrows. apply agree_bind; [exact Hm|].
  intros s1 l1 H1. apply agree_bind.
  - rewrite <- (Hrows _ _ H1). apply END_LINE_upd.
  - intros s2 l2 _. agree_leaf.
Qed.

Lemma case_FIELD_upd (h : bool) (e : Z) (c : Z) (s : tokenizer) (l : locals) :
  agree (num_rows s) (case_FIELD h e c (upd s) l) (case_FIELD h e c s l).
Proof.
  unfold case_FIELD, HANDLE_CR, BEGIN_FIELD. upd_norm.
  repeat agree_if; try agree_leaf.
  - apply agree_bind; [apply end_field_upd|].
    intros s1 l1 _. agree_leaf.
  - apply end_line_after_field; [apply end_field_upd|].
    intros s1 l1 H1. eapply end_field_num_rows; eauto.
  - rewrite PUSH_upd. destruct (PUSH s _ c); simpl; agree_leaf.
Qed.

Lemma start_field_newline_upd (h : bool) (s : tokenizer) (l : locals) :
  agree (num_rows s) (start_field_newline h (upd s) l) (start_field_newline h s l).
Proof.
  unfold start_field_newline. upd_norm. rewrite backtrack_upd.
  repeat agree_if; try agree_leaf; try apply end_field_upd.
  rewrite source_at_upd.
  destruct (if backtrack s (Z.to_nat (source_pos s)) =? -1 then _ else _)
    as [[|]|]; simpl; try agree_leaf.
  rewrite push_range_upd.
  destruct (push_range _ s (col l) _) as [s1|]; simpl; [|agree_leaf].
  rewrite upd_set_source_pos. apply end_field_upd.
Qed.

Lemma start_field_newline_num_rows (h : bool) (s s1 : tokenizer)
    (l l1 : locals) :
  start_field_newline h s l = Next (s1, l1) -> num_rows s1 = num_rows s.
Proof.
  unfold start_field_newline.
  destruct (strip_whitespace_lines s).
  - destruct ((delimiter s =? SPACE) || (delimiter s =? TAB)).
    + intros H; inversion H; reflexivity.
    + apply end_field_num_rows.
  - destruct (if backtrack s (Z.to_nat (source_pos s)) =? -1 then _ else _)
      as [[|]|]; simpl; try discriminate.
    + intros H; inversion H; reflexivity.
    + destruct (push_range _ s (col l) _) as [s2|] eqn:H2; simpl;
        [|discriminate].
      intros H. apply end_field_num_rows in H. simpl in H.
      rewrite H. eapply push_range_num_rows; eauto.
Qed.

Lemma case_START_FIELD_upd (h : bool) (e : Z) (c : Z) (s : tokenizer)
    (l : locals) :
  agree (num_rows s) (case_START_FIELD h e c (upd s) l)
    (case_START_FIELD h e c s l).
Proof.
  unfold case_START_FIELD, HANDLE_CR, BEGIN_FIELD. upd_norm.
  repeat agree_if; try agree_leaf.
  - apply agree_bind; [apply end_field_upd|].
    intros s1 l1 _. agree_leaf.
  - apply end_line_after_field; [apply start_field_newline_upd|].
    intros s1 l1 H1. eapply start_field_newline_num_rows; eauto.
  - rewrite upd_set_state. apply (case_FIELD_upd h e c (set_state s FIELD) l).
Qed.

Lemma case_START_LINE_upd (h : bool) (e : Z) (c : Z) (s : tokenizer)
    (l : locals) :
  agree (num_rows s) (case_START_LINE h e c (upd s) l)
    (case_START_LINE h e c s l).
Proof.
  unfold case_START_LINE, HANDLE_CR, BEGIN_FIELD. upd_norm.
  repeat agree_if; try agree_leaf.
  rewrite upd_set_state.
  apply (case_START_FIELD_upd h e c (set_state s START_FIELD)).
Qed.

(** One iteration on the changed tokenizer. *)
Lemma step_upd (h : bool) (e : Z) (s : tokenizer) (l : locals) :
  agree (num_rows s) (step h e (upd s) l) (step h e s l).
Proof.
  unfold step. rewrite current_char_upd, upd_state.
  destruct (current_char s l) as [c|]; simpl; [|agree_leaf].
  apply agree_bind.
  - destruct (state s).
    + apply case_START_LINE_upd.
    + apply case_START_FIELD_upd.
    + apply case_START_QUOTED_FIELD_upd.
    + apply case_FIELD_upd.
    + apply case_QUOTED_FIELD_upd.
    + apply case_QUOTED_FIELD_NEWLINE_upd.
    + unfold case_COMMENT, HANDLE_CR. upd_norm.
      repeat agree_if; agree_leaf.
    + unfold case_CARRIAGE_RETURN. upd_norm.
      repeat agree_if; agree_leaf.
  - intros s1 l1 _. agree_leaf.
Qed.

(** END_LINE when the changed field is not [fill_extra_cols] either. *)
Lemma END_LINE_upd_same_fill (h : bool) (e : Z) (s : tokenizer) (l : locals) :
  (forall s0, fill_extra_cols (upd s0) = fill_extra_cols s0) ->
  END_LINE h e (upd s) l = map_flow upd upd_ret (END_LINE h e s l).
Proof.
  intros Hfill. unfold END_LINE, RETURN. rewrite Hfill. upd_norm.
  destruct h.
  - simpl. rewrite upd_set_source_pos, upd_set_code. reflexivity.
  - destruct (fill_extra_cols s).
    + rewrite fill_cols_upd.
      destruct (fill_cols (num_cols s - col l) s (col l)) as [[s1 c1]|];
        simpl; [|reflexivity].
      upd_norm. rewrite upd_set_num_rows.
      destruct (negb (e =? -1) && (num_rows s1 + 1 =? e)); simpl.
      * upd_norm. rewrite upd_set_source_pos, upd_set_code. reflexivity.
      * reflexivity.
    + destruct (col l <? num_cols s)%nat; simpl.
      * rewrite upd_set_code. reflexivity.
      * upd_norm. rewrite upd_set_num_rows.
        destruct (negb (e =? -1) && (num_rows s + 1 =? e)); simpl.
        -- upd_norm. rewrite upd_set_source_pos, upd_set_code. reflexivity.
        -- reflexivity.
Qed.

End Unread.

(** ** C3: what a call depends on *)

(** The loop body does not read [code]. *)
Lemma step_set_code (h : bool) (e : Z) (x : err_code) (s : tokenizer)
    (l : locals) :
  step h e (set_code s x) l
  = map_flow (fun s1 => set_code s1 x) (fun s1 => s1) (step h e s l).
Proof.
  assert (H : commutes (fun s1 => set_code s1 x) (fun s1 => s1)
                (fun _ _ => False) (num_rows s)
                (step h e (set_code s x) l) (step h e s l)).
  { apply (step_upd (fun s1 => set_code s1 x) (fun s1 => s1) (fun _ _ => False));
      try (intros; reflexivity); try (intros; contradiction).
    intros h0 e0 s0 l0. left.
    apply (END_LINE_upd_same_fill (fun s1 => set_code s1 x) (fun s1 => s1));
      intros; reflexivity. }
  destruct H as [H|[]]. exact H.
Qed.

Lemma tokenize_loop_set_code (h : bool) (e : Z) (x : err_code) (fuel : nat) :
  forall s l,
    tokenize_loop fuel h e (set_code s x) l = tokenize_loop fuel h e s l.
Proof.
  induction fuel as [|fuel IH]; intros s l; simpl.
  - reflexivity.
  - change (source_pos (set_code s x)) with (source_pos s).
    change (source_len (set_code s x)) with (source_len s).
    destruct (source_pos s <? source_len s + 1); [|reflexivity].
    rewrite step_set_code.
    destruct (step h e s l) as [[s1 l1]|c s1|]; simpl; auto.
Qed.

(** A run keeps the fields that [tokenize] only reads. *)
Lemma tokenize_frame (ics : nat) (self : tokenizer) (end_ : Z) (header : bool)
    (ncols : nat) :
  outcome_sat
    (fun _ s' => frame header (set_state (allocate ics self header ncols) START_LINE) s')
    (tokenize ics self end_ header ncols).
Proof.
  unfold tokenize. destruct (end_ =? 0); simpl.
  - apply (frame_refl header (allocate ics self header ncols)).
  - apply tokenize_loop_frame.
Qed.

(** C3, as the code has it.  [tokenize] does not reset the cursor: what a
    call produces is determined by the configuration, the installed input,
    [source_pos] and the arguments.  So when a call has returned and
    [source_pos] is put back where it was, a second call with the same
    arguments returns the same code and leaves the tokenizer, hence the
    column buffers byte for byte and [num_rows], exactly as the first call
    left it. *)
Theorem tokenize_again_from_same_position (ics : nat) (self : tokenizer)
    (end_ : Z) (header : bool) (ncols : nat) (c : err_code) (s1 : tokenizer) :
  tokenize ics self end_ header ncols = Done c s1 ->
  tokenize ics (set_source_pos s1 (source_pos self)) end_ header ncols
  = Done c s1.
Proof.
  intros H1. pose proof (tokenize_frame ics self end_ header ncols) as Hf.
  rewrite H1 in Hf. simpl in Hf. destruct Hf as (Hc & _ & _).
  unfold config_of in Hc. simpl in Hc.
  injection Hc as Hsrc Hdel Hcom Hq _ Hfill Hsl Hsf Hfast Hbuf Hic Hcp _.
  rewrite <- H1. unfold tokenize.
  assert (Ha : allocate ics (set_source_pos s1 (source_pos self)) header ncols
               = set_state (set_code (allocate ics self header ncols) (code s1))
                   (state s1)).
  { unfold allocate, delete_data, set_output_cols, set_num_cols, set_num_rows,
      set_source_pos, set_state, set_code. simpl. congruence. }
  rewrite Ha. destruct (end_ =? 0) eqn:He.
  - unfold tokenize in H1. rewrite He in H1. inversion H1; subst c s1.
    reflexivity.
  - change (set_state (set_state (set_code (allocate ics self header ncols) (code s1))
                         (state s1)) START_LINE)
      with (set_code (set_state (allocate ics self header ncols) START_LINE) (code s1)).
    rewrite tokenize_loop_set_code. reflexivity.
Qed.

Lemma tokenize_again_from_same_position_witness :
  exists s1,
    tokenize 50 (set_source (csv false true true) two_fields) (-1) false 2
    = Done NO_ERROR s1
    /\ tokenize 50 (set_source_pos s1 0) (-1) false 2 = Done NO_ERROR s1.
Proof.
  eexists. split; [vm_compute; reflexivity|].
  apply (tokenize_again_from_same_position 50
           (set_source (csv false true true) two_fields) (-1) false 2).
  vm_compute. reflexivity.
Defined.

(** ** C4: [fill_extra_cols] *)








(** ** C6: [skip_lines] at the end of the input *)

Lemma significant_locals (self : tokenizer) (header : bool) (cur : list Z) :
  significant self header cur
  = negb (comment_of self header cur) && (0 <? signif_chars_of self header cur).
Proof.
  unfold significant, comment_of, signif_chars_of.
  destruct (filter (kept self header) cur) as [|c k]; simpl.
  - reflexivity.
  - rewrite andb_true_r. reflexivity.
Qed.

Lemma locals_after_byte (self : tokenizer) (header : bool) (cur : list Z) (c : Z) :
  signif_chars_of self header (cur ++ [c])
  = (if kept self header c then signif_chars_of self header cur + 1
     else signif_chars_of self header cur)
  /\ comment_of self header (cur ++ [c])
     = (if kept self header c
        then if (signif_chars_of self header cur =? 0)
                && negb (comment self =? 0) && (c =? comment self)
             then true else comment_of self header cur
        else comment_of self header cur).
Proof.
  unfold signif_chars_of, comment_of. rewrite filter_app. simpl.
  destruct (kept self header c); simpl.
  - rewrite length_app. simpl. split; [lia|].
    destruct (filter (kept self header) cur) as [|b k]; simpl.
    + destruct (negb (comment self =? 0) && (c =? comment self)); reflexivity.
    + reflexivity.
  - rewrite app_nil_r. auto.
Qed.

Lemma count_significant_cons (self : tokenizer) (header : bool)
    (line : list Z) (ls : list (list Z)) :
  count_significant self header (line :: ls)
  = (if significant self header line then 1 else 0)
    + count_significant self header ls.
Proof.
  unfold count_significant. cbn [filter].
  destruct (significant self header line); cbn [length].
  - rewrite Nat2Z.inj_succ. lia.
  - lia.
Qed.

Lemma remaining_at (self : tokenizer) (c : Z) :
  0 <= source_pos self ->
  source_at self (source_pos self) = Some c ->
  remaining self = c :: remaining (set_source_pos self (source_pos self + 1)).
Proof.
  intros Hpos H. unfold source_at in H.
  destruct (Z.ltb_spec (source_pos self) 0); [lia|].
  unfold remaining. simpl.
  replace (Z.to_nat (source_pos self + 1)) with (S (Z.to_nat (source_pos self)))
    by lia.
  apply nth_error_skipn_cons. exact H.
Qed.

Lemma remaining_length (self : tokenizer) :
  0 <= source_pos self ->
  Z.of_nat (length (remaining self))
  = Z.max 0 (source_len self - source_pos self).
Proof.
  intros Hpos. unfold remaining, source_len. rewrite length_skipn. lia.
Qed.

(** What the loop of [skip_lines] returns, from any of its states: [cur] is
    the part of the current line already passed and [i] the lines counted.
    It stops with the end-of-input code exactly when the lines counted and
    the significant lines still to come are fewer than [offset]. *)
Lemma skip_lines_loop_spec (offset : Z) (header : bool) (fuel : nat) :
  forall (self : tokenizer) (cur : list Z) (i : Z),
    0 <= source_pos self ->
    (length (remaining self) < fuel)%nat ->
    exists self',
      skip_lines_loop fuel self offset header
        (signif_chars_of self header cur) (comment_of self header cur) i
      = Done (if i + count_significant self header
                       (lines_from cur (remaining self)) <? offset
              then if header then INVALID_LINE else NO_ERROR
              else NO_ERROR) self'
      /\ code self'
         = (if i + count_significant self header
                     (lines_from cur (remaining self)) <? offset
            then if header then INVALID_LINE else NO_ERROR
            else NO_ERROR)
      /\ (i + count_significant self header (lines_from cur (remaining self))
          < offset -> source_len self <= source_pos self').
Proof.
  induction fuel as [|fuel IH]; intros self cur i Hpos Hfuel; [lia|].
  assert (Hcount : 0 <= count_significant self header
                          (lines_from cur (remaining self)))
    by (unfold count_significant; lia).
  simpl. destruct (Z.ltb_spec i offset) as [Hi|Hi].
  2:{ exists (set_code self NO_ERROR).
      destruct (Z.ltb_spec (i + count_significant self header
                                  (lines_from cur (remaining self))) offset);
        [lia|]. repeat split; lia. }
  pose proof (remaining_length self Hpos) as Hlen.
  destruct (Z.leb_spec (source_len self) (source_pos self)) as [Hend|Hin].
  - (* the input has ended *)
    assert (Hnil : remaining self = []).
    { destruct (remaining self); [reflexivity|simpl in Hlen; lia]. }
    rewrite Hnil. simpl. unfold count_significant at 1 2 3. simpl.
    destruct (Z.ltb_spec (i + 0) offset); [|lia].
    destruct header;
      [exists (set_code self INVALID_LINE)|exists (set_code self NO_ERROR)];
      repeat split; simpl; lia.
  - destruct (source_at self (source_pos self)) as [c|] eqn:Hc.
    2:{ exfalso. unfold source_at in Hc.
        destruct (Z.ltb_spec (source_pos self) 0); [lia|].
        apply nth_error_None in Hc. unfold source_len in Hin. lia. }
    pose proof (remaining_at self c Hpos Hc) as Hrem.
    set (self1 := set_source_pos self (source_pos self + 1)) in *.
    assert (Hpos1 : 0 <= source_pos self1) by (simpl; lia).
    assert (Hfuel1 : (length (remaining self1) < fuel)%nat).
    { rewrite Hrem in Hfuel. simpl in Hfuel. lia. }
    destruct ((c =? CR) || (c =? NL)) eqn:Hterm.
    + (* a line terminator *)
      rewrite <- significant_locals.
      destruct (Z.eqb_spec c NL) as [HNL|HNL].
      * (* newline *)
        subst c. simpl (10 =? CR). simpl (false && _).
        cbv iota.
        rewrite Hrem. simpl (lines_from cur (NL :: _)).
        rewrite count_significant_cons.
        destruct (IH self1 [] (if significant self header cur then i + 1 else i)
                    Hpos1 Hfuel1) as (self' & Hrun & Hcode & Hp).
        exists self'.
        replace (i + ((if significant self header cur then 1 else 0)
                      + count_significant self header (lines_from [] (remaining self1))))
          with ((if significant self header cur then i + 1 else i)
                + count_significant self1 header (lines_from [] (remaining self1)))
          by (change (count_significant self1) with (count_significant self);
              destruct (significant self header cur); lia).
        split; [exact Hrun|]. split; [exact Hcode|exact Hp].
      * (* carriage return *)
        assert (HCR : c = CR).
        { destruct (Z.eqb_spec c CR); [assumption|]. simpl in Hterm.
          destruct (Z.eqb_spec c NL); [contradiction|discriminate]. }
        subst c. simpl (CR =? CR). simpl (true && _).
        rewrite Hrem. simpl (lines_from cur (CR :: _)).
        case_eq (remaining self1); [intros Hrem1|intros n tl' Hrem1].
        -- (* the carriage return ends the input *)
           assert (Hat : source_at self (source_pos self + 1) = None
                         \/ (source_pos self <? source_len self - 1) = false).
           { right. apply Z.ltb_ge.
             pose proof (remaining_length self1 Hpos1) as Hl1.
             rewrite Hrem1 in Hl1. simpl in Hl1.
             change (source_len self1) with (source_len self) in Hl1.
             change (source_pos self1) with (source_pos self + 1) in Hl1. lia. }
           assert (Hcrlf : ((source_pos self <? source_len self - 1)
                    && match source_at self (source_pos self + 1) with
                       | Some b => b =? NL
                       | None => false
                       end) = false).
           { destruct Hat as [->| ->]; [apply andb_false_r|reflexivity]. }
           rewrite Hcrlf. cbv iota.
           destruct (IH self1 [] (if significant self header cur then i + 1 else i)
                       Hpos1 Hfuel1) as (self' & Hrun & Hcode & Hp).
           rewrite Hrem1 in Hrun, Hcode, Hp. simpl (lines_from [] []) in *.
           exists self'.
           replace (i + count_significant self header [cur])
             with ((if significant self header cur then i + 1 else i)
                   + count_significant self1 header [])
             by (rewrite count_significant_cons;
                 change (count_significant self1) with (count_significant self);
                 destruct (significant self header cur); lia).
           split; [exact Hrun|]. split; [exact Hcode|exact Hp].
        -- assert (Hlt : (source_pos self <? source_len self - 1) = true).
           { apply Z.ltb_lt.
             pose proof (remaining_length self1 Hpos1) as Hl1.
             rewrite Hrem1 in Hl1. simpl length in Hl1.
             change (source_len self1) with (source_len self) in Hl1.
             change (source_pos self1) with (source_pos self + 1) in Hl1. lia. }
           assert (Hn : source_at self (source_pos self + 1) = Some n).
           { unfold source_at. destruct (Z.ltb_spec (source_pos self + 1) 0); [lia|].
             unfold remaining in Hrem1.
             apply (skipn_cons_nth_error _ _ _ _ _ Hrem1). }
           rewrite Hlt, Hn. simpl (true && _).
           destruct (Z.eqb_spec n NL) as [->|HnNL].
           ++ (* carriage return and newline *)
              cbv iota.
              set (self2 := set_source_pos self1 (source_pos self1 + 1)).
              assert (Hrem2 : remaining self2 = tl').
              { pose proof (remaining_at self1 NL Hpos1 Hn) as H2.
                rewrite Hrem1 in H2. inversion H2. reflexivity. }
              assert (Hpos2 : 0 <= source_pos self2) by (simpl; lia).
              assert (Hfuel2 : (length (remaining self2) < fuel)%nat).
              { rewrite Hrem2. rewrite Hrem1 in Hfuel1. simpl in Hfuel1. lia. }
              destruct (IH self2 [] (if significant self header cur then i + 1 else i)
                          Hpos2 Hfuel2) as (self' & Hrun & Hcode & Hp).
              rewrite Hrem2 in Hrun, Hcode, Hp.
              exists self'.
              replace (i + count_significant self header (cur :: lines_from [] tl'))
                with ((if significant self header cur then i + 1 else i)
                      + count_significant self2 header (lines_from [] tl'))
                by (rewrite count_significant_cons;
                    change (count_significant self2) with (count_significant self);
                    destruct (significant self header cur); lia).
              split; [exact Hrun|]. split; [exact Hcode|exact Hp].
           ++ cbv iota.
              destruct (IH self1 [] (if significant self header cur then i + 1 else i)
                          Hpos1 Hfuel1) as (self' & Hrun & Hcode & Hp).
              rewrite Hrem1 in Hrun, Hcode, Hp.
              exists self'.
              replace (i + count_significant self header
                             (cur :: lines_from [] (n :: tl')))
                with ((if significant self header cur then i + 1 else i)
                      + count_significant self1 header (lines_from [] (n :: tl')))
                by (rewrite count_significant_cons;
                    change (count_significant self1) with (count_significant self);
                    destruct (significant self header cur); lia).
              split; [exact Hrun|]. split; [exact Hcode|exact Hp].
    + (* a byte of the line *)
      apply orb_false_iff in Hterm. destruct Hterm as [HCR HNL].
      rewrite Hrem. simpl (lines_from cur (c :: _)). rewrite HNL, HCR.
      destruct (locals_after_byte self header cur c) as [Hsc Hcm].
      destruct (IH self1 (cur ++ [c]) i Hpos1 Hfuel1) as (self' & Hrun & Hcode & Hp).
      change (signif_chars_of self1) with (signif_chars_of self) in Hrun.
      change (comment_of self1) with (comment_of self) in Hrun.
      change (count_significant self1) with (count_significant self) in *.
      rewrite Hsc, Hcm in Hrun. unfold kept in Hrun.
      exists self'. split; [|split; [exact Hcode|exact Hp]].
      destruct (negb (is_blank c) || negb (strip_whitespace_lines self) || header);
        exact Hrun.
Qed.

(** [skip_lines] always returns when the cursor is not negative. *)
Lemma skip_lines_returns (self : tokenizer) (offset : Z) (header : bool) :
  0 <= source_pos self ->
  exists c self', skip_lines self offset header = Done c self' /\ code self' = c.
Proof.
  intros Hpos.
  destruct (skip_lines_loop_spec offset header (skip_fuel self) self [] 0 Hpos)
    as (self' & Hrun & Hcode & _).
  - unfold skip_fuel. pose proof (remaining_length self Hpos). lia.
  - eexists. exists self'. split; [exact Hrun|exact Hcode].
Qed.

(** C6.  If the input ends before [offset] significant lines are found,
    that is, if the input that remains at the cursor has fewer than
    [offset] significant lines, [skip_lines] returns INVALID_LINE when
    [header] is true and NO_ERROR when it is false, with [code] set to what
    it returns and the cursor at the end of the input. *)
Theorem skip_lines_input_exhausted (self : tokenizer) (offset : Z)
    (header : bool) :
  0 <= source_pos self ->
  significant_lines self header (remaining self) < offset ->
  exists self',
    skip_lines self offset header
    = Done (if header then INVALID_LINE else NO_ERROR) self'
    /\ code self' = (if header then INVALID_LINE else NO_ERROR)
    /\ source_len self <= source_pos self'.
Proof.
  intros Hpos Hfew.
  destruct (skip_lines_loop_spec offset header (skip_fuel self) self [] 0 Hpos)
    as (self' & Hrun & Hcode & Hp).
  - unfold skip_fuel. pose proof (remaining_length self Hpos). lia.
  - change (0 + count_significant self header (lines_from [] (remaining self)))
      with (significant_lines self header (remaining self)) in *.
    destruct (Z.ltb_spec (significant_lines self header (remaining self)) offset);
      [|lia].
    exists self'. split; [exact Hrun|]. split; [exact Hcode|auto].
Qed.

Lemma skip_lines_input_exhausted_witness :
  exists self',
    skip_lines (set_source (csv false true true) header_and_row) 3 true
    = Done INVALID_LINE self'
    /\ code self' = INVALID_LINE
    /\ source_len (set_source (csv false true true) header_and_row)
       <= source_pos self'.
Proof.
  apply (skip_lines_input_exhausted
           (set_source (csv false true true) header_and_row) 3 true).
  - vm_compute. discriminate.
  - vm_compute. reflexivity.
Defined.

(** The other side: when the remaining input has [offset] significant lines
    or more, [skip_lines] returns NO_ERROR in both modes. *)
Lemma skip_lines_found (self : tokenizer) (offset : Z) (header : bool) :
  0 <= source_pos self ->
  offset <= significant_lines self header (remaining self) ->
  exists self', skip_lines self offset header = Done NO_ERROR self'.
Proof.
  intros Hpos Hmany.
  destruct (skip_lines_loop_spec offset header (skip_fuel self) self [] 0 Hpos)
    as (self' & Hrun & _ & _).
  - unfold skip_fuel. pose proof (remaining_length self Hpos). lia.
  - change (0 + count_significant self header (lines_from [] (remaining self)))
      with (significant_lines self header (remaining self)) in *.
    destruct (Z.ltb_spec (significant_lines self header (remaining self)) offset);
      [lia|].
    exists self'. exact Hrun.
Qed.

(** ** Blocks, write pointers and terminators *)












(** *** The arrays of columns *)

Lemma nth_error_set_nth (cs : list column) :
  forall i j cl,
    nth_error (set_nth cs i cl) j
    = if (j =? i)%nat
      then match nth_error cs i with Some _ => Some cl | None => None end
      else nth_error cs j.
Proof.
  induction cs as [|x cs IH]; intros [|i] [|j] cl; simpl; auto.
  destruct (j =? i)%nat; reflexivity.
Qed.





(** ** C2: terminators and rows in data mode *)

Ltac bool_facts :=
  repeat match goal with
  | H : _ && _ = true |- _ => apply andb_true_iff in H; destruct H
  | H : _ || _ = false |- _ => apply orb_false_iff in H; destruct H
  | H : negb _ = true |- _ => apply negb_true_iff in H
  | H : negb _ = false |- _ => apply negb_false_iff in H
  | H : (_ =? _) = true |- _ => apply Z.eqb_eq in H
  | H : (_ =? _) = false |- _ => apply Z.eqb_neq in H
  | H : (_ =? _)%nat = true |- _ => apply Nat.eqb_eq in H
  | H : (_ =? _)%nat = false |- _ => apply Nat.eqb_neq in H
  | H : (_ <? _)%nat = true |- _ => apply Nat.ltb_lt in H
  | H : (_ <? _)%nat = false |- _ => apply Nat.ltb_ge in H
  | H : (_ <=? _)%nat = true |- _ => apply Nat.leb_le in H
  | H : (_ <=? _)%nat = false |- _ => apply Nat.leb_gt in H
  end.











Lemma is_blank_not_NL (c : Z) : is_blank c = true -> c <> NL.
Proof.
  unfold is_blank, SPACE, TAB, NL. intros H ->. discriminate H.
Qed.











(** ** Fields stay where they were written *)















(** *** A run with a row limit against the complete run *)


Lemma same_or_limit_then (m_e m_all : flow (tokenizer * locals))
    (g : tokenizer -> tokenizer) :
  (forall s, output_cols (g s) = output_cols s) ->
  same_or_limit m_e m_all ->
  same_or_limit
    (bind_flow m_e (fun p => Next (g (fst p), snd p)))
    (bind_flow m_all (fun p => Next (g (fst p), snd p))).
Proof.
  intros Hg [->|(s_e & s_all & l_all & -> & -> & Hc)].
  - left. reflexivity.
  - right. exists s_e, (g s_all), l_all. simpl. rewrite Hg. auto.
Qed.

Lemma same_or_limit_after {A : Type} (m : flow A)
    (k_e k_all : A -> flow (tokenizer * locals)) :
  (forall a, same_or_limit (k_e a) (k_all a)) ->
  same_or_limit (bind_flow m k_e) (bind_flow m k_all).
Proof.
  intros H. destruct m; simpl; auto; left; reflexivity.
Qed.

Lemma END_LINE_limit (h : bool) (e : Z) (s : tokenizer) (l : locals) :
  same_or_limit (END_LINE h e s l) (END_LINE h (-1) s l).
Proof.
  unfold END_LINE. destruct h; [left; reflexivity|].
  apply same_or_limit_after. intros [s1 c1]. simpl.
  destruct (e =? -1); simpl; [left; reflexivity|].
  destruct (num_rows s1 + 1 =? e); [|left; reflexivity].
  right. unfold RETURN. do 3 eexists. split; [reflexivity|].
  split; reflexivity.
Qed.

Lemma line_end_limit {A : Type} (h : bool) (e : Z) (m : flow A)
    (f : A -> tokenizer * locals) :
  same_or_limit
    (bind_flow m (fun a =>
       bind_flow (END_LINE h e (fst (f a)) (snd (f a)))
         (fun p => Next (set_state (fst p) START_LINE, snd p))))
    (bind_flow m (fun a =>
       bind_flow (END_LINE h (-1) (fst (f a)) (snd (f a)))
         (fun p => Next (set_state (fst p) START_LINE, snd p)))).
Proof.
  apply same_or_limit_after. intros a.
  apply (same_or_limit_then _ _ (fun s => set_state s START_LINE)).
  - reflexivity.
  - apply END_LINE_limit.
Qed.








Lemma firstn_length_app {A : Type} (l1 l2 : list A) :
  firstn (length l1) (l1 ++ l2) = l1.
Proof.
  induction l1 as [|a l1 IH]; simpl; [destruct l2; reflexivity|].
  rewrite IH. reflexivity.
Qed.



(** ** The loop comes to an end *)

Lemma PUSH_shape (s s' : tokenizer) (i : nat) (c : Z) :
  PUSH s i c = Some s' -> exists cs', s' = set_output_cols s cs'.
Proof.
  unfold PUSH. destruct (nth_error (output_cols s) i); [|discriminate].
  destruct (push_col _ _); [|discriminate].
  intros H; inversion H. eexists. reflexivity.
Qed.

Lemma END_FIELD_shape (hd : bool) (s s' : tokenizer) (i i' : nat) :
  END_FIELD hd s i = Some (s', i') -> exists cs', s' = set_output_cols s cs'.
Proof.
  unfold END_FIELD. destruct (nth_error (output_cols s) i); [|discriminate].
  destruct (end_field_col _ _); [|discriminate].
  intros H; inversion H. eexists. reflexivity.
Qed.

Lemma fill_cols_shape (n : nat) :
  forall s i s' i',
    fill_cols n s i = Some (s', i') -> exists cs', s' = set_output_cols s cs'.
Proof.
  induction n as [|n IH]; intros s i s' i' H; simpl in H.
  - inversion H; subst. exists (output_cols s'). destruct s'; reflexivity.
  - destruct (PUSH s i 1) as [s1|] eqn:H1; [|discriminate].
    destruct (END_FIELD false s1 i) as [[s2 i2]|] eqn:H2; [|discriminate].
    destruct (PUSH_shape _ _ _ _ H1) as [cs1 ->].
    destruct (END_FIELD_shape _ _ _ _ _ H2) as [cs2 ->].
    destruct (IH _ _ _ _ H) as [cs3 ->]. exists cs3. reflexivity.
Qed.

Lemma push_range_shape (n : nat) (i : nat) :
  forall s p s',
    push_range n s i p = Some s' -> exists cs', s' = set_output_cols s cs'.
Proof.
  induction n as [|n IH]; intros s p s' H; simpl in H.
  - inversion H; subst. exists (output_cols s'). destruct s'; reflexivity.
  - destruct (source_at s p); [|discriminate].
    destruct (PUSH s i z) as [s1|] eqn:H1; [|discriminate].
    destruct (PUSH_shape _ _ _ _ H1) as [cs1 ->].
    destruct (IH _ _ _ H) as [cs2 ->]. exists cs2. reflexivity.
Qed.

(** What END_FIELD and END_LINE leave of the control state. *)
Lemma end_field_ctl (hd : bool) (s : tokenizer) (l : locals)
    (R : err_code -> tokenizer -> Prop) :
  flow_sat
    (fun p => exists cs' k,
         fst p = set_output_cols s cs' /\ snd p = set_col_idx l k)
    R (end_field hd s l).
Proof.
  unfold end_field.
  destruct (END_FIELD hd s (col l)) as [[s1 c1]|] eqn:H; simpl; auto.
  destruct (END_FIELD_shape _ _ _ _ _ H) as [cs' ->]. eauto.
Qed.

Lemma END_LINE_ctl (hd : bool) (e : Z) (s : tokenizer) (l : locals) :
  flow_sat
    (fun p => exists cs' k,
         fst p = set_num_rows (set_output_cols s cs') (num_rows s + 1)
         /\ snd p = set_old_state (set_col_idx l k) START_LINE)
    (fun _ _ => True) (END_LINE hd e s l).
Proof.
  unfold END_LINE, RETURN. destruct hd; simpl; auto.
  destruct (fill_extra_cols s).
  - destruct (fill_cols (num_cols s - col l) s (col l)) as [[s1 c1]|] eqn:H;
      simpl; auto.
    destruct (fill_cols_shape _ _ _ _ _ H) as [cs' ->]. simpl.
    destruct (negb (e =? -1) && (num_rows s + 1 =? e)); simpl; eauto.
  - destruct (col l <? num_cols s)%nat; simpl; auto.
    destruct (negb (e =? -1) && (num_rows s + 1 =? e)); simpl; auto.
    exists (output_cols s), (col l). split; [destruct s|destruct l]; reflexivity.
Qed.

Ltac ctl_leaf :=
  unfold ctl_post; simpl;
  repeat split;
    solve [ assumption | reflexivity | discriminate | congruence
          | intros; bool_facts; congruence ].

Lemma after_line_ctl (hd : bool) (e : Z) (s : tokenizer) (l : locals) (c : Z)
    (m : flow (tokenizer * locals)) :
  parse_newline l = false ->
  flow_sat
    (fun p => exists cs' k,
         fst p = set_source_pos (set_output_cols s cs') (source_pos s)
         /\ snd p = set_col_idx l k)
    (fun _ _ => True) m ->
  flow_sat (ctl_post s c) (fun _ _ => True)
    (bind_flow m (fun x => let '(self1, l1) := x in
       bind_flow (END_LINE hd e self1 l1) (fun y => let '(self2, l2) := y in
         Next (set_state self2 START_LINE, l2)))).
Proof.
  intros Hpn Hm. eapply flow_sat_bind; [exact Hm|].
  intros [s1 l1] (cs' & k & Hs1 & Hl1). simpl in Hs1, Hl1. subst s1 l1.
  eapply flow_sat_bind; [apply END_LINE_ctl|].
  intros [s2 l2] (cs2 & k2 & Hs2 & Hl2). simpl in Hs2, Hl2. subst s2 l2.
  simpl. ctl_leaf.
Qed.

Lemma case_QUOTED_FIELD_ctl (c : Z) (s : tokenizer) (l : locals) :
  state s <> CARRIAGE_RETURN -> old_state l <> CARRIAGE_RETURN ->
  parse_newline l = false ->
  flow_sat (ctl_post s c) (fun _ _ => True) (case_QUOTED_FIELD c s l).
Proof.
  intros Hst Hold Hpn. unfold case_QUOTED_FIELD, HANDLE_CR.
  destruct (c =? quotechar s); [simpl; ctl_leaf|].
  destruct (c =? NL); [simpl; ctl_leaf|].
  destruct (c =? CR) eqn:B; [simpl; ctl_leaf|].
  destruct (PUSH s (col l) c) as [s1|] eqn:H; simpl; auto.
  destruct (PUSH_shape _ _ _ _ H) as [cs' ->]. ctl_leaf.
Qed.

Lemma case_QUOTED_FIELD_NEWLINE_ctl (c : Z) (s : tokenizer) (l : locals) :
  state s <> CARRIAGE_RETURN -> old_state l <> CARRIAGE_RETURN ->
  parse_newline l = false ->
  flow_sat (ctl_post s c) (fun _ _ => True) (case_QUOTED_FIELD_NEWLINE c s l).
Proof.
  intros Hst Hold Hpn. unfold case_QUOTED_FIELD_NEWLINE, HANDLE_CR.
  destruct (state_eqb (state s) QUOTED_FIELD);
    [apply case_QUOTED_FIELD_ctl; assumption|].
  destruct ((is_blank c && strip_whitespace_lines s) || (c =? NL));
    [simpl; ctl_leaf|].
  destruct (c =? CR) eqn:B; [simpl; ctl_leaf|].
  destruct (c =? quotechar s); [simpl; ctl_leaf|].
  apply (case_QUOTED_FIELD_ctl c (set_state s QUOTED_FIELD) l);
    [discriminate|assumption|assumption].
Qed.

Lemma case_START_QUOTED_FIELD_ctl (hd : bool) (c : Z) (s : tokenizer)
    (l : locals) :
  state s <> CARRIAGE_RETURN -> old_state l <> CARRIAGE_RETURN ->
  parse_newline l = false ->
  flow_sat (ctl_post s c) (fun _ _ => True) (case_START_QUOTED_FIELD hd c s l).
Proof.
  intros Hst Hold Hpn. unfold case_START_QUOTED_FIELD.
  destruct (is_blank c && strip_whitespace_fields s); [simpl; ctl_leaf|].
  destruct (c =? quotechar s).
  - eapply flow_sat_weaken;
      [apply (end_field_ctl _ _ _ (fun _ _ => True))| |auto].
    intros [s1 l1] (cs' & k & Hs1 & Hl1). simpl in Hs1, Hl1. subst s1 l1.
    ctl_leaf.
  - apply (case_QUOTED_FIELD_NEWLINE_ctl c (set_state s QUOTED_FIELD) l);
      [discriminate|assumption|assumption].
Qed.

Lemma begin_field_ctl (hd : bool) (s : tokenizer) (l : locals) (c : Z) :
  old_state l <> CARRIAGE_RETURN -> parse_newline l = false ->
  flow_sat (ctl_post s c) (fun _ _ => True)
    (bind_flow (end_field hd s l)
       (fun x => let '(self1, l1) := x in Next (BEGIN_FIELD self1 l1))).
Proof.
  intros Hold Hpn. eapply flow_sat_bind; [apply end_field_ctl|].
  intros [s1 l1] (cs' & k & Hs1 & Hl1). simpl in Hs1, Hl1. subst s1 l1.
  unfold BEGIN_FIELD. simpl. ctl_leaf.
Qed.

Lemma case_FIELD_ctl (hd : bool) (e : Z) (c : Z) (s : tokenizer) (l : locals) :
  state s <> CARRIAGE_RETURN -> old_state l <> CARRIAGE_RETURN ->
  parse_newline l = false ->
  flow_sat (ctl_post s c) (fun _ _ => True) (case_FIELD hd e c s l).
Proof.
  intros Hst Hold Hpn. unfold case_FIELD, HANDLE_CR.
  destruct (negb (comment s =? 0) && (c =? comment s) && whitespace l
            && (col l =? 0)%nat); [simpl; ctl_leaf|].
  destruct (c =? delimiter s); [apply begin_field_ctl; assumption|].
  destruct (c =? CR) eqn:B; [simpl; ctl_leaf|].
  destruct (c =? NL).
  - apply (after_line_ctl hd e s l c (end_field hd s l)); [assumption|].
    eapply flow_sat_weaken;
      [apply (end_field_ctl _ _ _ (fun _ _ => True))| |auto].
    intros [s1 l1] (cs' & k & Hs1 & Hl1). simpl in Hs1, Hl1. subst s1 l1.
    exists cs', k. split; [destruct s|]; reflexivity.
  - set (l1 := if negb (c =? SPACE) && negb (c =? TAB)
               then set_whitespace l false else l).
    assert (Hl1 : old_state l1 = old_state l /\ parse_newline l1 = parse_newline l)
      by (subst l1; destruct (negb _ && negb _); split; reflexivity).
    destruct Hl1 as [Ho Hp].
    destruct (PUSH s (col l1) c) as [s1|] eqn:H; simpl; auto.
    destruct (PUSH_shape _ _ _ _ H) as [cs' ->].
    unfold ctl_post. simpl. rewrite Ho, Hp.
    repeat split; solve [assumption | intros; congruence].
Qed.

Lemma start_field_newline_ctl (hd : bool) (s : tokenizer) (l : locals) :
  flow_sat
    (fun p => exists cs' k,
         fst p = set_source_pos (set_output_cols s cs') (source_pos s)
         /\ snd p = set_col_idx l k)
    (fun _ _ => True) (start_field_newline hd s l).
Proof.
  unfold start_field_newline.
  assert (Hs : s = set_source_pos (set_output_cols s (output_cols s)) (source_pos s))
    by (destruct s; reflexivity).
  assert (Hl : l = set_col_idx l (col l)) by (destruct l; reflexivity).
  assert (Hfield : forall cs1,
             flow_sat
               (fun p => exists cs' k,
                    fst p = set_source_pos (set_output_cols s cs') (source_pos s)
                    /\ snd p = set_col_idx l k)
               (fun _ _ => True)
               (end_field hd
                  (set_source_pos (set_output_cols s cs1) (source_pos s)) l)).
  { intros cs1. eapply flow_sat_weaken;
      [apply (end_field_ctl _ _ _ (fun _ _ => True))| |auto].
    intros [s1 l1] (cs' & k & Hs1 & Hl1). simpl in Hs1, Hl1. subst s1 l1.
    exists cs', k. split; reflexivity. }
  destruct (strip_whitespace_lines s).
  - destruct ((delimiter s =? SPACE) || (delimiter s =? TAB)).
    + simpl. exists (output_cols s), (col l). auto.
    + rewrite Hs at 1. apply Hfield.
  - destruct (if backtrack s (Z.to_nat (source_pos s)) =? -1 then _ else _)
      as [[|]|]; simpl; auto.
    + exists (output_cols s), (col l). split; [destruct s; reflexivity|exact Hl].
    + destruct (push_range _ s (col l) _) as [s1|] eqn:HP; simpl; auto.
      destruct (push_range_shape _ _ _ _ _ HP) as [cs1 ->]. apply Hfield.
Qed.

Lemma case_START_FIELD_ctl (hd : bool) (e : Z) (c : Z) (s : tokenizer)
    (l : locals) :
  state s <> CARRIAGE_RETURN -> old_state l <> CARRIAGE_RETURN ->
  parse_newline l = false ->
  flow_sat (ctl_post s c) (fun _ _ => True) (case_START_FIELD hd e c s l).
Proof.
  intros Hst Hold Hpn. unfold case_START_FIELD, HANDLE_CR, RETURN.
  destruct (is_blank c && strip_whitespace_fields s); [simpl; ctl_leaf|].
  destruct (negb (strip_whitespace_lines s) && negb (comment s =? 0)
            && (c =? comment s)); [simpl; ctl_leaf|].
  destruct (c =? delimiter s); [apply begin_field_ctl; assumption|].
  destruct (c =? CR) eqn:B; [simpl; ctl_leaf|].
  destruct (c =? NL).
  - apply (after_line_ctl hd e s l c (start_field_newline hd s l));
      [assumption|]. apply start_field_newline_ctl.
  - destruct (c =? quotechar s); [simpl; ctl_leaf|].
    destruct (num_cols s <=? col l)%nat; [simpl; auto|].
    apply (case_FIELD_ctl hd e c (set_state s FIELD) l);
      [discriminate|assumption|assumption].
Qed.

Lemma case_START_LINE_ctl (hd : bool) (e : Z) (c : Z) (s : tokenizer)
    (l : locals) :
  state s <> CARRIAGE_RETURN -> old_state l <> CARRIAGE_RETURN ->
  parse_newline l = false ->
  flow_sat (ctl_post s c) (fun _ _ => True) (case_START_LINE hd e c s l).
Proof.
  intros Hst Hold Hpn. unfold case_START_LINE, HANDLE_CR.
  destruct (c =? NL); [simpl; ctl_leaf|].
  destruct (c =? CR) eqn:B; [simpl; ctl_leaf|].
  destruct (is_blank c && strip_whitespace_lines s); [simpl; ctl_leaf|].
  destruct (negb (comment s =? 0) && (c =? comment s)); [simpl; ctl_leaf|].
  unfold BEGIN_FIELD.
  apply (case_START_FIELD_ctl hd e c (set_state s START_FIELD)
           (set_whitespace (set_col_idx l 0) true));
    [discriminate|assumption|assumption].
Qed.

Lemma case_COMMENT_ctl (c : Z) (s : tokenizer) (l : locals) :
  state s <> CARRIAGE_RETURN -> old_state l <> CARRIAGE_RETURN ->
  parse_newline l = false ->
  flow_sat (ctl_post s c) (fun _ _ => True) (case_COMMENT c s l).
Proof.
  intros Hst Hold Hpn. unfold case_COMMENT, HANDLE_CR.
  destruct (c =? NL); [simpl; ctl_leaf|].
  destruct (c =? CR) eqn:B; simpl; ctl_leaf.
Qed.

Opaque Z.mul Nat.mul.

(** One iteration brings the measure down. *)
Lemma step_measure (h : bool) (e : Z) (s : tokenizer) (l : locals) :
  ctl_inv s l ->
  source_pos s < source_len s + 1 ->
  flow_sat
    (fun p => ctl_inv (fst p) (snd p)
              /\ loop_measure (fst p) (snd p) < loop_measure s l)
    (fun _ _ => True) (step h e s l).
Proof.
  intros [Hold Hpn] Hlt. unfold step.
  destruct (current_char s l) as [c|] eqn:Hc; simpl; auto.
  assert (HcNL : parse_newline l = true -> c = NL).
  { intros Hp. unfold current_char in Hc. rewrite Hp, orb_true_r in Hc.
    inversion Hc. reflexivity. }
  set (l0 := set_parse_newline l false).
  assert (Hfin : forall s1 l1,
             state s <> CARRIAGE_RETURN ->
             ctl_post s c (s1, l1) ->
             ctl_inv (set_source_pos s1 (source_pos s1 + 1)) l1
             /\ loop_measure (set_source_pos s1 (source_pos s1 + 1)) l1
                < loop_measure s l).
  { intros s1 l1 Hst (Hp1 & Hsrc & Hold1 & Hpn1 & Hcr). simpl in *.
    split; [split; [assumption|rewrite Hpn1; discriminate]|].
    unfold loop_measure, source_len. simpl. rewrite Hp1, Hsrc, Hpn1.
    unfold state_eqb at 2.
    destruct (state_eq_dec (state s) CARRIAGE_RETURN); [contradiction|].
    destruct (parse_newline l) eqn:El.
    - unfold state_eqb. destruct (state_eq_dec (state s1) CARRIAGE_RETURN) as [E|E].
      + specialize (Hcr E). specialize (HcNL eq_refl). subst c. discriminate.
      + lia.
    - unfold state_eqb. destruct (state_eq_dec (state s1) CARRIAGE_RETURN); lia. }
  destruct (state s) eqn:Est.
  - eapply flow_sat_bind;
      [apply case_START_LINE_ctl; [rewrite Est; discriminate|assumption|reflexivity]|].
    intros [s1 l1] Hp. simpl. apply Hfin; [discriminate|exact Hp].
  - eapply flow_sat_bind;
      [apply case_START_FIELD_ctl; [rewrite Est; discriminate|assumption|reflexivity]|].
    intros [s1 l1] Hp. simpl. apply Hfin; [discriminate|exact Hp].
  - eapply flow_sat_bind;
      [apply case_START_QUOTED_FIELD_ctl;
       [rewrite Est; discriminate|assumption|reflexivity]|].
    intros [s1 l1] Hp. simpl. apply Hfin; [discriminate|exact Hp].
  - eapply flow_sat_bind;
      [apply case_FIELD_ctl; [rewrite Est; discriminate|assumption|reflexivity]|].
    intros [s1 l1] Hp. simpl. apply Hfin; [discriminate|exact Hp].
  - eapply flow_sat_bind;
      [apply case_QUOTED_FIELD_ctl;
       [rewrite Est; discriminate|assumption|reflexivity]|].
    intros [s1 l1] Hp. simpl. apply Hfin; [discriminate|exact Hp].
  - eapply flow_sat_bind;
      [apply case_QUOTED_FIELD_NEWLINE_ctl;
       [rewrite Est; discriminate|assumption|reflexivity]|].
    intros [s1 l1] Hp. simpl. apply Hfin; [discriminate|exact Hp].
  - eapply flow_sat_bind;
      [apply case_COMMENT_ctl; [rewrite Est; discriminate|assumption|reflexivity]|].
    intros [s1 l1] Hp. simpl. apply Hfin; [discriminate|exact Hp].
  - (* the carriage return state *)
    clear Hfin. unfold case_CARRIAGE_RETURN.
    assert (Hpn0 : parse_newline l = false).
    { destruct (parse_newline l); [exfalso; apply Hpn; reflexivity|reflexivity]. }
    destruct (c =? NL); simpl.
    + split; [split; [exact Hold|intros _; exact Hold]|].
      unfold loop_measure, source_len. simpl. rewrite Hpn0, Est.
      unfold state_eqb. simpl.
      destruct (state_eq_dec (old_state l) CARRIAGE_RETURN); [contradiction|lia].
    + split; [split; [exact Hold|intros _; exact Hold]|].
      unfold loop_measure, source_len. simpl. rewrite Hpn0, Est.
      unfold state_eqb. simpl.
      destruct (state_eq_dec (old_state l) CARRIAGE_RETURN); [contradiction|lia].
Qed.

Lemma tokenize_loop_terminates (h : bool) (e : Z) (fuel : nat) :
  forall s l,
    ctl_inv s l ->
    loop_measure s l <= Z.of_nat fuel ->
    tokenize_loop fuel h e s l <> OutOfFuel.
Proof.
  induction fuel as [|fuel IH]; intros s l Hinv Hm; simpl.
  - destruct (Z.ltb_spec (source_pos s) (source_len s + 1)); [|discriminate].
    exfalso. unfold loop_measure in Hm.
    destruct (parse_newline l); [|destruct (state_eqb _ _)]; lia.
  - destruct (Z.ltb_spec (source_pos s) (source_len s + 1)); [|discriminate].
    pose proof (step_measure h e s l Hinv H) as Hs.
    destruct (step h e s l) as [[s1 l1]|c s1|]; simpl in Hs; try discriminate.
    destruct Hs as [Hinv1 Hlt]. apply IH; [exact Hinv1|lia].
Qed.

Transparent Z.mul Nat.mul.

(** ** What [tokenize] returns *)

Lemma END_FIELD_col (hd : bool) (s s' : tokenizer) (i i' : nat) :
  END_FIELD hd s i = Some (s', i') ->
  (exists cs', s' = set_output_cols s cs') /\ i' = (if hd then i else S i).
Proof.
  intros H. split; [eapply END_FIELD_shape; eauto|].
  unfold END_FIELD in H. destruct (nth_error (output_cols s) i); [|discriminate].
  destruct (end_field_col _ _); [|discriminate].
  inversion H. reflexivity.
Qed.

Lemma end_field_ret (h : bool) (e : Z) (s : tokenizer) (l : locals) :
  ret_inv h e s l ->
  flow_sat
    (fun p => ret_inv h e (fst p) (snd p)
              /\ exists cs', fst p = set_output_cols s cs')
    (ret_post h e) (end_field h s l).
Proof.
  intros (Hh & H0 & He). unfold end_field.
  destruct (END_FIELD h s (col l)) as [[s1 c1]|] eqn:H; simpl; auto.
  destruct (END_FIELD_col _ _ _ _ _ H) as [[cs' ->] ->].
  split; [|eauto]. unfold ret_inv. simpl. split; [|auto].
  intros ->. apply Hh. reflexivity.
Qed.

Lemma END_LINE_ret (h : bool) (e : Z) (s : tokenizer) (l : locals) :
  ret_inv h e s l ->
  flow_sat (fun p => ret_inv h e (fst p) (snd p)) (ret_post h e)
    (END_LINE h e s l).
Proof.
  intros (Hh & H0 & He). unfold END_LINE, RETURN.
  destruct h.
  { simpl. unfold ret_post. simpl. split; [reflexivity|].
    split; [auto|]. split; [assumption|]. split; [intros; specialize (He H); lia|auto]. }
  assert (Hrows : forall s1 c1,
             num_rows s1 = num_rows s ->
             flow_sat (fun p => ret_inv false e (fst p) (snd p)) (ret_post false e)
               (let self2 := set_num_rows s1 (num_rows s1 + 1) in
                let l2 := set_old_state (set_col_idx l c1) START_LINE in
                if negb (e =? -1) && (num_rows self2 =? e)
                then RETURN (set_source_pos self2 (source_pos self2 + 1)) NO_ERROR
                else Next (self2, l2))).
  { intros s1 c1 Hr. simpl.
    destruct (negb (e =? -1) && (num_rows s1 + 1 =? e)) eqn:B; simpl.
    - bool_facts. unfold ret_post. simpl.
      split; [reflexivity|]. split; [auto|]. split; [lia|].
      split; [intros; lia|]. intros _. right. left. assumption.
    - unfold ret_inv. simpl. split; [discriminate|]. split; [lia|].
      intros Hpos. specialize (He Hpos).
      assert (num_rows s1 + 1 <> e).
      { apply andb_false_iff in B. destruct B as [B|B]; bool_facts; lia. }
      lia. }
  destruct (fill_extra_cols s) eqn:Hfill.
  - destruct (fill_cols (num_cols s - col l) s (col l)) as [[s1 c1]|] eqn:H;
      simpl; auto.
    destruct (fill_cols_shape _ _ _ _ _ H) as [cs' ->].
    apply (Hrows (set_output_cols s cs') c1). reflexivity.
  - destruct (col l <? num_cols s)%nat; simpl.
    + unfold ret_post. simpl. split; [reflexivity|].
      split; [right; right; auto|]. split; [assumption|].
      split; [intros Hp; specialize (He Hp); lia|discriminate].
    + apply (Hrows s (col l)). reflexivity.
Qed.

Ltac ret_leaf :=
  simpl; unfold ret_inv in *; simpl; tauto.

Lemma case_QUOTED_FIELD_ret (h : bool) (e : Z) (c : Z) (s : tokenizer)
    (l : locals) :
  ret_inv h e s l ->
  flow_sat (fun p => ret_inv h e (fst p) (snd p)) (ret_post h e)
    (case_QUOTED_FIELD c s l).
Proof.
  intros Hinv. unfold case_QUOTED_FIELD, HANDLE_CR.
  destruct (c =? quotechar s); [ret_leaf|].
  destruct (c =? NL); [ret_leaf|].
  destruct (c =? CR); [ret_leaf|].
  destruct (PUSH s (col l) c) as [s1|] eqn:H; simpl; auto.
  destruct (PUSH_shape _ _ _ _ H) as [cs' ->]. ret_leaf.
Qed.

Lemma case_QUOTED_FIELD_NEWLINE_ret (h : bool) (e : Z) (c : Z) (s : tokenizer)
    (l : locals) :
  ret_inv h e s l ->
  flow_sat (fun p => ret_inv h e (fst p) (snd p)) (ret_post h e)
    (case_QUOTED_FIELD_NEWLINE c s l).
Proof.
  intros Hinv. unfold case_QUOTED_FIELD_NEWLINE, HANDLE_CR.
  destruct (state_eqb (state s) QUOTED_FIELD);
    [apply case_QUOTED_FIELD_ret; assumption|].
  destruct ((is_blank c && strip_whitespace_lines s) || (c =? NL)); [ret_leaf|].
  destruct (c =? CR); [ret_leaf|].
  destruct (c =? quotechar s); [ret_leaf|].
  apply (case_QUOTED_FIELD_ret h e c (set_state s QUOTED_FIELD) l). exact Hinv.
Qed.

Lemma case_START_QUOTED_FIELD_ret (h : bool) (e : Z) (c : Z) (s : tokenizer)
    (l : locals) :
  ret_inv h e s l ->
  flow_sat (fun p => ret_inv h e (fst p) (snd p)) (ret_post h e)
    (case_START_QUOTED_FIELD h c s l).
Proof.
  intros Hinv. unfold case_START_QUOTED_FIELD.
  destruct (is_blank c && strip_whitespace_fields s); [ret_leaf|].
  destruct (c =? quotechar s).
  - eapply flow_sat_weaken; [apply end_field_ret; exact Hinv| |auto].
    intros p [Hp _]. exact Hp.
  - apply (case_QUOTED_FIELD_NEWLINE_ret h e c (set_state s QUOTED_FIELD) l).
    exact Hinv.
Qed.

Lemma begin_field_ret (h : bool) (e : Z) (s : tokenizer) (l : locals) :
  ret_inv h e s l ->
  flow_sat (fun p => ret_inv h e (fst p) (snd p)) (ret_post h e)
    (bind_flow (end_field h s l)
       (fun x => let '(self1, l1) := x in Next (BEGIN_FIELD self1 l1))).
Proof.
  intros Hinv. eapply flow_sat_bind; [apply end_field_ret; exact Hinv|].
  intros [s1 l1] [Hp _]. unfold BEGIN_FIELD. ret_leaf.
Qed.

Lemma after_line_ret (h : bool) (e : Z) (m : flow (tokenizer * locals)) :
  flow_sat (fun p => ret_inv h e (fst p) (snd p)) (ret_post h e) m ->
  flow_sat (fun p => ret_inv h e (fst p) (snd p)) (ret_post h e)
    (bind_flow m (fun x => let '(self1, l1) := x in
       bind_flow (END_LINE h e self1 l1) (fun y => let '(self2, l2) := y in
         Next (set_state self2 START_LINE, l2)))).
Proof.
  intros Hm. eapply flow_sat_bind; [exact Hm|].
  intros [s1 l1] H1. simpl in H1.
  eapply flow_sat_bind; [apply END_LINE_ret; exact H1|].
  intros [s2 l2] H2. ret_leaf.
Qed.

Lemma case_FIELD_ret (h : bool) (e : Z) (c : Z) (s : tokenizer) (l : locals) :
  ret_inv h e s l ->
  flow_sat (fun p => ret_inv h e (fst p) (snd p)) (ret_post h e)
    (case_FIELD h e c s l).
Proof.
  intros Hinv. unfold case_FIELD, HANDLE_CR.
  destruct (negb (comment s =? 0) && (c =? comment s) && whitespace l
            && (col l =? 0)%nat); [ret_leaf|].
  destruct (c =? delimiter s); [apply begin_field_ret; assumption|].
  destruct (c =? CR); [ret_leaf|].
  destruct (c =? NL).
  - apply (after_line_ret h e (end_field h s l)).
    eapply flow_sat_weaken; [apply end_field_ret; exact Hinv| |auto].
    intros p [Hp _]. exact Hp.
  - set (l1 := if negb (c =? SPACE) && negb (c =? TAB)
               then set_whitespace l false else l).
    assert (Hl1 : col l1 = col l)
      by (subst l1; destruct (negb _ && negb _); reflexivity).
    destruct (PUSH s (col l1) c) as [s1|] eqn:H; simpl; auto.
    destruct (PUSH_shape _ _ _ _ H) as [cs' ->].
    unfold ret_inv in *. simpl. rewrite Hl1. exact Hinv.
Qed.

Lemma start_field_newline_ret (h : bool) (e : Z) (s : tokenizer) (l : locals) :
  ret_inv h e s l ->
  flow_sat (fun p => ret_inv h e (fst p) (snd p)) (ret_post h e)
    (start_field_newline h s l).
Proof.
  intros Hinv. unfold start_field_newline.
  assert (Hfield : forall s1,
             ret_inv h e s1 l ->
             flow_sat (fun p => ret_inv h e (fst p) (snd p)) (ret_post h e)
               (end_field h s1 l)).
  { intros s1 H1. eapply flow_sat_weaken; [apply end_field_ret; exact H1| |auto].
    intros p [Hp _]. exact Hp. }
  destruct (strip_whitespace_lines s).
  - destruct ((delimiter s =? SPACE) || (delimiter s =? TAB)); [ret_leaf|].
    apply Hfield. exact Hinv.
  - destruct (if backtrack s (Z.to_nat (source_pos s)) =? -1 then _ else _)
      as [[|]|]; simpl; auto.
    destruct (push_range _ s (col l) _) as [s1|] eqn:HP; simpl; auto.
    destruct (push_range_shape _ _ _ _ _ HP) as [cs1 ->].
    apply Hfield. exact Hinv.
Qed.

Lemma case_START_FIELD_ret (h : bool) (e : Z) (c : Z) (s : tokenizer)
    (l : locals) :
  ret_inv h e s l ->
  flow_sat (fun p => ret_inv h e (fst p) (snd p)) (ret_post h e)
    (case_START_FIELD h e c s l).
Proof.
  intros Hinv. unfold case_START_FIELD, HANDLE_CR, RETURN.
  destruct (is_blank c && strip_whitespace_fields s); [ret_leaf|].
  destruct (negb (strip_whitespace_lines s) && negb (comment s =? 0)
            && (c =? comment s)); [ret_leaf|].
  destruct (c =? delimiter s); [apply begin_field_ret; assumption|].
  destruct (c =? CR); [ret_leaf|].
  destruct (c =? NL).
  - apply (after_line_ret h e (start_field_newline h s l)).
    apply start_field_newline_ret. exact Hinv.
  - destruct (c =? quotechar s); [ret_leaf|].
    destruct (num_cols s <=? col l)%nat eqn:B.
    + simpl. destruct Hinv as (Hh & H0 & He). bool_facts.
      unfold ret_post. simpl. split; [reflexivity|].
      split.
      * right. left. split; [reflexivity|].
        destruct h; [|reflexivity]. destruct (Hh eq_refl). lia.
      * split; [assumption|]. split; [|discriminate].
        intros Hp. specialize (He Hp). lia.
    + apply (case_FIELD_ret h e c (set_state s FIELD) l). exact Hinv.
Qed.

Lemma case_START_LINE_ret (h : bool) (e : Z) (c : Z) (s : tokenizer)
    (l : locals) :
  ret_inv h e s l ->
  flow_sat (fun p => ret_inv h e (fst p) (snd p)) (ret_post h e)
    (case_START_LINE h e c s l).
Proof.
  intros Hinv. unfold case_START_LINE, HANDLE_CR.
  destruct (c =? NL); [ret_leaf|].
  destruct (c =? CR); [ret_leaf|].
  destruct (is_blank c && strip_whitespace_lines s); [ret_leaf|].
  destruct (negb (comment s =? 0) && (c =? comment s)); [ret_leaf|].
  unfold BEGIN_FIELD.
  apply (case_START_FIELD_ret h e c (set_state s START_FIELD)
           (set_whitespace (set_col_idx l 0) true)).
  unfold ret_inv in *. simpl. tauto.
Qed.

Lemma step_ret (h : bool) (e : Z) (s : tokenizer) (l : locals) :
  ret_inv h e s l ->
  flow_sat (fun p => ret_inv h e (fst p) (snd p)) (ret_post h e) (step h e s l).
Proof.
  intros Hinv. unfold step.
  destruct (current_char s l) as [c|]; simpl; auto.
  assert (H0 : ret_inv h e s (set_parse_newline l false)) by exact Hinv.
  eapply flow_sat_bind with (P' := fun p => ret_inv h e (fst p) (snd p)).
  - destruct (state s).
    + apply case_START_LINE_ret; exact H0.
    + apply case_START_FIELD_ret; exact H0.
    + apply case_START_QUOTED_FIELD_ret; exact H0.
    + apply case_FIELD_ret; exact H0.
    + apply case_QUOTED_FIELD_ret; exact H0.
    + apply case_QUOTED_FIELD_NEWLINE_ret; exact H0.
    + unfold case_COMMENT, HANDLE_CR.
      destruct (c =? NL); [ret_leaf|]. destruct (c =? CR); ret_leaf.
    + unfold case_CARRIAGE_RETURN. destruct (negb (c =? NL)); ret_leaf.
  - intros [s1 l1] H1. ret_leaf.
Qed.

Lemma tokenize_ret (ics : nat) (self : tokenizer) (end_ : Z) (header : bool)
    (ncols : nat) :
  outcome_sat (ret_post header end_) (tokenize ics self end_ header ncols).
Proof.
  unfold tokenize. destruct (end_ =? 0) eqn:E0.
  - bool_facts. subst end_. simpl. unfold ret_post. simpl.
    split; [reflexivity|]. split; [auto|]. split; [lia|].
    split; [intros; lia|]. auto.
  - apply tokenize_loop_sat with (Inv := ret_inv header end_).
    + intros s l Hinv _. apply step_ret. exact Hinv.
    + intros s l (Hh & H0 & He) Hge. unfold ret_post. simpl.
      split; [reflexivity|]. split; [auto|]. split; [assumption|].
      split; [intros Hp; specialize (He Hp); lia|]. intros _. right. right.
      exact Hge.
    + bool_facts. unfold ret_inv. simpl. split; [|split; [lia|lia]].
      intros ->. simpl. split; [reflexivity|lia].
Qed.

(** Whatever [tokenize] returns is stored in [code], and it is NO_ERROR,
    TOO_MANY_COLS or NOT_ENOUGH_COLS: the other codes are never set by
    [tokenize]. *)
Theorem tokenize_code_stored (ics : nat) (self : tokenizer) (end_ : Z)
    (header : bool) (ncols : nat) :
  outcome_sat
    (fun c s' =>
       code s' = c
       /\ (c = NO_ERROR \/ c = TOO_MANY_COLS \/ c = NOT_ENOUGH_COLS))
    (tokenize ics self end_ header ncols).
Proof.
  pose proof (tokenize_ret ics self end_ header ncols) as H.
  destruct (tokenize ics self end_ header ncols); simpl in *; auto.
  destruct H as (Hc & Hk & _). split; [exact Hc|]. tauto.
Qed.

(** In header mode [tokenize] never returns an error: the bound on columns
    cannot be reached, since [col] stays 0 and [num_cols] is 1, and END_LINE
    leaves at the first line end. *)
Theorem tokenize_header_no_error (ics : nat) (self : tokenizer) (end_ : Z)
    (ncols : nat) :
  outcome_sat (fun c _ => c = NO_ERROR) (tokenize ics self end_ true ncols).
Proof.
  pose proof (tokenize_ret ics self end_ true ncols) as H.
  destruct (tokenize ics self end_ true ncols); simpl in *; auto.
  destruct H as (_ & [Hk|[[_ Hk]|[_ [Hk _]]]] & _);
    [exact Hk|discriminate Hk|discriminate Hk].
Qed.

(** With [fill_extra_cols] set, [tokenize] never returns NOT_ENOUGH_COLS. *)
Theorem tokenize_fill_never_short (ics : nat) (self : tokenizer) (end_ : Z)
    (header : bool) (ncols : nat) :
  fill_extra_cols self = true ->
  outcome_sat (fun c _ => c <> NOT_ENOUGH_COLS)
    (tokenize ics self end_ header ncols).
Proof.
  intros Hfill.
  pose proof (tokenize_ret ics self end_ header ncols) as H.
  pose proof (tokenize_frame ics self end_ header ncols) as Hf.
  destruct (tokenize ics self end_ header ncols) as [c s'| |]; simpl in *; auto.
  destruct Hf as (Hcfg & _). unfold config_of in Hcfg. simpl in Hcfg.
  injection Hcfg as _ _ _ _ _ Hfl _ _ _ _ _ _ _.
  destruct H as (_ & [Hk|[[Hk _]|[_ [_ Hk]]]] & _); try congruence.
Qed.

Lemma tokenize_fill_never_short_witness :
  fill_extra_cols (set_source (csv true true true) short_second_row) = true
  /\ outcome_sat (fun c _ => c <> NOT_ENOUGH_COLS)
       (tokenize 50 (set_source (csv true true true) short_second_row)
          (-1) false 2).
Proof.
  split; [reflexivity|].
  apply (tokenize_fill_never_short 50
           (set_source (csv true true true) short_second_row) (-1) false 2).
  reflexivity.
Defined.

(** The row limit.  [num_rows] is never negative on return and never
    exceeds a positive [end]; and when [tokenize] returns NO_ERROR in data
    mode, either [num_rows] is [end] or the whole input has been read (the
    cursor is past the end of the input). *)
Theorem tokenize_row_limit (ics : nat) (self : tokenizer) (end_ : Z)
    (header : bool) (ncols : nat) :
  outcome_sat
    (fun c s' =>
       0 <= num_rows s'
       /\ (0 < end_ -> num_rows s' <= end_)
       /\ (c = NO_ERROR -> header = false ->
           num_rows s' = end_ \/ source_len self + 1 <= source_pos s'))
    (tokenize ics self end_ header ncols).
Proof.
  pose proof (tokenize_ret ics self end_ header ncols) as H.
  pose proof (tokenize_frame ics self end_ header ncols) as Hf.
  destruct (tokenize ics self end_ header ncols) as [c s'| |]; simpl in *; auto.
  destruct Hf as (Hcfg & _). unfold config_of in Hcfg. simpl in Hcfg.
  injection Hcfg as Hsrc _ _ _ _ _ _ _ _ _ _ _ _.
  destruct H as (_ & _ & H0 & He & Hok).
  split; [exact H0|]. split; [exact He|].
  intros Hc Hh. destruct (Hok Hc) as [Hk|[Hk|Hk]]; [congruence|auto|].
  right. unfold source_len in *. rewrite <- Hsrc. exact Hk.
Qed.

(** The loop of [tokenize] comes to an end for every input, configuration
    and cursor, carriage returns and the backward steps they cause
    included: [4 * (source_len + 1 - source_pos) + 6] iterations are never
    used up.  A call returns, unless it reaches an access outside its
    blocks. *)
Theorem tokenize_terminates (ics : nat) (self : tokenizer) (end_ : Z)
    (header : bool) (ncols : nat) :
  tokenize ics self end_ header ncols <> OutOfFuel.
Proof.
  unfold tokenize. destruct (end_ =? 0); [discriminate|].
  apply tokenize_loop_terminates.
  - split; simpl; discriminate.
  - unfold loop_measure, loop_fuel, init_locals, state_eqb.
    cbn [parse_newline state set_state].
    destruct (state_eq_dec START_LINE CARRIAGE_RETURN); [discriminate|].
    change (source_len (set_state ?a ?b)) with (source_len a).
    change (source_pos (set_state ?a ?b)) with (source_pos a).
    lia.
Qed.

(** ** Where [skip_lines] leaves the cursor *)

(** One round of the loop of [skip_lines] on the byte [c] at the cursor. *)
Lemma skip_iteration (fuel : nat) (self : tokenizer) (offset : Z)
    (header : bool) (sc : Z) (cm : bool) (i : Z) (c : Z) (tl : list Z) :
  0 <= source_pos self -> i < offset ->
  remaining self = c :: tl ->
  skip_lines_loop (S fuel) self offset header sc cm i
  = (if (c =? CR) || (c =? NL) then
       skip_lines_loop fuel
         (set_source_pos self
            (source_pos self
             + (if (c =? CR) && match tl with n :: _ => n =? NL | [] => false end
                then 2 else 1)))
         offset header 0 false
         (if negb cm && (0 <? sc) then i + 1 else i)
     else if kept self header c then
       skip_lines_loop fuel (set_source_pos self (source_pos self + 1))
         offset header (sc + 1)
         (if (sc =? 0) && negb (comment self =? 0) && (c =? comment self)
          then true else cm) i
     else
       skip_lines_loop fuel (set_source_pos self (source_pos self + 1))
         offset header sc cm i)
  /\ remaining (set_source_pos self (source_pos self + 1)) = tl
  /\ (forall n tl', tl = n :: tl' ->
        remaining (set_source_pos self (source_pos self + 2)) = tl').
Proof.
  intros Hpos Hi Hrem.
  assert (Hc : source_at self (source_pos self) = Some c).
  { unfold source_at. destruct (Z.ltb_spec (source_pos self) 0); [lia|].
    apply (skipn_cons_nth_error _ _ _ _ _ Hrem). }
  assert (Hrem1 : remaining (set_source_pos self (source_pos self + 1)) = tl).
  { unfold remaining in *. simpl.
    replace (Z.to_nat (source_pos self + 1)) with (S (Z.to_nat (source_pos self)))
      by lia.
    apply (skipn_cons_succ _ _ _ _ _ Hrem). }
  assert (Hrem2 : forall n tl', tl = n :: tl' ->
             remaining (set_source_pos self (source_pos self + 2)) = tl').
  { intros n tl' ->. unfold remaining in *. simpl in *.
    replace (Z.to_nat (source_pos self + 2))
      with (S (Z.to_nat (source_pos self + 1))) by lia.
    apply (skipn_cons_succ _ _ _ _ _ Hrem1). }
  split; [|split; assumption].
  pose proof (remaining_length self Hpos) as Hlen. rewrite Hrem in Hlen.
  cbn [length] in Hlen. rewrite Nat2Z.inj_succ in Hlen.
  simpl skip_lines_loop.
  destruct (Z.ltb_spec i offset); [|lia].
  destruct (Z.leb_spec (source_len self) (source_pos self)); [lia|].
  rewrite Hc.
  destruct ((c =? CR) || (c =? NL)) eqn:Hterm.
  - assert (Hcrlf :
      ((c =? CR) && (source_pos self <? source_len self - 1)
       && match source_at self (source_pos self + 1) with
          | Some b => b =? NL
          | None => false
          end)
      = ((c =? CR) && match tl with n :: _ => n =? NL | [] => false end)).
    { destruct (c =? CR); [|reflexivity]. simpl.
      pose proof (remaining_length (set_source_pos self (source_pos self + 1))
                    ltac:(simpl; lia)) as Hl1.
      rewrite Hrem1 in Hl1.
      change (source_len (set_source_pos self (source_pos self + 1)))
        with (source_len self) in Hl1.
      change (source_pos (set_source_pos self (source_pos self + 1)))
        with (source_pos self + 1) in Hl1.
      destruct tl as [|n tl'].
      - simpl in Hl1. destruct (Z.ltb_spec (source_pos self) (source_len self - 1));
          [lia|reflexivity].
      - cbn [length] in Hl1. rewrite Nat2Z.inj_succ in Hl1.
        destruct (Z.ltb_spec (source_pos self) (source_len self - 1)); [|lia].
        simpl. unfold source_at.
        destruct (Z.ltb_spec (source_pos self + 1) 0); [lia|].
        unfold remaining in Hrem1. simpl in Hrem1.
        rewrite (skipn_cons_nth_error _ _ _ _ _ Hrem1). reflexivity. }
    rewrite Hcrlf.
    destruct ((c =? CR) && match tl with n :: _ => n =? NL | [] => false end).
    + replace (source_pos self + 2) with (source_pos self + 1 + 1) by lia.
      reflexivity.
    + reflexivity.
  - unfold kept.
    destruct (negb (is_blank c) || negb (strip_whitespace_lines self) || header);
      reflexivity.
Qed.

Lemma drop_significant_cons (sig : list Z -> bool) (n : nat)
    (x : list Z) (ls : list (list Z)) :
  drop_significant sig (S n) (x :: ls)
  = drop_significant sig (if sig x then n else S n) ls.
Proof. simpl. destruct (sig x); reflexivity. Qed.

Lemma skip_lines_loop_effect (offset : Z) (header : bool) (fuel : nat) :
  forall (self : tokenizer) (cur : list Z) (i : Z),
    0 <= source_pos self ->
    (length (remaining self) < fuel)%nat ->
    i < offset \/ (i = offset /\ cur = []) ->
    exists c p',
      skip_lines_loop fuel self offset header
        (signif_chars_of self header cur) (comment_of self header cur) i
      = Done c (set_code (set_source_pos self p') c)
      /\ source_pos self <= p'
      /\ lines_from [] (remaining (set_source_pos self p'))
         = drop_significant (significant self header) (Z.to_nat (offset - i))
             (lines_from cur (remaining self)).
Proof.
  induction fuel as [|fuel IH]; intros self cur i Hpos Hfuel Hi; [lia|].
  destruct Hi as [Hi|[-> ->]].
  2:{ exists NO_ERROR, (source_pos self). simpl.
      destruct (Z.ltb_spec offset offset); [lia|].
      split; [destruct self; reflexivity|]. split; [lia|].
      replace (offset - offset) with 0 by lia.
      replace (remaining (set_source_pos self (source_pos self)))
        with (remaining self) by (destruct self; reflexivity).
      destruct (lines_from [] (remaining self)); reflexivity. }
  destruct (remaining self) as [|c tl] eqn:Hrem.
  - (* the input has ended *)
    pose proof (remaining_length self Hpos) as Hlen. rewrite Hrem in Hlen.
    simpl in Hlen. simpl.
    destruct (Z.ltb_spec i offset); [|lia].
    destruct (Z.leb_spec (source_len self) (source_pos self)); [|lia].
    exists (if header then INVALID_LINE else NO_ERROR), (source_pos self).
    replace (set_source_pos self (source_pos self)) with self
      by (destruct self; reflexivity).
    split; [destruct header; reflexivity|]. split; [lia|].
    rewrite Hrem. reflexivity.
  - destruct (skip_iteration fuel self offset header
                (signif_chars_of self header cur) (comment_of self header cur)
                i c tl Hpos Hi Hrem) as (Hstep & Hrem1 & Hrem2).
    rewrite Hstep. clear Hstep.
    assert (Hfuel1 : (length tl < fuel)%nat) by (simpl in Hfuel; lia).
    assert (Hn : exists m, Z.to_nat (offset - i) = S m)
      by (exists (Z.to_nat (offset - i - 1)); lia).
    destruct Hn as [m Hm].
    destruct ((c =? CR) || (c =? NL)) eqn:Hterm.
    + (* a line terminator *)
      rewrite <- significant_locals.
      set (two := (c =? CR) && match tl with n :: _ => n =? NL | [] => false end).
      set (i1 := if significant self header cur then i + 1 else i).
      set (self1 := set_source_pos self (source_pos self + (if two then 2 else 1))).
      assert (Hlines : lines_from cur (c :: tl)
                       = cur :: lines_from [] (remaining self1)).
      { subst self1 two. simpl lines_from.
        destruct (Z.eqb_spec c NL) as [->|HNL].
        - simpl. rewrite Hrem1. reflexivity.
        - destruct (Z.eqb_spec c CR) as [->|HCR]; [|discriminate Hterm].
          simpl. destruct tl as [|n tl'].
          + rewrite Hrem1. reflexivity.
          + destruct (n =? NL).
            * rewrite (Hrem2 n tl' eq_refl). reflexivity.
            * rewrite Hrem1. reflexivity. }
      assert (Hpos1 : 0 <= source_pos self1)
        by (subst self1; simpl; destruct two; lia).
      assert (Hfuel1' : (length (remaining self1) < fuel)%nat).
      { subst self1 two.
        destruct ((c =? CR) && match tl with n :: _ => n =? NL | [] => false end)
          eqn:E.
        - destruct tl as [|n tl']; [rewrite andb_false_r in E; discriminate|].
          rewrite (Hrem2 n tl' eq_refl). simpl in Hfuel1. lia.
        - rewrite Hrem1. exact Hfuel1. }
      destruct (IH self1 [] i1 Hpos1 Hfuel1') as (c' & p' & Hrun & Hp & Hl).
      { subst i1. destruct (significant self header cur); [|left; lia].
        destruct (Z.eq_dec (i + 1) offset); [right; auto|left; lia]. }
      exists c', p'. split; [exact Hrun|]. split.
      { subst self1. simpl in Hp. destruct two; lia. }
      change (remaining (set_source_pos self1 p'))
        with (remaining (set_source_pos self p')) in Hl.
      rewrite Hl, Hlines, Hm, drop_significant_cons.
      change (significant self1 header) with (significant self header).
      f_equal. subst i1. destruct (significant self header cur); lia.
    + (* a byte of the line *)
      apply orb_false_iff in Hterm. destruct Hterm as [HCR HNL].
      destruct (locals_after_byte self header cur c) as [Hsc Hcm].
      set (self1 := set_source_pos self (source_pos self + 1)) in *.
      assert (Hpos1 : 0 <= source_pos self1) by (simpl; lia).
      assert (Hfuel1' : (length (remaining self1) < fuel)%nat)
        by (rewrite Hrem1; exact Hfuel1).
      destruct (IH self1 (cur ++ [c]) i Hpos1 Hfuel1' (or_introl Hi))
        as (c' & p' & Hrun & Hp & Hl).
      change (signif_chars_of self1) with (signif_chars_of self) in Hrun.
      change (comment_of self1) with (comment_of self) in Hrun.
      rewrite Hsc, Hcm in Hrun.
      exists c', p'. split.
      { destruct (kept self header c); exact Hrun. }
      split; [simpl in Hp; lia|].
      change (remaining (set_source_pos self1 p'))
        with (remaining (set_source_pos self p')) in Hl.
      rewrite Hl, Hrem1. simpl lines_from. rewrite HNL, HCR. reflexivity.
Qed.

(** The effect of [skip_lines] on the tokenizer: only [code] and the cursor
    change, the cursor never moves back, and the lines left at the cursor
    are the lines that were there but for the first ones, up to and
    including the [offset]-th significant line (none is left when there are
    fewer). *)
Theorem skip_lines_effect (self : tokenizer) (offset : Z) (header : bool) :
  0 <= source_pos self ->
  exists c p',
    skip_lines self offset header = Done c (set_code (set_source_pos self p') c)
    /\ source_pos self <= p'
    /\ lines_from [] (remaining (set_source_pos self p'))
       = drop_significant (significant self header) (Z.to_nat offset)
           (lines_from [] (remaining self)).
Proof.
  intros Hpos.
  destruct (Z.ltb_spec 0 offset) as [Hoff|Hoff].
  - destruct (skip_lines_loop_effect offset header (skip_fuel self) self [] 0 Hpos)
      as (c & p' & Hrun & Hp & Hl).
    + unfold skip_fuel. pose proof (remaining_length self Hpos). lia.
    + left. exact Hoff.
    + exists c, p'. split; [exact Hrun|]. split; [exact Hp|].
      rewrite Hl. f_equal. lia.
  - exists NO_ERROR, (source_pos self).
    split.
    + unfold skip_lines, skip_fuel. simpl.
      destruct (Z.ltb_spec 0 offset); [lia|]. destruct self; reflexivity.
    + split; [lia|].
      replace (set_source_pos self (source_pos self)) with self
        by (destruct self; reflexivity).
      replace (Z.to_nat offset) with O by lia.
      destruct (lines_from [] (remaining self)); reflexivity.
Qed.

Lemma skip_lines_effect_witness :
  exists c p',
    skip_lines (set_source (csv false true true) header_and_row) 1 true
    = Done c (set_code (set_source_pos
                          (set_source (csv false true true) header_and_row) p') c)
    /\ 0 <= p'
    /\ lines_from [] (remaining (set_source_pos
                                   (set_source (csv false true true)
                                      header_and_row) p'))
       = [bytes "1,2,3"].
Proof.
  destruct (skip_lines_effect (set_source (csv false true true) header_and_row)
              1 true) as (c & p' & H1 & H2 & H3).
  - vm_compute. discriminate.
  - exists c, p'. split; [exact H1|]. split; [exact H2|]. exact H3.
Defined.

(** In data mode [skip_lines] never fails: for every input and offset it
    returns NO_ERROR. *)
Theorem skip_lines_data_mode (self : tokenizer) (offset : Z) :
  0 <= source_pos self ->
  exists self', skip_lines self offset false = Done NO_ERROR self'
                /\ code self' = NO_ERROR.
Proof.
  intros Hpos.
  destruct (skip_lines_loop_spec offset false (skip_fuel self) self [] 0 Hpos)
    as (self' & Hrun & Hcode & _).
  - unfold skip_fuel. pose proof (remaining_length self Hpos). lia.
  - exists self'.
    destruct (0 + count_significant self false (lines_from [] (remaining self))
              <? offset); auto.
Qed.

Lemma skip_lines_data_mode_witness :
  exists self',
    skip_lines (set_source (csv false true true) header_and_row) 7 false
    = Done NO_ERROR self'
    /\ code self' = NO_ERROR.
Proof.
  apply (skip_lines_data_mode (set_source (csv false true true) header_and_row) 7).
  vm_compute. discriminate.
Defined.

(** ** Tables of plain fields: what [tokenize] stores *)

Lemma run_loop (h : bool) (e : Z) (k : nat) :
  forall s l s' l',
    run k h e s l = Some (s', l') ->
    forall fuel,
      tokenize_loop (k + fuel) h e s l = tokenize_loop fuel h e s' l'.
Proof.
  induction k as [|k IH]; intros s l s' l' H fuel; simpl in *.
  - inversion H; subst. reflexivity.
  - destruct (source_pos s <? source_len s + 1); [|discriminate].
    destruct (step h e s l) as [[s1 l1]| |]; try discriminate.
    apply IH. exact H.
Qed.

Lemma run_trans (h : bool) (e : Z) (k1 k2 : nat) :
  forall s l s1 l1 s2 l2,
    run k1 h e s l = Some (s1, l1) ->
    run k2 h e s1 l1 = Some (s2, l2) ->
    run (k1 + k2) h e s l = Some (s2, l2).
Proof.
  induction k1 as [|k1 IH]; intros s l s1 l1 s2 l2 H1 H2; simpl in *.
  - inversion H1; subst. exact H2.
  - destruct (source_pos s <? source_len s + 1); [|discriminate].
    destruct (step h e s l) as [[sa la]| |]; try discriminate.
    eapply IH; eauto.
Qed.

Lemma store_app (w : list Z) (x c : Z) (tl : list Z) :
  store (w ++ x :: tl) (length w) c = w ++ c :: tl.
Proof. induction w as [|a w IH]; simpl; [reflexivity|]. rewrite IH. reflexivity. Qed.

Lemma nth_error_app_here (w : list Z) (x : Z) (tl : list Z) :
  nth_error (w ++ x :: tl) (length w) = Some x.
Proof. induction w as [|a w IH]; simpl; auto. Qed.

(** [PUSH] on a block that is not empty: the byte joins the packed region,
    the rest stays zero. *)
Lemma push_block (w : list Z) (k : nat) (c : Z) :
  (0 < length w + k)%nat ->
  exists k', push_col (block w k) c = Some (block (w ++ [c]) k').
Proof.
  intros Hlen. unfold push_col, block. cbn [col_data col_ptr].
  destruct k as [|m].
  - (* the block is full: it doubles *)
    exists (length w - 1)%nat.
    simpl repeat. rewrite app_nil_r.
    destruct (Nat.leb_spec (length w) (length w)); [|lia].
    unfold resize_col. cbn [col_data col_ptr].
    rewrite length_app, repeat_length.
    destruct (Nat.ltb_spec (length w) (length w + length w)); [|lia].
    assert (Hr : repeat 0 (length w) = 0 :: repeat 0 (length w - 1)).
    { revert Hlen. destruct (length w); intros; [lia|].
      simpl. rewrite Nat.sub_0_r. reflexivity. }
    rewrite Hr, store_app.
    rewrite length_app. simpl length.
    replace (length w + 1)%nat with (S (length w)) by lia.
    rewrite <- app_assoc. reflexivity.
  - exists m.
    rewrite length_app, repeat_length.
    destruct (Nat.leb_spec (length w + S m) (length w)); [lia|].
    cbn [col_data col_ptr]. rewrite length_app, repeat_length.
    destruct (Nat.ltb_spec (length w) (length w + S m)); [|lia].
    simpl repeat. rewrite store_app.
    rewrite length_app. simpl length.
    replace (length w + 1)%nat with (S (length w)) by lia.
    rewrite <- app_assoc. reflexivity.
Qed.

(** [END_FIELD] on a block whose last byte is neither blank nor NUL: only
    the terminator is written. *)
Lemma end_field_block (strip : bool) (w : list Z) (c : Z) (k : nat) :
  is_blank c = false -> c <> 0 ->
  exists k',
    end_field_col strip (block (w ++ [c]) k) = Some (block ((w ++ [c]) ++ [0]) k').
Proof.
  intros Hb Hz.
  destruct (push_block (w ++ [c]) k 0) as [k' Hpush].
  { rewrite length_app. simpl. lia. }
  exists k'. unfold end_field_col.
  assert (Hstrip : (if strip then strip_col (block (w ++ [c]) k)
                    else Some (block (w ++ [c]) k))
                   = Some (block (w ++ [c]) k)).
  { destruct strip; [|reflexivity].
    unfold strip_col, block. cbn [col_data col_ptr].
    rewrite length_app. simpl length.
    replace (length w + 1)%nat with (S (length w)) by lia.
    cbn [rstrip]. rewrite <- app_assoc. simpl app.
    rewrite nth_error_app_here, Hb. reflexivity. }
  rewrite Hstrip.
  assert (Hempty : field_is_empty (block (w ++ [c]) k) = Some false).
  { unfold field_is_empty, block. cbn [col_data col_ptr].
    rewrite length_app. simpl length.
    replace (length w + 1)%nat with (S (length w)) by lia.
    rewrite <- app_assoc. simpl app. rewrite nth_error_app_here.
    destruct (Z.eqb_spec c 0); [contradiction|reflexivity]. }
  rewrite Hempty. exact Hpush.
Qed.

Lemma set_nth_twice (cs : list column) :
  forall i a b, set_nth (set_nth cs i a) i b = set_nth cs i b.
Proof.
  induction cs as [|x cs IH]; intros [|i] a b; simpl; auto.
  rewrite IH. reflexivity.
Qed.

Lemma set_nth_same (cs : list column) :
  forall i a, nth_error cs i = Some a -> set_nth cs i a = cs.
Proof.
  induction cs as [|x cs IH]; intros [|i] a H; simpl in *; try discriminate.
  - congruence.
  - rewrite (IH _ _ H). reflexivity.
Qed.

Lemma plain_byte_facts (s0 : tokenizer) (c : Z) :
  plain_byte s0 c = true ->
  (c =? 0) = false /\ (c =? NL) = false /\ (c =? CR) = false
  /\ (c =? SPACE) = false /\ (c =? TAB) = false
  /\ (c =? delimiter s0) = false /\ (c =? quotechar s0) = false
  /\ (c =? comment s0) = false.
Proof.
  unfold plain_byte, is_blank. intros H.
  repeat (apply andb_prop in H; destruct H as [H ?]).
  repeat match goal with
         | X : negb _ = true |- _ => apply negb_true_iff in X
         end.
  match goal with X : _ || _ = false |- _ => apply orb_false_iff in X; destruct X end.
  repeat split; assumption.
Qed.

Section PlainSteps.

Variable s0 : tokenizer.
Variable e : Z.

Lemma PUSH_at (st : tokenizer_state) (p : Z) (cs : list column) (n : Z)
    (j : nat) (w : list Z) (k : nat) (c : Z) :
  nth_error cs j = Some (block w k) ->
  (0 < length w + k)%nat ->
  exists k',
    PUSH (at_state s0 st p cs n) j c
    = Some (at_state s0 st p (set_nth cs j (block (w ++ [c]) k')) n).
Proof.
  intros Hj Hlen. destruct (push_block w k c Hlen) as [k' Hp].
  exists k'. unfold PUSH.
  change (output_cols (at_state s0 st p cs n)) with cs.
  rewrite Hj, Hp. reflexivity.
Qed.

Lemma END_FIELD_at (st : tokenizer_state) (p : Z) (cs : list column) (n : Z)
    (j : nat) (w : list Z) (c : Z) (k : nat) :
  nth_error cs j = Some (block (w ++ [c]) k) ->
  is_blank c = false -> c <> 0 ->
  exists k',
    END_FIELD false (at_state s0 st p cs n) j
    = Some (at_state s0 st p (set_nth cs j (block ((w ++ [c]) ++ [0]) k')) n,
            S j).
Proof.
  intros Hj Hb Hz.
  destruct (end_field_block (strip_whitespace_fields s0) w c k Hb Hz) as [k' He].
  exists k'. unfold END_FIELD.
  change (output_cols (at_state s0 st p cs n)) with cs.
  change (strip_whitespace_fields (at_state s0 st p cs n))
    with (strip_whitespace_fields s0).
  rewrite Hj, He. reflexivity.
Qed.

Lemma current_char_at (st : tokenizer_state) (p : Z) (cs : list column)
    (n : Z) (j : nat) (os : tokenizer_state) (wsp : bool) (c : Z) (tl : list Z) :
  0 <= p ->
  skipn (Z.to_nat p) (source s0) = c :: tl ->
  current_char (at_state s0 st p cs n) (mk_locals j os false wsp) = Some c
  /\ p < source_len s0.
Proof.
  intros Hp Hs.
  assert (Hlt : p < source_len s0).
  { unfold source_len. pose proof (length_skipn (Z.to_nat p) (source s0)) as Hl.
    rewrite Hs in Hl. simpl in Hl. lia. }
  split; [|exact Hlt].
  unfold current_char.
  change (source_pos (at_state s0 st p cs n)) with p.
  change (source_len (at_state s0 st p cs n)) with (source_len s0).
  cbn [parse_newline].
  destruct (Z.eqb_spec p (source_len s0)); [lia|]. simpl orb. cbv iota.
  unfold source_at. destruct (Z.ltb_spec p 0); [lia|].
  change (source (at_state s0 st p cs n)) with (source s0).
  apply (skipn_cons_nth_error _ _ _ _ _ Hs).
Qed.

Ltac locals_simpl :=
  unfold set_parse_newline, set_whitespace, set_col_idx, set_old_state,
    BEGIN_FIELD;
  cbn [col old_state parse_newline whitespace negb andb orb lift bind_flow
       fst snd].

Ltac plain_facts H :=
  destruct (plain_byte_facts _ _ H)
    as (Hc0 & HcNL & HcCR & HcSP & HcTAB & Hcd & Hcq & Hcc).

(** A plain byte in state FIELD, after a byte that is not blank. *)
Lemma step_FIELD_byte (p : Z) (cs : list column) (n : Z) (j : nat)
    (os : tokenizer_state) (c : Z) (tl : list Z) (w : list Z) (k : nat) :
  0 <= p ->
  skipn (Z.to_nat p) (source s0) = c :: tl ->
  plain_byte s0 c = true ->
  nth_error cs j = Some (block w k) ->
  (0 < length w + k)%nat ->
  exists k',
    step false e (at_state s0 FIELD p cs n) (mk_locals j os false false)
    = Next (at_state s0 FIELD (p + 1) (set_nth cs j (block (w ++ [c]) k')) n,
            mk_locals j os false false).
Proof.
  intros Hp Hs Hpl Hj Hlen. plain_facts Hpl.
  destruct (current_char_at FIELD p cs n j os false c tl Hp Hs) as [Hc _].
  destruct (PUSH_at FIELD p cs n j w k c Hj Hlen) as [k' Hpush].
  exists k'. unfold step. rewrite Hc. cbn [lift bind_flow].
  change (state (at_state s0 FIELD p cs n)) with FIELD. cbv iota.
  unfold case_FIELD.
  change (comment (at_state s0 FIELD p cs n)) with (comment s0).
  change (delimiter (at_state s0 FIELD p cs n)) with (delimiter s0).
  locals_simpl.
  rewrite Hcc, Hcd, HcCR, HcNL, HcSP, HcTAB. locals_simpl.
  rewrite Hpush, ?andb_false_r. reflexivity.
Qed.

(** The code of START_FIELD on a plain byte: it falls into FIELD and the
    byte is stored. *)
Lemma case_START_FIELD_byte (st : tokenizer_state) (p : Z) (cs : list column)
    (n : Z) (j : nat) (os : tokenizer_state) (wsp : bool) (c : Z)
    (w : list Z) (k : nat) :
  plain_byte s0 c = true ->
  (j < num_cols s0)%nat ->
  nth_error cs j = Some (block w k) ->
  (0 < length w + k)%nat ->
  exists k',
    case_START_FIELD false e c (at_state s0 st p cs n) (mk_locals j os false wsp)
    = Next (at_state s0 FIELD p (set_nth cs j (block (w ++ [c]) k')) n,
            mk_locals j os false false).
Proof.
  intros Hpl Hcol Hj Hlen. plain_facts Hpl.
  destruct (PUSH_at FIELD p cs n j w k c Hj Hlen) as [k' Hpush].
  exists k'. unfold case_START_FIELD, is_blank.
  change (comment (at_state s0 st p cs n)) with (comment s0).
  change (delimiter (at_state s0 st p cs n)) with (delimiter s0).
  change (quotechar (at_state s0 st p cs n)) with (quotechar s0).
  change (num_cols (at_state s0 st p cs n)) with (num_cols s0).
  locals_simpl.
  rewrite Hcc, Hcd, HcCR, HcNL, HcSP, HcTAB, Hcq, ?andb_false_r. locals_simpl.
  destruct (Nat.leb_spec (num_cols s0) j); [lia|].
  unfold case_FIELD.
  change (set_state (at_state s0 st p cs n) FIELD) with (at_state s0 FIELD p cs n).
  change (comment (at_state s0 FIELD p cs n)) with (comment s0).
  change (delimiter (at_state s0 FIELD p cs n)) with (delimiter s0).
  rewrite Hcc, Hcd, HcCR, HcNL, HcSP, HcTAB, ?andb_false_r. locals_simpl.
  rewrite Hpush. reflexivity.
Qed.

(** A plain byte in state START_FIELD. *)
Lemma step_START_FIELD_byte (p : Z) (cs : list column) (n : Z) (j : nat)
    (os : tokenizer_state) (wsp : bool) (c : Z) (tl : list Z) (w : list Z)
    (k : nat) :
  0 <= p ->
  skipn (Z.to_nat p) (source s0) = c :: tl ->
  plain_byte s0 c = true ->
  (j < num_cols s0)%nat ->
  nth_error cs j = Some (block w k) ->
  (0 < length w + k)%nat ->
  exists k',
    step false e (at_state s0 START_FIELD p cs n) (mk_locals j os false wsp)
    = Next (at_state s0 FIELD (p + 1) (set_nth cs j (block (w ++ [c]) k')) n,
            mk_locals j os false false).
Proof.
  intros Hp Hs Hpl Hcol Hj Hlen.
  destruct (current_char_at START_FIELD p cs n j os wsp c tl Hp Hs) as [Hc _].
  destruct (case_START_FIELD_byte START_FIELD p cs n j os wsp c w k
              Hpl Hcol Hj Hlen) as [k' Hcase].
  exists k'. unfold step. rewrite Hc. cbn [lift bind_flow].
  change (state (at_state s0 START_FIELD p cs n)) with START_FIELD. cbv iota.
  locals_simpl. rewrite Hcase. reflexivity.
Qed.

(** A plain byte in state START_LINE: the first byte of a row. *)
Lemma step_START_LINE_byte (p : Z) (cs : list column) (n : Z) (j : nat)
    (os : tokenizer_state) (wsp : bool) (c : Z) (tl : list Z) (w : list Z)
    (k : nat) :
  0 <= p ->
  skipn (Z.to_nat p) (source s0) = c :: tl ->
  plain_byte s0 c = true ->
  (0 < num_cols s0)%nat ->
  nth_error cs 0 = Some (block w k) ->
  (0 < length w + k)%nat ->
  exists k',
    step false e (at_state s0 START_LINE p cs n) (mk_locals j os false wsp)
    = Next (at_state s0 FIELD (p + 1) (set_nth cs 0 (block (w ++ [c]) k')) n,
            mk_locals 0 os false false).
Proof.
  intros Hp Hs Hpl Hcol Hj Hlen. plain_facts Hpl.
  destruct (current_char_at START_LINE p cs n j os wsp c tl Hp Hs) as [Hc _].
  destruct (case_START_FIELD_byte START_FIELD p cs n 0 os true c w k
              Hpl Hcol Hj Hlen) as [k' Hcase].
  exists k'. unfold step. rewrite Hc. cbn [lift bind_flow].
  change (state (at_state s0 START_LINE p cs n)) with START_LINE. cbv iota.
  unfold case_START_LINE, is_blank.
  change (comment (at_state s0 START_LINE p cs n)) with (comment s0).
  rewrite Hcc, HcCR, HcNL, HcSP, HcTAB, ?andb_false_r. locals_simpl.
  change (set_state (at_state s0 START_LINE p cs n) START_FIELD)
    with (at_state s0 START_FIELD p cs n).
  locals_simpl. rewrite Hcase. reflexivity.
Qed.

(** The delimiter in state FIELD, after a byte that is neither blank nor
    NUL: the field is closed and the next one begins. *)
Lemma step_FIELD_delim (p : Z) (cs : list column) (n : Z) (j : nat)
    (os : tokenizer_state) (tl : list Z) (w : list Z) (c : Z) (k : nat) :
  0 <= p ->
  skipn (Z.to_nat p) (source s0) = delimiter s0 :: tl ->
  nth_error cs j = Some (block (w ++ [c]) k) ->
  is_blank c = false -> c <> 0 ->
  exists k',
    step false e (at_state s0 FIELD p cs n) (mk_locals j os false false)
    = Next (at_state s0 START_FIELD (p + 1)
              (set_nth cs j (block ((w ++ [c]) ++ [0]) k')) n,
            mk_locals (S j) os false true).
Proof.
  intros Hp Hs Hj Hb Hz.
  destruct (current_char_at FIELD p cs n j os false _ tl Hp Hs) as [Hc _].
  destruct (END_FIELD_at FIELD p cs n j w c k Hj Hb Hz) as [k' Hend].
  exists k'. unfold step. rewrite Hc. cbn [lift bind_flow].
  change (state (at_state s0 FIELD p cs n)) with FIELD. cbv iota.
  unfold case_FIELD, end_field.
  change (comment (at_state s0 FIELD p cs n)) with (comment s0).
  change (delimiter (at_state s0 FIELD p cs n)) with (delimiter s0).
  locals_simpl. rewrite ?andb_false_r. locals_simpl.
  rewrite Z.eqb_refl, Hend. reflexivity.
Qed.

(** The newline in state FIELD that ends the last field of a full row: the
    field is closed and the row counted; the call returns there when the
    row is the last one asked for. *)
Lemma step_FIELD_newline (p : Z) (cs : list column) (n : Z) (j : nat)
    (os : tokenizer_state) (tl : list Z) (w : list Z) (c : Z) (k : nat) :
  0 <= p ->
  skipn (Z.to_nat p) (source s0) = NL :: tl ->
  delimiter s0 <> NL ->
  S j = num_cols s0 ->
  nth_error cs j = Some (block (w ++ [c]) k) ->
  is_blank c = false -> c <> 0 ->
  exists k',
    step false e (at_state s0 FIELD p cs n) (mk_locals j os false false)
    = (if negb (e =? -1) && (n + 1 =? e)
       then Return_ NO_ERROR
              (set_code (at_state s0 FIELD (p + 1)
                           (set_nth cs j (block ((w ++ [c]) ++ [0]) k')) (n + 1))
                 NO_ERROR)
       else Next (at_state s0 START_LINE (p + 1)
                    (set_nth cs j (block ((w ++ [c]) ++ [0]) k')) (n + 1),
                  mk_locals (S j) START_LINE false false)).
Proof.
  intros Hp Hs Hd Hlast Hj Hb Hz.
  destruct (current_char_at FIELD p cs n j os false _ tl Hp Hs) as [Hc _].
  destruct (END_FIELD_at FIELD p cs n j w c k Hj Hb Hz) as [k' Hend].
  exists k'. unfold step. rewrite Hc. cbn [lift bind_flow].
  change (state (at_state s0 FIELD p cs n)) with FIELD. cbv iota.
  unfold case_FIELD, end_field.
  change (comment (at_state s0 FIELD p cs n)) with (comment s0).
  change (delimiter (at_state s0 FIELD p cs n)) with (delimiter s0).
  locals_simpl. rewrite ?andb_false_r. locals_simpl.
  destruct (Z.eqb_spec NL (delimiter s0)) as [E|_]; [congruence|].
  change (NL =? CR) with false. cbv iota. rewrite Z.eqb_refl, Hend.
  locals_simpl. unfold END_LINE.
  set (cs' := set_nth cs j (block ((w ++ [c]) ++ [0]) k')).
  change (fill_extra_cols (at_state s0 FIELD p cs' n)) with (fill_extra_cols s0).
  change (num_cols (at_state s0 FIELD p cs' n)) with (num_cols s0).
  locals_simpl. rewrite <- Hlast, Nat.sub_diag, Nat.ltb_irrefl.
  assert (Hfill :
    (if fill_extra_cols s0
     then lift (fill_cols 0 (at_state s0 FIELD p cs' n) (S j))
     else Next (at_state s0 FIELD p cs' n, S j))
    = Next (at_state s0 FIELD p cs' n, S j)).
  { destruct (fill_extra_cols s0); reflexivity. }
  rewrite Hfill. locals_simpl.
  change (num_rows (set_num_rows (at_state s0 FIELD p cs' n)
                      (num_rows (at_state s0 FIELD p cs' n) + 1)))
    with (n + 1).
  destruct (negb (e =? -1) && (n + 1 =? e)); reflexivity.
Qed.

(** The end of the input in state START_LINE. *)
Lemma step_START_LINE_end (cs : list column) (n : Z) (j : nat)
    (os : tokenizer_state) (wsp : bool) :
  step false e (at_state s0 START_LINE (source_len s0) cs n)
    (mk_locals j os false wsp)
  = Next (at_state s0 START_LINE (source_len s0 + 1) cs n,
          mk_locals j os false wsp).
Proof.
  unfold step, current_char.
  change (source_pos (at_state s0 START_LINE (source_len s0) cs n))
    with (source_len s0).
  change (source_len (at_state s0 START_LINE (source_len s0) cs n))
    with (source_len s0).
  rewrite Z.eqb_refl. reflexivity.
Qed.

End PlainSteps.

Lemma holds_set (cs : list column) (nc : nat) (G : nat -> list Z) (j : nat)
    (w : list Z) (k : nat) :
  holds cs nc G -> (j < nc)%nat -> (0 < length w + k)%nat ->
  holds (set_nth cs j (block w k)) nc (fun i => if (i =? j)%nat then w else G i).
Proof.
  intros [Hlen H] Hj Hpos. split; [rewrite length_set_nth; exact Hlen|].
  intros i Hi. rewrite nth_error_set_nth.
  destruct (Nat.eqb_spec i j) as [->|Hne].
  - destruct (H j Hj) as (k0 & Hk0 & _). rewrite Hk0. exists k. auto.
  - apply H. exact Hi.
Qed.

Lemma holds_ext (cs : list column) (nc : nat) (G G' : nat -> list Z) :
  holds cs nc G -> (forall i, (i < nc)%nat -> G i = G' i) -> holds cs nc G'.
Proof.
  intros [Hlen H] Hext. split; [exact Hlen|].
  intros i Hi. rewrite <- (Hext i Hi). apply H. exact Hi.
Qed.

Lemma plain_field_last (s0 : tokenizer) (f : list Z) :
  plain_field s0 f = true ->
  forallb (plain_byte s0) f = true
  /\ exists u c, f = u ++ [c] /\ is_blank c = false /\ c <> 0.
Proof.
  intros H.
  assert (Hne : f <> []) by (destruct f; [discriminate|congruence]).
  assert (Hall : forallb (plain_byte s0) f = true) by (destruct f; [discriminate|exact H]).
  split; [exact Hall|].
  destruct (exists_last Hne) as (u & c & ->).
  exists u, c. split; [reflexivity|].
  rewrite forallb_app in Hall. apply andb_prop in Hall. destruct Hall as [_ Hc].
  simpl in Hc. rewrite andb_true_r in Hc.
  destruct (plain_byte_facts _ _ Hc) as (Hc0 & _ & _ & HSP & HTAB & _).
  split.
  - unfold is_blank. rewrite HSP, HTAB. reflexivity.
  - intros ->. discriminate Hc0.
Qed.

Lemma join_cons (d : Z) (f : list Z) (fs : list (list Z)) :
  join d (f :: fs) = f ++ concat (map (cons d) fs).
Proof.
  revert f. induction fs as [|g fs IH]; intros f.
  - simpl. rewrite app_nil_r. reflexivity.
  - change (join d (f :: g :: fs)) with (f ++ d :: join d (g :: fs)).
    rewrite IH. reflexivity.
Qed.

Section PlainRows.

Variable s0 : tokenizer.
Variable e : Z.
Hypothesis delimiter_not_newline : delimiter s0 <> NL.

Lemma run_next (k : nat) (st : tokenizer_state) (p : Z) (cs : list column)
    (n : Z) (l : locals) (s1 : tokenizer) (l1 : locals)
    (r : tokenizer * locals) :
  p < source_len s0 + 1 ->
  step false e (at_state s0 st p cs n) l = Next (s1, l1) ->
  run k false e s1 l1 = Some r ->
  run (S k) false e (at_state s0 st p cs n) l = Some r.
Proof.
  intros Hp Hstep Hrun. cbn [run].
  change (source_pos (at_state s0 st p cs n)) with p.
  change (source_len (at_state s0 st p cs n)) with (source_len s0).
  destruct (Z.ltb_spec p (source_len s0 + 1)); [|lia].
  rewrite Hstep. exact Hrun.
Qed.

Lemma skipn_next (p : Z) (c : Z) (tl : list Z) :
  0 <= p ->
  skipn (Z.to_nat p) (source s0) = c :: tl ->
  skipn (Z.to_nat (p + 1)) (source s0) = tl /\ p < source_len s0.
Proof.
  intros Hp Hs. split.
  - replace (Z.to_nat (p + 1)) with (S (Z.to_nat p)) by lia.
    apply (skipn_cons_succ _ _ _ _ _ Hs).
  - unfold source_len. pose proof (length_skipn (Z.to_nat p) (source s0)) as Hl.
    rewrite Hs in Hl. simpl in Hl. lia.
Qed.

(** The bytes of a field after the first. *)
Lemma run_field_rest (n : Z) (j : nat) (os : tokenizer_state) (rest : list Z) :
  forall (f : list Z) (p : Z) (cs : list column) (w : list Z) (k : nat),
    forallb (plain_byte s0) f = true ->
    0 <= p ->
    skipn (Z.to_nat p) (source s0) = f ++ rest ->
    nth_error cs j = Some (block w k) ->
    (0 < length w + k)%nat ->
    exists k',
      (0 < length (w ++ f) + k')%nat
      /\ run (length f) false e (at_state s0 FIELD p cs n)
           (mk_locals j os false false)
         = Some (at_state s0 FIELD (p + Z.of_nat (length f))
                   (set_nth cs j (block (w ++ f) k')) n,
                 mk_locals j os false false).
Proof.
  induction f as [|c f IH]; intros p cs w k Hpl Hp Hs Hj Hlen.
  - exists k. rewrite app_nil_r. split; [exact Hlen|].
    simpl. rewrite Z.add_0_r, (set_nth_same _ _ _ Hj). reflexivity.
  - simpl in Hpl. apply andb_prop in Hpl. destruct Hpl as [Hc Hf].
    simpl app in Hs.
    destruct (step_FIELD_byte s0 e p cs n j os c (f ++ rest) w k
                Hp Hs Hc Hj Hlen) as [k1 Hstep].
    destruct (skipn_next p c (f ++ rest) Hp Hs) as [Hs1 Hlt].
    destruct (IH (p + 1) (set_nth cs j (block (w ++ [c]) k1)) (w ++ [c]) k1)
      as (k' & Hpos & Hrun); auto; try lia.
    { rewrite nth_error_set_nth, Nat.eqb_refl, Hj. reflexivity. }
    { rewrite length_app. simpl. lia. }
    exists k'. rewrite <- app_assoc in Hpos, Hrun. simpl app in Hpos, Hrun.
    split; [exact Hpos|].
    cbn [length]. eapply run_next; [|exact Hstep|]; [lia|].
    rewrite Hrun, set_nth_twice. do 3 f_equal. lia.
Qed.

(** The rest of a field once its first byte is stored. *)
Lemma run_field_tail (n : Z) (j : nat) (os : tokenizer_state) (rest : list Z)
    (st : tokenizer_state) (l0 : locals) (c : Z) (f : list Z) (p : Z)
    (cs : list column) (w : list Z) (k k1 : nat) :
  forallb (plain_byte s0) f = true ->
  0 <= p ->
  skipn (Z.to_nat p) (source s0) = (c :: f) ++ rest ->
  nth_error cs j = Some (block w k) ->
  step false e (at_state s0 st p cs n) l0
  = Next (at_state s0 FIELD (p + 1) (set_nth cs j (block (w ++ [c]) k1)) n,
          mk_locals j os false false) ->
  exists k',
    (0 < length (w ++ c :: f) + k')%nat
    /\ run (length (c :: f)) false e (at_state s0 st p cs n) l0
       = Some (at_state s0 FIELD (p + Z.of_nat (length (c :: f)))
                 (set_nth cs j (block (w ++ c :: f) k')) n,
               mk_locals j os false false).
Proof.
  intros Hf Hp Hs Hj Hstep. simpl app in Hs.
  destruct (skipn_next p c (f ++ rest) Hp Hs) as [Hs1 Hlt].
  destruct (run_field_rest n j os rest f (p + 1)
              (set_nth cs j (block (w ++ [c]) k1)) (w ++ [c]) k1)
    as (k' & Hpos & Hrun); auto; try lia.
  { rewrite nth_error_set_nth, Nat.eqb_refl, Hj. reflexivity. }
  { rewrite length_app. simpl. lia. }
  exists k'. rewrite <- app_assoc in Hpos, Hrun. simpl app in Hpos, Hrun.
  split; [exact Hpos|].
  cbn [length]. eapply run_next; [|exact Hstep|]; [lia|].
  rewrite Hrun, set_nth_twice. do 3 f_equal. lia.
Qed.

(** A whole field read from state START_FIELD. *)
Lemma run_field (n : Z) (j : nat) (os : tokenizer_state) (wsp : bool)
    (rest : list Z) (f : list Z) (p : Z) (cs : list column) (w : list Z)
    (k : nat) :
  plain_field s0 f = true ->
  0 <= p ->
  skipn (Z.to_nat p) (source s0) = f ++ rest ->
  (j < num_cols s0)%nat ->
  nth_error cs j = Some (block w k) ->
  (0 < length w + k)%nat ->
  exists k',
    (0 < length (w ++ f) + k')%nat
    /\ run (length f) false e (at_state s0 START_FIELD p cs n)
         (mk_locals j os false wsp)
       = Some (at_state s0 FIELD (p + Z.of_nat (length f))
                 (set_nth cs j (block (w ++ f) k')) n,
               mk_locals j os false false).
Proof.
  intros Hpl Hp Hs Hcol Hj Hlen.
  destruct f as [|c f]; [discriminate|].
  simpl in Hpl. apply andb_prop in Hpl. destruct Hpl as [Hc Hf].
  destruct (step_START_FIELD_byte s0 e p cs n j os wsp c (f ++ rest) w k
              Hp Hs Hc Hcol Hj Hlen) as [k1 Hstep].
  apply (run_field_tail n j os rest START_FIELD _ c f p cs w k k1 Hf Hp Hs Hj Hstep).
Qed.

(** The first field of a row, read from state START_LINE. *)
Lemma run_first_field (n : Z) (j : nat) (os : tokenizer_state) (wsp : bool)
    (rest : list Z) (f : list Z) (p : Z) (cs : list column) (w : list Z)
    (k : nat) :
  plain_field s0 f = true ->
  0 <= p ->
  skipn (Z.to_nat p) (source s0) = f ++ rest ->
  (0 < num_cols s0)%nat ->
  nth_error cs 0 = Some (block w k) ->
  (0 < length w + k)%nat ->
  exists k',
    (0 < length (w ++ f) + k')%nat
    /\ run (length f) false e (at_state s0 START_LINE p cs n)
         (mk_locals j os false wsp)
       = Some (at_state s0 FIELD (p + Z.of_nat (length f))
                 (set_nth cs 0 (block (w ++ f) k')) n,
               mk_locals 0 os false false).
Proof.
  intros Hpl Hp Hs Hcol Hj Hlen.
  destruct f as [|c f]; [discriminate|].
  simpl in Hpl. apply andb_prop in Hpl. destruct Hpl as [Hc Hf].
  destruct (step_START_LINE_byte s0 e p cs n j os wsp c (f ++ rest) w k
              Hp Hs Hc Hcol Hj Hlen) as [k1 Hstep].
  apply (run_field_tail n 0%nat os rest START_LINE _ c f p cs w k k1 Hf Hp Hs Hj Hstep).
Qed.

Lemma skipn_app_length (p : Z) (a b : list Z) :
  0 <= p ->
  skipn (Z.to_nat p) (source s0) = a ++ b ->
  skipn (Z.to_nat (p + Z.of_nat (length a))) (source s0) = b.
Proof.
  intros Hp Hs.
  replace (Z.to_nat (p + Z.of_nat (length a)))
    with (length a + Z.to_nat p)%nat by lia.
  rewrite <- skipn_skipn, Hs, skipn_app, skipn_all, Nat.sub_diag. reflexivity.
Qed.

Lemma open_at_here (F : nat -> list Z) (r : list (list Z)) (m : nat) :
  open_at F r m m = F m ++ nth m r [].
Proof. unfold open_at. rewrite Nat.ltb_irrefl, Nat.eqb_refl. reflexivity. Qed.

Lemma open_at_later (F : nat -> list Z) (r : list (list Z)) (m i : nat) :
  (m < i)%nat -> open_at F r m i = F i.
Proof.
  intros H. unfold open_at.
  destruct (Nat.ltb_spec i m); [lia|].
  destruct (Nat.eqb_spec i m); [lia|]. apply app_nil_r.
Qed.

Lemma plain_field_nth (r : list (list Z)) (m : nat) :
  forallb (plain_field s0) r = true -> (m < length r)%nat ->
  plain_field s0 (nth m r []) = true.
Proof.
  intros Hall Hm. rewrite forallb_forall in Hall. apply Hall.
  apply nth_In. exact Hm.
Qed.

(** The fields of a row after the one that is open, each with the delimiter
    before it. *)
Lemma run_row_rest (n : Z) (os : tokenizer_state) (rest : list Z)
    (F : nat -> list Z) (r : list (list Z)) :
  num_cols s0 = length r ->
  forallb (plain_field s0) r = true ->
  forall (fs : list (list Z)) (m : nat) (cs : list column) (p : Z),
    holds cs (length r) (open_at F r m) ->
    (m < length r)%nat ->
    skipn (S m) r = fs ->
    0 <= p ->
    skipn (Z.to_nat p) (source s0)
    = concat (map (cons (delimiter s0)) fs) ++ rest ->
    exists cs',
      holds cs' (length r) (open_at F r (length r - 1))
      /\ run (length (concat (map (cons (delimiter s0)) fs))) false e
           (at_state s0 FIELD p cs n) (mk_locals m os false false)
         = Some (at_state s0 FIELD
                   (p + Z.of_nat (length (concat (map (cons (delimiter s0)) fs))))
                   cs' n,
                 mk_locals (length r - 1) os false false).
Proof.
  intros Hnc Hall. induction fs as [|g fs IH]; intros m cs p Hh Hm Hsk Hp Hs.
  - pose proof (length_skipn (S m) r) as Hl. rewrite Hsk in Hl. simpl in Hl.
    replace (length r - 1)%nat with m by lia.
    exists cs. split; [exact Hh|]. simpl. rewrite Z.add_0_r. reflexivity.
  - pose proof (skipn_cons_nth_error _ _ _ _ _ Hsk) as Hg.
    pose proof (skipn_cons_succ _ _ _ _ _ Hsk) as Hsk'.
    assert (Hm' : (S m < length r)%nat)
      by (apply nth_error_Some; rewrite Hg; discriminate).
    assert (Hgn : nth (S m) r [] = g) by (apply nth_error_nth; exact Hg).
    pose proof (plain_field_nth r (S m) Hall Hm') as Hgp. rewrite Hgn in Hgp.
    destruct (plain_field_last s0 _ (plain_field_nth r m Hall Hm))
      as (_ & u & c0 & Hu & Hb & Hz).
    (* the delimiter closes field [m] *)
    destruct Hh as [Hlen Hcols].
    destruct (Hcols m Hm) as (k & Hk & _).
    rewrite open_at_here, Hu, app_assoc in Hk.
    cbn [map concat] in Hs. rewrite <- app_assoc in Hs.
    change ((delimiter s0 :: g) ++ concat (map (cons (delimiter s0)) fs) ++ rest)
      with (delimiter s0 :: g ++ concat (map (cons (delimiter s0)) fs) ++ rest)
      in Hs.
    destruct (step_FIELD_delim s0 e p cs n m os _ (F m ++ u) c0 k Hp Hs Hk Hb Hz)
      as [k1 Hstep].
    destruct (skipn_next p _ _ Hp Hs) as [Hs1 Hlt].
    set (cs1 := set_nth cs m (block (((F m ++ u) ++ [c0]) ++ [0]) k1)) in *.
    (* field [S m] is read *)
    destruct (Hcols (S m) Hm') as (k2 & Hk2 & Hpos2).
    rewrite open_at_later in Hk2, Hpos2 by lia.
    assert (Hk2' : nth_error cs1 (S m) = Some (block (F (S m)) k2)).
    { unfold cs1. rewrite nth_error_set_nth.
      destruct (Nat.eqb_spec (S m) m); [lia|exact Hk2]. }
    destruct (run_field n (S m) os true
                (concat (map (cons (delimiter s0)) fs) ++ rest) g (p + 1) cs1
                (F (S m)) k2 Hgp ltac:(lia) Hs1 ltac:(lia) Hk2' Hpos2)
      as (k3 & Hpos3 & Hrun).
    set (cs2 := set_nth cs1 (S m) (block (F (S m) ++ g) k3)) in *.
    assert (Hh2 : holds cs2 (length r) (open_at F r (S m))).
    { apply (holds_ext _ _
               (fun i => if (i =? S m)%nat then F (S m) ++ g
                         else if (i =? m)%nat then ((F m ++ u) ++ [c0]) ++ [0]
                              else open_at F r m i)).
      - apply holds_set; [|lia|exact Hpos3].
        apply holds_set; [split; assumption|lia|].
        rewrite !length_app. simpl. lia.
      - intros i Hi. unfold open_at.
        destruct (Nat.eqb_spec i (S m)) as [->|Hne1].
        + rewrite Nat.ltb_irrefl, Hgn. reflexivity.
        + destruct (Nat.eqb_spec i m) as [->|Hne2].
          * destruct (Nat.ltb_spec m (S m)); [|lia].
            rewrite Hu, <- !app_assoc. reflexivity.
          * destruct (Nat.ltb_spec i m); destruct (Nat.ltb_spec i (S m));
              try lia; reflexivity. }
    destruct (IH (S m) cs2 (p + 1 + Z.of_nat (length g)) Hh2 Hm' Hsk' ltac:(lia))
      as (cs' & Hh' & Hrun').
    { apply skipn_app_length; [lia|exact Hs1]. }
    exists cs'. split; [exact Hh'|].
    cbn [map concat]. cbn [app length]. rewrite length_app.
    eapply run_next; [|exact Hstep|]; [lia|].
    rewrite (run_trans _ _ _ _ _ _ _ _ _ _ Hrun Hrun').
    do 3 f_equal. lia.
Qed.

Lemma tokenize_loop_done (fuel : nat) (h : bool) (s : tokenizer) (l : locals) :
  source_len s + 1 <= source_pos s ->
  tokenize_loop fuel h e s l = Done NO_ERROR (set_code s NO_ERROR).
Proof.
  intros H. destruct fuel; simpl;
    destruct (Z.ltb_spec (source_pos s) (source_len s + 1)); try lia; reflexivity.
Qed.

(** A whole row with its newline, from state START_LINE: the row is stored
    and counted, and the loop goes on at the next line, or the call returns
    when the row is the last one asked for. *)
Lemma tokenize_loop_row (n : Z) (j : nat) (os : tokenizer_state) (wsp : bool)
    (rest : list Z) (F : nat -> list Z) (r : list (list Z)) (cs : list column)
    (p : Z) :
  num_cols s0 = length r ->
  (0 < length r)%nat ->
  forallb (plain_field s0) r = true ->
  holds cs (length r) F ->
  0 <= p ->
  skipn (Z.to_nat p) (source s0) = (join (delimiter s0) r ++ [NL]) ++ rest ->
  exists cs',
    holds cs' (length r) (fun i => F i ++ nth i r [] ++ [0])
    /\ forall fuel,
         tokenize_loop (length (join (delimiter s0) r ++ [NL]) + fuel) false e
           (at_state s0 START_LINE p cs n) (mk_locals j os false wsp)
         = (if negb (e =? -1) && (n + 1 =? e)
            then Done NO_ERROR
                   (set_code
                      (at_state s0 FIELD
                         (p + Z.of_nat (length (join (delimiter s0) r ++ [NL])))
                         cs' (n + 1)) NO_ERROR)
            else tokenize_loop fuel false e
                   (at_state s0 START_LINE
                      (p + Z.of_nat (length (join (delimiter s0) r ++ [NL])))
                      cs' (n + 1))
                   (mk_locals (length r) START_LINE false false)).
Proof.
  intros Hnc Hne Hall Hh Hp Hs.
  destruct r as [|f0 fs]; [simpl in Hne; lia|].
  rewrite join_cons in *. rewrite <- !app_assoc in Hs.
  assert (Hf0 : plain_field s0 f0 = true)
    by (simpl in Hall; apply andb_prop in Hall; tauto).
  (* the first field *)
  destruct Hh as [Hlen Hcols].
  destruct (Hcols 0%nat Hne) as (k & Hk & Hpos).
  destruct (run_first_field n j os wsp _ f0 p cs (F 0%nat) k Hf0 Hp Hs
              ltac:(lia) Hk Hpos) as (k1 & Hpos1 & Hrun1).
  set (cs1 := set_nth cs 0 (block (F 0%nat ++ f0) k1)) in *.
  assert (Hh1 : holds cs1 (length (f0 :: fs)) (open_at F (f0 :: fs) 0)).
  { apply (holds_ext _ _ (fun i => if (i =? 0)%nat then F 0%nat ++ f0 else F i)).
    - apply holds_set; [split; assumption|exact Hne|exact Hpos1].
    - intros i Hi. destruct (Nat.eqb_spec i 0) as [->|Hi0].
      + rewrite open_at_here. reflexivity.
      + rewrite open_at_later by lia. reflexivity. }
  (* the other fields *)
  pose proof (skipn_app_length p f0 _ Hp Hs) as Hs1.
  destruct (run_row_rest n os ([NL] ++ rest) F (f0 :: fs) Hnc Hall fs 0%nat cs1
              (p + Z.of_nat (length f0)) Hh1 Hne eq_refl ltac:(lia) Hs1)
    as (cs2 & Hh2 & Hrun2).
  pose proof (run_trans _ _ _ _ _ _ _ _ _ _ Hrun1 Hrun2) as Hrun.
  rewrite <- length_app in Hrun.
  set (body := f0 ++ concat (map (cons (delimiter s0)) fs)) in *.
  (* the newline *)
  set (m := (length (f0 :: fs) - 1)%nat) in *.
  assert (Hm : (m < length (f0 :: fs))%nat) by (subst m; simpl; lia).
  destruct (plain_field_last s0 _ (plain_field_nth (f0 :: fs) m Hall Hm))
    as (_ & u & c0 & Hu & Hb & Hz).
  destruct Hh2 as [Hlen2 Hcols2].
  destruct (Hcols2 m Hm) as (k2 & Hk2 & _).
  rewrite open_at_here, Hu, app_assoc in Hk2.
  set (p2 := p + Z.of_nat (length f0)
             + Z.of_nat (length (concat (map (cons (delimiter s0)) fs)))) in *.
  assert (Hs2 : skipn (Z.to_nat p2) (source s0) = NL :: rest).
  { subst p2. apply skipn_app_length; [lia|exact Hs1]. }
  destruct (step_FIELD_newline s0 e p2 cs2 n m os rest (F m ++ u) c0 k2
              ltac:(subst p2; lia) Hs2 delimiter_not_newline
              ltac:(subst m; simpl in *; lia) Hk2 Hb Hz)
    as [k3 Hstep].
  destruct (skipn_next p2 _ _ ltac:(subst p2; lia) Hs2) as [_ Hlt].
  set (cs3 := set_nth cs2 m (block (((F m ++ u) ++ [c0]) ++ [0]) k3)) in *.
  exists cs3. split.
  - apply (holds_ext _ _
             (fun i => if (i =? m)%nat then ((F m ++ u) ++ [c0]) ++ [0]
                       else open_at F (f0 :: fs) m i)).
    + apply holds_set; [split; assumption|exact Hm|].
      rewrite !length_app. simpl. lia.
    + intros i Hi. destruct (Nat.eqb_spec i m) as [->|Hne'].
      * rewrite Hu, <- !app_assoc. reflexivity.
      * unfold open_at. destruct (Nat.ltb_spec i m); [reflexivity|lia].
  - intros fuel. rewrite length_app. cbn [length].
    rewrite <- Nat.add_assoc.
    rewrite (run_loop _ _ _ _ _ _ _ Hrun).
    cbn [Nat.add tokenize_loop].
    change (source_pos (at_state s0 FIELD p2 cs2 n)) with p2.
    change (source_len (at_state s0 FIELD p2 cs2 n)) with (source_len s0).
    destruct (Z.ltb_spec p2 (source_len s0 + 1)); [|lia].
    rewrite Hstep.
    replace (p + Z.of_nat (length body + 1)) with (p2 + 1)
      by (subst p2 body; rewrite length_app; lia).
    replace (S m) with (length (f0 :: fs)) by (subst m; simpl; lia).
    destruct (negb (e =? -1) && (n + 1 =? e)); reflexivity.
Qed.

Lemma rows_taken_nil (n : Z) : rows_taken e n [] = [].
Proof.
  unfold rows_taken.
  destruct ((n <? e) && (e - n <=? Z.of_nat (length (@nil (list (list Z))))));
    [apply firstn_nil|reflexivity].
Qed.

Lemma rows_taken_limit (n : Z) (r : list (list Z)) (rows : list (list (list Z))) :
  negb (e =? -1) && (n + 1 =? e) = true ->
  rows_taken e n (r :: rows) = [r].
Proof.
  intros H. apply andb_prop in H. destruct H as [_ H].
  apply Z.eqb_eq in H. unfold rows_taken.
  destruct (Z.ltb_spec n e); [|lia].
  destruct (Z.leb_spec (e - n) (Z.of_nat (length (r :: rows))));
    [|cbn [length] in *; lia].
  replace (e - n) with 1 by lia. reflexivity.
Qed.

Lemma rows_taken_cons (n : Z) (r : list (list Z)) (rows : list (list (list Z))) :
  negb (e =? -1) && (n + 1 =? e) = false ->
  0 <= n ->
  rows_taken e n (r :: rows) = r :: rows_taken e (n + 1) rows.
Proof.
  intros H Hn. unfold rows_taken. cbn [length].
  destruct (Z.eqb_spec e (-1)) as [->|He].
  - destruct (Z.ltb_spec n (-1)); [lia|].
    destruct (Z.ltb_spec (n + 1) (-1)); [lia|]. reflexivity.
  - simpl in H. apply Z.eqb_neq in H.
    destruct (Z.ltb_spec n e); destruct (Z.ltb_spec (n + 1) e); try lia;
      [|reflexivity].
    destruct (Z.leb_spec (e - n) (Z.of_nat (S (length rows))));
      destruct (Z.leb_spec (e - (n + 1)) (Z.of_nat (length rows)));
      try lia; [|reflexivity].
    cbn [andb].
    replace (Z.to_nat (e - n)) with (S (Z.to_nat (e - (n + 1)))) by lia.
    reflexivity.
Qed.

(** The loop on the text of a table of plain fields, from the start of a
    line. *)
Lemma tokenize_loop_table :
  (0 < num_cols s0)%nat ->
  forall (rows : list (list (list Z))) (F : nat -> list Z) (cs : list column)
         (n p : Z) (j : nat) (os : tokenizer_state) (wsp : bool) (fuel : nat),
    plain_table s0 (num_cols s0) rows = true ->
    holds cs (num_cols s0) F ->
    0 <= p -> 0 <= n ->
    skipn (Z.to_nat p) (source s0) = encode (delimiter s0) rows ->
    (length (encode (delimiter s0) rows) + 1 <= fuel)%nat ->
    exists s',
      tokenize_loop fuel false e (at_state s0 START_LINE p cs n)
        (mk_locals j os false wsp) = Done NO_ERROR s'
      /\ code s' = NO_ERROR
      /\ source s' = source s0
      /\ num_rows s' = n + Z.of_nat (length (rows_taken e n rows))
      /\ holds (output_cols s') (num_cols s0)
           (fun i => F i ++ column_of i (rows_taken e n rows))
      /\ p <= source_pos s'
      /\ skipn (Z.to_nat (source_pos s')) (source s0)
         = encode (delimiter s0) (skipn (length (rows_taken e n rows)) rows).
Proof.
  intros Hnc. induction rows as [|r rows IH];
    intros F cs n p j os wsp fuel Hpl Hh Hp Hn Hs Hfuel.
  - rewrite rows_taken_nil.
    assert (Hend : source_len s0 <= p).
    { unfold source_len. pose proof (length_skipn (Z.to_nat p) (source s0)) as Hl.
      rewrite Hs in Hl. simpl in Hl. lia. }
    assert (Hfin : forall q, source_len s0 + 1 <= q -> p <= q ->
      code (set_code (at_state s0 START_LINE q cs n) NO_ERROR) = NO_ERROR
      /\ source (set_code (at_state s0 START_LINE q cs n) NO_ERROR) = source s0
      /\ num_rows (set_code (at_state s0 START_LINE q cs n) NO_ERROR)
         = n + Z.of_nat (length (@nil (list (list Z))))
      /\ holds (output_cols (set_code (at_state s0 START_LINE q cs n) NO_ERROR))
           (num_cols s0) (fun i => F i ++ column_of i [])
      /\ p <= source_pos (set_code (at_state s0 START_LINE q cs n) NO_ERROR)
      /\ skipn (Z.to_nat
                  (source_pos (set_code (at_state s0 START_LINE q cs n) NO_ERROR)))
           (source s0)
         = encode (delimiter s0) (skipn (length (@nil (list (list Z)))) [])).
    { intros q Hq Hpq. split; [reflexivity|]. split; [reflexivity|].
      split; [simpl; lia|]. split.
      - apply (holds_ext _ _ F); [exact Hh|].
        intros i _. unfold column_of. simpl. rewrite app_nil_r. reflexivity.
      - split; [exact Hpq|]. simpl skipn at 2. simpl encode.
        apply skipn_all2. unfold source_len in Hq.
        change (source_pos (set_code (at_state s0 START_LINE q cs n) NO_ERROR))
          with q. lia. }
    destruct (Z.eq_dec p (source_len s0)) as [->|Hne].
    + destruct fuel as [|fuel]; [lia|].
      cbn [tokenize_loop].
      change (source_pos (at_state s0 START_LINE (source_len s0) cs n))
        with (source_len s0).
      change (source_len (at_state s0 START_LINE (source_len s0) cs n))
        with (source_len s0).
      destruct (Z.ltb_spec (source_len s0) (source_len s0 + 1)); [|lia].
      rewrite step_START_LINE_end.
      rewrite tokenize_loop_done
        by (change (source_len s0 + 1 <= source_len s0 + 1); lia).
      eexists. split; [reflexivity|]. apply Hfin; lia.
    + rewrite tokenize_loop_done
        by (change (source_len s0 + 1 <= p); lia).
      eexists. split; [reflexivity|]. apply Hfin; lia.
  - cbn [plain_table forallb] in Hpl. apply andb_prop in Hpl.
    destruct Hpl as [Hr Hrows]. apply andb_prop in Hr. destruct Hr as [Hlr Hall].
    apply Nat.eqb_eq in Hlr.
    change (encode (delimiter s0) (r :: rows))
      with ((join (delimiter s0) r ++ [NL]) ++ encode (delimiter s0) rows) in *.
    rewrite <- Hlr in Hh.
    destruct (tokenize_loop_row n j os wsp (encode (delimiter s0) rows) F r cs p
                (eq_sym Hlr) ltac:(lia) Hall Hh Hp Hs) as (cs' & Hh' & Hloop).
    rewrite length_app in Hfuel.
    set (L := length (join (delimiter s0) r ++ [NL])) in *.
    replace fuel with (L + (fuel - L))%nat by lia.
    rewrite Hloop.
    destruct (negb (e =? -1) && (n + 1 =? e)) eqn:Hlim.
    + rewrite (rows_taken_limit n r rows Hlim).
      eexists. split; [reflexivity|].
      split; [reflexivity|]. split; [reflexivity|].
      split; [simpl; lia|]. split.
      * rewrite Hlr in Hh'. apply (holds_ext _ _ _ _ Hh').
        intros i _. unfold column_of. simpl. rewrite app_nil_r. reflexivity.
      * split; [simpl; lia|].
        change (source_pos
                  (set_code (at_state s0 FIELD (p + Z.of_nat L) cs' (n + 1))
                     NO_ERROR)) with (p + Z.of_nat L).
        simpl skipn at 2.
        apply (skipn_app_length p _ _ Hp Hs).
    + rewrite (rows_taken_cons n r rows Hlim Hn).
      rewrite Hlr in Hh'.
      destruct (IH (fun i => F i ++ nth i r [] ++ [0]) cs' (n + 1)
                  (p + Z.of_nat L) (length r) START_LINE false (fuel - L)%nat
                  Hrows Hh' ltac:(lia) ltac:(lia)
                  (skipn_app_length p _ _ Hp Hs) ltac:(lia))
        as (s' & Hrun & Hcode & Hsrc & Hnum & Hcols & Hpos & Hrem).
      exists s'. split; [exact Hrun|]. split; [exact Hcode|].
      split; [exact Hsrc|]. split; [cbn [length]; lia|]. split.
      * apply (holds_ext _ _ _ _ Hcols).
        intros i _. unfold column_of. cbn [map concat].
        rewrite <- !app_assoc. reflexivity.
      * split; [lia|]. exact Hrem.
Qed.

End PlainRows.

Lemma rows_taken_0 (e : Z) (rows : list (list (list Z))) :
  e <> 0 -> rows_taken e 0 rows = rows_read e rows.
Proof.
  intros He. unfold rows_taken, rows_read. rewrite Z.sub_0_r.
  destruct (Z.ltb_spec 0 e); destruct (Z.leb_spec 0 e); try lia; reflexivity.
Qed.

Lemma tokenize_table (ics : nat) (self : tokenizer) (end_ : Z)
    (ncols : nat) (rows : list (list (list Z))) :
  (0 < ics)%nat ->
  (0 < ncols)%nat ->
  0 <= source_pos self ->
  delimiter self <> NL ->
  plain_table self ncols rows = true ->
  remaining self = encode (delimiter self) rows ->
  exists s',
    tokenize ics self end_ false ncols = Done NO_ERROR s'
    /\ code s' = NO_ERROR
    /\ source s' = source self
    /\ num_rows s' = Z.of_nat (length (rows_read end_ rows))
    /\ holds (output_cols s') ncols (fun j => column_of j (rows_read end_ rows))
    /\ source_pos self <= source_pos s'
    /\ skipn (Z.to_nat (source_pos s')) (source self)
       = encode (delimiter self) (skipn (length (rows_read end_ rows)) rows).
Proof.
  intros Hics Hnc Hpos Hd Hpl Hrem.
  set (s0 := set_num_cols self ncols).
  set (cs0 := repeat (mk_column (repeat 0 ics) 0) ncols).
  assert (Hh0 : holds cs0 ncols (fun _ => [])).
  { split; [apply repeat_length|].
    intros j Hj. exists ics. split; [|simpl; lia].
    unfold cs0. apply nth_error_repeat. exact Hj. }
  unfold tokenize. destruct (Z.eqb_spec end_ 0) as [->|He].
  - exists (set_code (allocate ics self false ncols) NO_ERROR).
    assert (H0 : rows_read 0 rows = []).
    { unfold rows_read.
      destruct (Z.leb_spec 0 (Z.of_nat (length rows))); [reflexivity|lia]. }
    rewrite H0.
    split; [reflexivity|]. split; [reflexivity|]. split; [reflexivity|].
    split; [reflexivity|]. split; [exact Hh0|].
    split; [simpl; lia|]. exact Hrem.
  - change (set_state (allocate ics self false ncols) START_LINE)
      with (at_state s0 START_LINE (source_pos self) cs0 0).
    destruct (tokenize_loop_table s0 end_ Hd Hnc rows (fun _ => []) cs0 0
                (source_pos self) 0%nat START_LINE true
                (loop_fuel (at_state s0 START_LINE (source_pos self) cs0 0))
                Hpl Hh0 Hpos ltac:(lia) Hrem)
      as (s' & Hrun & Hcode & Hsrc & Hnum & Hcols & Hp & Hr).
    { unfold loop_fuel.
      change (source_len (at_state s0 START_LINE (source_pos self) cs0 0))
        with (source_len self).
      change (source_pos (at_state s0 START_LINE (source_pos self) cs0 0))
        with (source_pos self).
      change (delimiter s0) with (delimiter self).
      pose proof (remaining_length self Hpos) as Hl. rewrite Hrem in Hl. lia. }
    rewrite (rows_taken_0 end_ rows He) in *.
    exists s'. split; [exact Hrun|]. split; [exact Hcode|].
    split; [exact Hsrc|]. split; [lia|]. split; [exact Hcols|].
    split; [exact Hp|exact Hr].
Qed.

(** A table of plain fields is stored as it is.  In data mode, on the text
    of a table whose rows have [ncols] fields each, every field non-empty
    and made of plain bytes (no NUL, newline, carriage return, blank,
    delimiter, quote or comment character), with the fields of a row
    separated by the delimiter and every row ended by a newline, [tokenize]
    returns NO_ERROR; [num_rows] is the number of rows read, which are all
    the rows, or the first [end] of them when [end] is between 0 and the
    number of rows; column [j] holds the [j]-th field of each row read, in
    order, each followed by one [0x00], and nothing but [0x00] after them;
    and the cursor is left where the text of the rows not read begins.
    This holds for every setting of the stripping and filling options, and
    for every delimiter but the newline. *)
Theorem tokenize_plain_table (ics : nat) (self : tokenizer) (end_ : Z)
    (ncols : nat) (rows : list (list (list Z))) :
  (0 < ics)%nat ->
  (0 < ncols)%nat ->
  0 <= source_pos self ->
  delimiter self <> NL ->
  plain_table self ncols rows = true ->
  remaining self = encode (delimiter self) rows ->
  exists s',
    tokenize ics self end_ false ncols = Done NO_ERROR s'
    /\ code s' = NO_ERROR
    /\ num_rows s' = Z.of_nat (length (rows_read end_ rows))
    /\ length (output_cols s') = ncols
    /\ (forall j, (j < ncols)%nat ->
          exists k, nth_error (output_cols s') j
                    = Some (block (column_of j (rows_read end_ rows)) k))
    /\ source_pos self <= source_pos s'
    /\ remaining s'
       = encode (delimiter self) (skipn (length (rows_read end_ rows)) rows).
Proof.
  intros Hics Hnc Hpos Hd Hpl Hrem.
  destruct (tokenize_table ics self end_ ncols rows Hics Hnc Hpos Hd Hpl Hrem)
    as (s' & Hrun & Hcode & Hsrc & Hnum & [Hlen Hcols] & Hp & Hr).
  exists s'. split; [exact Hrun|]. split; [exact Hcode|].
  split; [exact Hnum|]. split; [exact Hlen|]. split.
  - intros j Hj. destruct (Hcols j Hj) as (k & Hk & _). exists k. exact Hk.
  - split; [exact Hp|]. unfold remaining. rewrite Hsrc. exact Hr.
Qed.

Lemma tokenize_plain_table_witness :
  exists s',
    tokenize 50 (set_source (csv false true true)
                   (bytes "ab,c" ++ [NL] ++ bytes "d,ef" ++ [NL]))
      1 false 2 = Done NO_ERROR s'
    /\ num_rows s' = 1
    /\ (exists k, nth_error (output_cols s') 0 = Some (block (bytes "ab" ++ [0]) k))
    /\ (exists k, nth_error (output_cols s') 1 = Some (block (bytes "c" ++ [0]) k))
    /\ remaining s' = bytes "d,ef" ++ [NL].
Proof.
  destruct (tokenize_plain_table 50
              (set_source (csv false true true)
                 (bytes "ab,c" ++ [NL] ++ bytes "d,ef" ++ [NL]))
              1 2 [[bytes "ab"; bytes "c"]; [bytes "d"; bytes "ef"]])
    as (s' & Hrun & _ & Hnum & _ & Hcols & _ & Hrem).
  - lia.
  - lia.
  - vm_compute. discriminate.
  - vm_compute. discriminate.
  - vm_compute. reflexivity.
  - vm_compute. reflexivity.
  - exists s'. split; [exact Hrun|]. split; [exact Hnum|].
    split; [exact (Hcols 0%nat ltac:(lia))|].
    split; [exact (Hcols 1%nat ltac:(lia))|]. exact Hrem.
Defined.

(** ** Reading the fields of a column back *)

Lemma read_column_from (c : nat) (k : nat) :
  forall (fs : list (list Z)) (pre : list Z) (self : tokenizer) (fuel : nat),
    iter_col self = c ->
    nth_error (output_cols self) c
    = Some (mk_column (pre ++ packed fs ++ repeat 0 k) (length (pre ++ packed fs))) ->
    curr_pos self = length pre ->
    (forall f, In f fs -> f <> [] /\ ~ In 0 f) ->
    (length fs <= fuel)%nat ->
    read_column fuel self = Some (map present fs).
Proof.
  induction fs as [|f fs IH]; intros pre self fuel Hic Hcl Hcp Hok Hfuel.
  - (* no field is left: the cursor is at a NUL or at the end of the block *)
    assert (Hfin : finished_iteration self = Some true).
    { unfold finished_iteration. rewrite Hic, Hcl, Hcp. cbn [col_data packed map concat app].
      rewrite length_app, repeat_length.
      destruct k as [|k].
      - destruct (Nat.leb_spec (length pre + 0) (length pre)); [reflexivity|lia].
      - destruct (Nat.leb_spec (length pre + S k) (length pre)); [lia|].
        simpl repeat. rewrite nth_error_app_here. reflexivity. }
    destruct fuel; simpl; rewrite Hfin; reflexivity.
  - destruct (Hok f (or_introl eq_refl)) as [Hne Hnz].
    destruct f as [|b f']; [contradiction|].
    assert (Hb : (b =? 0) = false).
    { apply Z.eqb_neq. intros ->. apply Hnz. now left. }
    assert (Hdata : pre ++ packed ((b :: f') :: fs) ++ repeat 0 k
                    = pre ++ b :: (f' ++ 0 :: packed fs ++ repeat 0 k)).
    { unfold packed. cbn [map concat]. rewrite <- !app_assoc. reflexivity. }
    rewrite Hdata in Hcl.
    assert (Hfin : finished_iteration self = Some false).
    { unfold finished_iteration. rewrite Hic, Hcl, Hcp. cbn [col_data].
      rewrite length_app. cbn [length].
      destruct (Nat.leb_spec (length pre + S (length (f' ++ 0 :: packed fs ++ repeat 0 k)))
                  (length pre)); [lia|].
      rewrite nth_error_app_here, Hb. reflexivity. }
    destruct fuel as [|fuel]; [simpl in Hfuel; lia|].
    cbn [read_column]. rewrite Hfin.
    assert (Hskip : skipn (length pre) (pre ++ b :: (f' ++ 0 :: packed fs ++ repeat 0 k))
                    = (b :: f') ++ 0 :: packed fs ++ repeat 0 k).
    { rewrite skipn_app, skipn_all, Nat.sub_diag. reflexivity. }
    unfold next_field. rewrite Hic, Hcl, Hcp. cbn [col_data].
    rewrite Hskip, (scan_field_payload _ _ Hnz), nth_error_app_here.
    set (self1 := set_iter self c (length pre + length (b :: f') + 1)).
    assert (Hrest : read_column fuel self1 = Some (map present fs)).
    { apply (IH (pre ++ (b :: f') ++ [0])).
      - reflexivity.
      - change (output_cols self1) with (output_cols self).
        rewrite Hcl. f_equal. f_equal.
        + rewrite <- !app_assoc. reflexivity.
        + f_equal. unfold packed. cbn [map concat].
          rewrite <- !app_assoc. reflexivity.
      - cbn [self1 set_iter curr_pos]. rewrite !length_app. simpl. lia.
      - intros g Hg. apply Hok. now right.
      - simpl in Hfuel. lia. }
    destruct (Z.eqb_spec b 1) as [->|Hb1].
    + rewrite Hrest. reflexivity.
    + rewrite Hrest. cbn [option_map map present].
      destruct (Z.eqb_spec b 1); [contradiction|].
      do 2 f_equal. cbn [deref]. rewrite Hcl. cbn [col_data].
      rewrite Hskip.
      replace (Z.to_nat (Z.of_nat (curr_pos self1) - Z.of_nat (length pre) - 1))
        with (length (b :: f'))
        by (cbn [self1 set_iter curr_pos]; lia).
      apply firstn_length_app.
Qed.

(** The loop of a reader over a column gives the stored fields back.  When
    the packed region of column [c] is a list of terminated fields, each
    non-empty and without NUL, and only NUL bytes follow it, then from
    [start_iteration] the loop that takes [next_field] until
    [finished_iteration] holds reads exactly those fields, in order, each
    with its length - but for a field that begins with [0x01], which is
    read as the empty string. *)
Theorem read_column_fields (self : tokenizer) (c : nat) (fs : list (list Z))
    (k : nat) (fuel : nat) :
  nth_error (output_cols self) c = Some (block (packed fs) k) ->
  (forall f, In f fs -> f <> [] /\ ~ In 0 f) ->
  (length fs <= fuel)%nat ->
  read_column fuel (start_iteration self c) = Some (map present fs).
Proof.
  intros Hcl Hok Hfuel.
  apply (read_column_from c k fs [] (start_iteration self c) fuel);
    auto; reflexivity.
Qed.

Lemma read_column_fields_witness :
  read_column 3
    (start_iteration
       (set_output_cols (csv false true true)
          [block (packed [bytes "a"; [1]; bytes "bc"]) 3]) 0)
  = Some [bytes "a"; []; bytes "bc"].
Proof.
  apply (read_column_fields
           (set_output_cols (csv false true true)
              [block (packed [bytes "a"; [1]; bytes "bc"]) 3])
           0 [bytes "a"; [1]; bytes "bc"] 3 3).
  - reflexivity.
  - simpl. intros f [<-|[<-|[<-|[]]]]; (split; [discriminate|]);
      simpl; intros H; repeat (destruct H as [H|H]; [discriminate|]); exact H.
  - simpl. lia.
Defined.

Lemma In_firstn (A : Type) (n : nat) (l : list A) (x : A) :
  In x (firstn n l) -> In x l.
Proof.
  intros H. rewrite <- (firstn_skipn n l). apply in_or_app. now left.
Qed.

Lemma plain_field_ok (s0 : tokenizer) (f : list Z) :
  plain_field s0 f = true -> f <> [] /\ ~ In 0 f.
Proof.
  intros H. split; [destruct f; [discriminate|congruence]|].
  intros Hin. assert (Hall : forallb (plain_byte s0) f = true)
    by (destruct f; [discriminate|exact H]).
  rewrite forallb_forall in Hall. specialize (Hall 0 Hin). discriminate Hall.
Qed.

(** From the text to the reader.  On the text of a table of plain fields
    (as in [tokenize_plain_table]), [tokenize] followed, for any column
    [j], by [start_iteration] and the loop of [next_field] until
    [finished_iteration], reads the [j]-th field of every row read, in row
    order: exactly the fields of the text, but for a field that begins
    with the byte [0x01], which comes back as the empty string. *)
Theorem tokenize_read_back (ics : nat) (self : tokenizer) (end_ : Z)
    (ncols : nat) (rows : list (list (list Z))) :
  (0 < ics)%nat ->
  (0 < ncols)%nat ->
  0 <= source_pos self ->
  delimiter self <> NL ->
  plain_table self ncols rows = true ->
  remaining self = encode (delimiter self) rows ->
  exists s',
    tokenize ics self end_ false ncols = Done NO_ERROR s'
    /\ forall j fuel,
         (j < ncols)%nat ->
         (length (rows_read end_ rows) <= fuel)%nat ->
         read_column fuel (start_iteration s' j)
         = Some (map (fun r => present (nth j r [])) (rows_read end_ rows)).
Proof.
  intros Hics Hnc Hpos Hd Hpl Hrem.
  destruct (tokenize_table ics self end_ ncols rows Hics Hnc Hpos Hd Hpl Hrem)
    as (s' & Hrun & _ & _ & _ & [_ Hcols] & _).
  exists s'. split; [exact Hrun|].
  intros j fuel Hj Hfuel. destruct (Hcols j Hj) as (k & Hk & _).
  assert (Hsub : forall r, In r (rows_read end_ rows) -> In r rows).
  { intros r. unfold rows_read.
    destruct ((0 <=? end_) && (end_ <=? Z.of_nat (length rows)));
      [apply In_firstn|auto]. }
  rewrite <- (map_map (fun r => nth j r []) present).
  apply (read_column_from j k (map (fun r => nth j r []) (rows_read end_ rows))
           [] (start_iteration s' j) fuel).
  - reflexivity.
  - change (output_cols (start_iteration s' j)) with (output_cols s').
    rewrite Hk. unfold block, column_of, packed. rewrite map_map. reflexivity.
  - reflexivity.
  - intros f Hf. apply in_map_iff in Hf. destruct Hf as (r & <- & Hr).
    apply (plain_field_ok self).
    unfold plain_table in Hpl. rewrite forallb_forall in Hpl.
    specialize (Hpl r (Hsub r Hr)). apply andb_prop in Hpl.
    destruct Hpl as [Hlen Hall]. apply Nat.eqb_eq in Hlen.
    rewrite forallb_forall in Hall. apply Hall. apply nth_In. lia.
  - rewrite length_map. exact Hfuel.
Qed.

Lemma tokenize_read_back_witness :
  exists s',
    tokenize 50 (set_source (csv false true true)
                   (bytes "ab,c" ++ [NL] ++ bytes "d,ef" ++ [NL]))
      (-1) false 2 = Done NO_ERROR s'
    /\ read_column 2 (start_iteration s' 1) = Some [bytes "c"; bytes "ef"].
Proof.
  destruct (tokenize_read_back 50
              (set_source (csv false true true)
                 (bytes "ab,c" ++ [NL] ++ bytes "d,ef" ++ [NL]))
              (-1) 2 [[bytes "ab"; bytes "c"]; [bytes "d"; bytes "ef"]])
    as (s' & Hrun & Hread).
  - lia.
  - lia.
  - vm_compute. discriminate.
  - vm_compute. discriminate.
  - vm_compute. reflexivity.
  - vm_compute. reflexivity.
  - exists s'. split; [exact Hrun|].
    apply (Hread 1%nat 2%nat); simpl; lia.
Defined.

(** ** The macros [PUSH] and [END_FIELD] on a block *)

Lemma push_block_size (w : list Z) (k : nat) (c : Z) :
  (0 < length w + k)%nat ->
  push_col (block w k) c
  = Some (block (w ++ [c]) (if (k =? 0)%nat then length w - 1 else k - 1)).
Proof.
  intros Hlen. unfold push_col, block. cbn [col_data col_ptr].
  rewrite length_app, repeat_length.
  destruct k as [|m]; cbn [Nat.eqb].
  - simpl repeat. rewrite app_nil_r, Nat.add_0_r.
    destruct (Nat.leb_spec (length w) (length w)); [|lia].
    unfold resize_col. cbn [col_data col_ptr].
    rewrite length_app, repeat_length.
    destruct (Nat.ltb_spec (length w) (length w + length w)); [|lia].
    assert (Hr : repeat 0 (length w) = 0 :: repeat 0 (length w - 1)).
    { revert Hlen. destruct (length w); intros; [lia|].
      simpl. rewrite Nat.sub_0_r. reflexivity. }
    rewrite Hr, store_app, length_app. simpl length.
    replace (length w + 1)%nat with (S (length w)) by lia.
    rewrite <- app_assoc. reflexivity.
  - destruct (Nat.leb_spec (length w + S m) (length w)); [lia|].
    cbn [col_data col_ptr]. rewrite length_app, repeat_length.
    destruct (Nat.ltb_spec (length w) (length w + S m)); [|lia].
    simpl repeat. rewrite store_app, length_app. simpl length.
    replace (length w + 1)%nat with (S (length w)) by lia.
    rewrite <- app_assoc, Nat.sub_0_r. reflexivity.
Qed.

(** [PUSH(c)] with [resize_col].  On a column whose packed region [w] is
    followed only by NUL bytes up to the end of its block, [PUSH] stays
    inside the block: [c] is appended to the packed region, the bytes after
    it are still NUL, and no other column or field of the tokenizer
    changes.  The block keeps its size when it had room and has twice its
    size when it was full.  A block of size 0 is the one case where the
    write falls outside: doubling it leaves it empty. *)
Theorem PUSH_appends (self : tokenizer) (col : nat) (w : list Z) (k : nat)
    (c : Z) :
  nth_error (output_cols self) col = Some (block w k) ->
  ((length w + k = 0)%nat -> PUSH self col c = None)
  /\ ((0 < length w + k)%nat ->
      exists k',
        PUSH self col c = Some (set_col self col (block (w ++ [c]) k'))
        /\ length (col_data (block (w ++ [c]) k'))
           = (if (k =? 0)%nat then 2 * length (col_data (block w k))
              else length (col_data (block w k)))%nat).
Proof.
  intros Hcol. split.
  - intros Hz. unfold PUSH. rewrite Hcol.
    assert (Hw : w = []) by (destruct w; [reflexivity|simpl in Hz; lia]).
    assert (Hk : k = 0%nat) by lia. subst. reflexivity.
  - intros Hlen. eexists. split.
    + unfold PUSH. rewrite Hcol, (push_block_size w k c Hlen). reflexivity.
    + unfold block. cbn [col_data]. rewrite !length_app, !repeat_length.
      simpl length. destruct k; cbn [Nat.eqb]; lia.
Qed.

Lemma PUSH_appends_witness :
  exists k',
    PUSH (set_output_cols (csv false true true) [block (bytes "ab") 0]) 0 99
    = Some (set_col (set_output_cols (csv false true true) [block (bytes "ab") 0])
              0 (block (bytes "abc") k'))
    /\ length (col_data (block (bytes "abc") k')) = 4%nat.
Proof.
  destruct (PUSH_appends
              (set_output_cols (csv false true true) [block (bytes "ab") 0])
              0 (bytes "ab") 0 99 eq_refl) as [_ H].
  apply H. simpl. lia.
Defined.
